(** * SimonSays: the game session of [GameContext.tsx]

    A shallow embedding of [GameProvider] (the React context that drives one
    play session): the difficulty table, the multiplier formula, the
    commands [startGame], [stopGame], [resetGame], [setDifficulty] and
    [handleTileClick], and the timer callbacks scheduled by [playSequence].

    Modelling choices.
    - Every [useState] cell is a field of [Game]; the setter of a cell is the
      function of the same name.  A command runs the handler of the latest
      render, so it reads the fields of the record it is given.  A timer
      callback keeps the values of the render that created it: they are
      stored in the [Callback] (the sequence and the difficulty it closes
      over).
    - [window.setTimeout] and [window.clearTimeout] act on the list [pending]
      of browser timers, under a virtual clock in milliseconds.  The timer
      that runs next is the one with the least due time, the oldest first
      among equals.
    - JavaScript numbers are integers throughout this code (scores, delays,
      tile indices, lengths): they are [Z].  [Math.round] is taken on
      rationals.
    - [Math.floor(Math.random() * 9)] is supplied by the environment with
      the event that fires a timer.
    - The rows sent to the [games] and [high_scores] tables, the tiles lit
      and the calls of [playTileSound] are recorded in logs, in order.
    - The sound provider is part of the state: whether sound effects are
      enabled and whether the [AudioContext] exists.  With both, a call of
      [playTileSound] for an index without a frequency ends with a
      [TypeError] of the audio API; the handler or callback that made the
      call stops there, and the updates it has made stay. *)

From Stdlib Require Import ZArith QArith Qround Lia.
From stdpp Require Import base list.

Local Open Scope Z_scope.

(** ** Data *)

Inductive GameState := Idle | ShowingSequence | WaitingForInput | GameOver.

Inductive Difficulty := easy | medium | hard.

#[global] Instance GameState_eq_dec : EqDecision GameState.
Proof. solve_decision. Defined.

#[global] Instance Difficulty_eq_dec : EqDecision Difficulty.
Proof. solve_decision. Defined.

Record DifficultySettings := {
  flashDelay : Z;
  pauseDelay : Z;
  baseMultiplier : Z
}.

(** The body of a function passed to [window.setTimeout]. *)
Inductive Callback :=
| StartTick (difficulty : Difficulty)
    (* startGame: draw the first tile, setSequence, playSequence *)
| FlashTick (tileIndex : Z) (i len : nat) (flashDelay : Z)
    (* playSequence, outer timeout of the i-th tile of len *)
| ClearTick (i len : nat)
    (* playSequence, inner timeout of the i-th tile of len *)
| InputFlashTick
    (* handleTileClick: () => setActiveTile(null) *)
| NextSequenceTick (sequence : list Z) (difficulty : Difficulty).
    (* handleTileClick: () => addToSequence() *)

Record Timer := {
  handle : nat;
  due : Z;
  callback : Callback
}.

(** A row inserted into the [games] table ([user_id] and [theme_id] are left
    out: no property below depends on them). *)
Record GameRow := {
  row_score : Z;
  row_difficulty : Difficulty;
  row_streak : Z
}.

(** A row upserted into the [high_scores] table. *)
Record HighScoreRow := {
  hs_score : Z;
  hs_difficulty : Difficulty
}.

(** What the player sees and hears, with the time it happened. *)
Inductive Presentation :=
| TileOn (tileIndex : Z)      (* setActiveTile(tileIndex) *)
| TileOff                     (* setActiveTile(null) *)
| TileSound (tileIndex : Z).  (* playTileSound(tileIndex) *)

Record Game := {
  (* useState *)
  state : GameState;
  sequence : list Z;
  userSequence : list Z;
  score : Z;
  highScore : Z;
  activeTile : option Z;
  difficulty : Difficulty;
  multiplier : Z;
  (* useRef *)
  sequenceTimeouts : list nat;
  (* the browser *)
  clock : Z;
  nextHandle : nat;
  pending : list Timer;
  (* useAuth: user?.id && session *)
  signedIn : bool;
  (* supabase *)
  games : list GameRow;
  high_scores : list HighScoreRow;
  (* the screen and the loudspeaker *)
  presented : list (Z * Presentation);
  (* useSound: settings.sfxEnabled, and whether audioContext.current is set *)
  sfxEnabled : bool;
  audioContext : bool
}.

(** ** The setters *)

Definition setState (v : GameState) (g : Game) : Game :=
  {| state := v; sequence := sequence g; userSequence := userSequence g;
     score := score g; highScore := highScore g; activeTile := activeTile g;
     difficulty := difficulty g; multiplier := multiplier g;
     sequenceTimeouts := sequenceTimeouts g; clock := clock g;
     nextHandle := nextHandle g; pending := pending g; signedIn := signedIn g;
     games := games g; high_scores := high_scores g;
     presented := presented g;
     sfxEnabled := sfxEnabled g; audioContext := audioContext g |}.

Definition setSequence (v : list Z) (g : Game) : Game :=
  {| state := state g; sequence := v; userSequence := userSequence g;
     score := score g; highScore := highScore g; activeTile := activeTile g;
     difficulty := difficulty g; multiplier := multiplier g;
     sequenceTimeouts := sequenceTimeouts g; clock := clock g;
     nextHandle := nextHandle g; pending := pending g; signedIn := signedIn g;
     games := games g; high_scores := high_scores g;
     presented := presented g;
     sfxEnabled := sfxEnabled g; audioContext := audioContext g |}.

Definition setUserSequence (v : list Z) (g : Game) : Game :=
  {| state := state g; sequence := sequence g; userSequence := v;
     score := score g; highScore := highScore g; activeTile := activeTile g;
     difficulty := difficulty g; multiplier := multiplier g;
     sequenceTimeouts := sequenceTimeouts g; clock := clock g;
     nextHandle := nextHandle g; pending := pending g; signedIn := signedIn g;
     games := games g; high_scores := high_scores g;
     presented := presented g;
     sfxEnabled := sfxEnabled g; audioContext := audioContext g |}.

Definition setScore (v : Z) (g : Game) : Game :=
  {| state := state g; sequence := sequence g; userSequence := userSequence g;
     score := v; highScore := highScore g; activeTile := activeTile g;
     difficulty := difficulty g; multiplier := multiplier g;
     sequenceTimeouts := sequenceTimeouts g; clock := clock g;
     nextHandle := nextHandle g; pending := pending g; signedIn := signedIn g;
     games := games g; high_scores := high_scores g;
     presented := presented g;
     sfxEnabled := sfxEnabled g; audioContext := audioContext g |}.

Definition setHighScore (v : Z) (g : Game) : Game :=
  {| state := state g; sequence := sequence g; userSequence := userSequence g;
     score := score g; highScore := v; activeTile := activeTile g;
     difficulty := difficulty g; multiplier := multiplier g;
     sequenceTimeouts := sequenceTimeouts g; clock := clock g;
     nextHandle := nextHandle g; pending := pending g; signedIn := signedIn g;
     games := games g; high_scores := high_scores g;
     presented := presented g;
     sfxEnabled := sfxEnabled g; audioContext := audioContext g |}.

(** [setActiveTile] also shows on the screen. *)
Definition setActiveTile (v : option Z) (g : Game) : Game :=
  {| state := state g; sequence := sequence g; userSequence := userSequence g;
     score := score g; highScore := highScore g; activeTile := v;
     difficulty := difficulty g; multiplier := multiplier g;
     sequenceTimeouts := sequenceTimeouts g; clock := clock g;
     nextHandle := nextHandle g; pending := pending g; signedIn := signedIn g;
     games := games g; high_scores := high_scores g;
     presented :=
       presented g ++
       [(clock g, match v with Some t => TileOn t | None => TileOff end)];
     sfxEnabled := sfxEnabled g; audioContext := audioContext g |}.

Definition setDifficulty (v : Difficulty) (g : Game) : Game :=
  {| state := state g; sequence := sequence g; userSequence := userSequence g;
     score := score g; highScore := highScore g; activeTile := activeTile g;
     difficulty := v; multiplier := multiplier g;
     sequenceTimeouts := sequenceTimeouts g; clock := clock g;
     nextHandle := nextHandle g; pending := pending g; signedIn := signedIn g;
     games := games g; high_scores := high_scores g;
     presented := presented g;
     sfxEnabled := sfxEnabled g; audioContext := audioContext g |}.

Definition setMultiplier (v : Z) (g : Game) : Game :=
  {| state := state g; sequence := sequence g; userSequence := userSequence g;
     score := score g; highScore := highScore g; activeTile := activeTile g;
     difficulty := difficulty g; multiplier := v;
     sequenceTimeouts := sequenceTimeouts g; clock := clock g;
     nextHandle := nextHandle g; pending := pending g; signedIn := signedIn g;
     games := games g; high_scores := high_scores g;
     presented := presented g;
     sfxEnabled := sfxEnabled g; audioContext := audioContext g |}.

(** Assignments to [sequenceTimeouts.current], to the browser's timers and
    clock, and to the logs. *)
Definition withSequenceTimeouts (v : list nat) (g : Game) : Game :=
  {| state := state g; sequence := sequence g; userSequence := userSequence g;
     score := score g; highScore := highScore g; activeTile := activeTile g;
     difficulty := difficulty g; multiplier := multiplier g;
     sequenceTimeouts := v; clock := clock g;
     nextHandle := nextHandle g; pending := pending g; signedIn := signedIn g;
     games := games g; high_scores := high_scores g;
     presented := presented g;
     sfxEnabled := sfxEnabled g; audioContext := audioContext g |}.

Definition withClock (v : Z) (g : Game) : Game :=
  {| state := state g; sequence := sequence g; userSequence := userSequence g;
     score := score g; highScore := highScore g; activeTile := activeTile g;
     difficulty := difficulty g; multiplier := multiplier g;
     sequenceTimeouts := sequenceTimeouts g; clock := v;
     nextHandle := nextHandle g; pending := pending g; signedIn := signedIn g;
     games := games g; high_scores := high_scores g;
     presented := presented g;
     sfxEnabled := sfxEnabled g; audioContext := audioContext g |}.

Definition withPending (n : nat) (v : list Timer) (g : Game) : Game :=
  {| state := state g; sequence := sequence g; userSequence := userSequence g;
     score := score g; highScore := highScore g; activeTile := activeTile g;
     difficulty := difficulty g; multiplier := multiplier g;
     sequenceTimeouts := sequenceTimeouts g; clock := clock g;
     nextHandle := n; pending := v; signedIn := signedIn g;
     games := games g; high_scores := high_scores g;
     presented := presented g;
     sfxEnabled := sfxEnabled g; audioContext := audioContext g |}.

Definition withGames (v : list GameRow) (g : Game) : Game :=
  {| state := state g; sequence := sequence g; userSequence := userSequence g;
     score := score g; highScore := highScore g; activeTile := activeTile g;
     difficulty := difficulty g; multiplier := multiplier g;
     sequenceTimeouts := sequenceTimeouts g; clock := clock g;
     nextHandle := nextHandle g; pending := pending g; signedIn := signedIn g;
     games := v; high_scores := high_scores g;
     presented := presented g;
     sfxEnabled := sfxEnabled g; audioContext := audioContext g |}.

Definition withHighScores (v : list HighScoreRow) (g : Game) : Game :=
  {| state := state g; sequence := sequence g; userSequence := userSequence g;
     score := score g; highScore := highScore g; activeTile := activeTile g;
     difficulty := difficulty g; multiplier := multiplier g;
     sequenceTimeouts := sequenceTimeouts g; clock := clock g;
     nextHandle := nextHandle g; pending := pending g; signedIn := signedIn g;
     games := games g; high_scores := v;
     presented := presented g;
     sfxEnabled := sfxEnabled g; audioContext := audioContext g |}.

(** Assignments of the sound provider: [setSettings] (of which only
    [sfxEnabled] matters here; [volume] is a number by its type, which the
    audio calls accept) and the [initAudio] listener, which creates the
    [AudioContext] at the first click or touch on the window. *)
Definition SoundProvider_setSettings (v : bool) (g : Game) : Game :=
  {| state := state g; sequence := sequence g; userSequence := userSequence g;
     score := score g; highScore := highScore g; activeTile := activeTile g;
     difficulty := difficulty g; multiplier := multiplier g;
     sequenceTimeouts := sequenceTimeouts g; clock := clock g;
     nextHandle := nextHandle g; pending := pending g; signedIn := signedIn g;
     games := games g; high_scores := high_scores g;
     presented := presented g;
     sfxEnabled := v; audioContext := audioContext g |}.

Definition initAudio (g : Game) : Game :=
  {| state := state g; sequence := sequence g; userSequence := userSequence g;
     score := score g; highScore := highScore g; activeTile := activeTile g;
     difficulty := difficulty g; multiplier := multiplier g;
     sequenceTimeouts := sequenceTimeouts g; clock := clock g;
     nextHandle := nextHandle g; pending := pending g; signedIn := signedIn g;
     games := games g; high_scores := high_scores g;
     presented := presented g;
     sfxEnabled := sfxEnabled g; audioContext := true |}.

(** ** The sound of a tile *)

(** The nine tiles of the grid. *)
Definition validTile (t : Z) : Prop := 0 <= t < 9.

#[global] Instance validTile_dec t : Decision (validTile t).
Proof. unfold validTile. apply _. Defined.

Definition TILE_FREQUENCIES : list Q :=
  [26163 # 100; 29366 # 100; 32963 # 100; 34923 # 100; 392 # 1; 440 # 1;
   49388 # 100; 52325 # 100; 58733 # 100]%Q.

(** [TILE_FREQUENCIES[tileIndex]]; [None] is [undefined]. *)
Definition TILE_FREQUENCIES_at (tileIndex : Z) : option Q :=
  if decide (0 <= tileIndex) then TILE_FREQUENCIES !! Z.to_nat tileIndex
  else None.

(** Whether [playTone(frequency, duration)] ends with an exception.  It
    returns at once unless sound effects are enabled and the [AudioContext]
    exists; otherwise it reaches
    [oscillator.frequency.setValueAtTime(frequency, ...)], which throws a
    [TypeError] when [frequency] is [undefined]. *)
Definition playTone_throws (frequency : option Q) (g : Game) : bool :=
  if negb (sfxEnabled g) || negb (audioContext g) then false
  else match frequency with
       | Some _ => false
       | None => true
       end.

(** Whether [playTileSound(tileIndex)] ends with an exception. *)
Definition playTileSound_throws (tileIndex : Z) (g : Game) : bool :=
  if negb (sfxEnabled g) then false
  else playTone_throws (TILE_FREQUENCIES_at tileIndex) g.

(** [playTileSound] of the sound context, as the log shows it: the call is
    recorded.  Whether it returns is [playTileSound_throws]. *)
Definition playTileSound (tileIndex : Z) (g : Game) : Game :=
  {| state := state g; sequence := sequence g; userSequence := userSequence g;
     score := score g; highScore := highScore g; activeTile := activeTile g;
     difficulty := difficulty g; multiplier := multiplier g;
     sequenceTimeouts := sequenceTimeouts g; clock := clock g;
     nextHandle := nextHandle g; pending := pending g; signedIn := signedIn g;
     games := games g; high_scores := high_scores g;
     presented := presented g ++ [(clock g, TileSound tileIndex)];
     sfxEnabled := sfxEnabled g; audioContext := audioContext g |}.

(** ** Difficulty and multiplier *)

Definition getDifficultySettings (difficulty : Difficulty)
  : DifficultySettings :=
  match difficulty with
  | easy => {| flashDelay := 400; pauseDelay := 400; baseMultiplier := 1 |}
  | medium => {| flashDelay := 300; pauseDelay := 300; baseMultiplier := 2 |}
  | hard => {| flashDelay := 200; pauseDelay := 200; baseMultiplier := 3 |}
  end.

(** The double nearest to an integer, ties going to the even significand
    (for integers below 2^1024 in absolute value): integers below 2^53 are
    doubles; a larger one keeps its 53 leading bits. *)
Definition toDouble (n : Z) : Z :=
  let a := Z.abs n in
  if a <? 2 ^ 53 then n
  else
    let e := Z.log2 a - 52 in
    let q := a / 2 ^ e in
    let r := a mod 2 ^ e in
    let half := 2 ^ (e - 1) in
    let q' :=
      if r <? half then q
      else if half <? r then q + 1
      else if Z.even q then q else q + 1 in
    Z.sgn n * (q' * 2 ^ e).

(** [a * b] on numbers that hold integers. *)
Definition Number_mul (a b : Z) : Z := toDouble (a * b).

Definition calculateMultiplier (sequenceLength baseMultiplier : Z) : Z :=
  let lengthMultiplier :=
    if 20 <=? sequenceLength then 6
    else if 16 <=? sequenceLength then 5
    else if 13 <=? sequenceLength then 4
    else if 10 <=? sequenceLength then 3
    else if 5 <=? sequenceLength then 2
    else 1 in
  Number_mul baseMultiplier lengthMultiplier.

(** [Math.round]: the nearest integer, halves going up. *)
Definition Math_round (x : Q) : Z := Qfloor (x + (1 # 2))%Q.

(** ** Browser timers *)

Definition setTimeout (cb : Callback) (delay : Z) (g : Game) : nat * Game :=
  (nextHandle g,
   withPending (S (nextHandle g))
     (pending g ++
      [{| handle := nextHandle g; due := clock g + delay; callback := cb |}])
     g).

Definition clearTimeout (h : nat) (g : Game) : Game :=
  withPending (nextHandle g) (filter (λ t, handle t ≠ h) (pending g)) g.

(** [sequenceTimeouts.current.push(h)] *)
Definition pushTimeout (h : nat) (g : Game) : Game :=
  withSequenceTimeouts (sequenceTimeouts g ++ [h]) g.

(** The timer that runs next, and the timers left. *)
Fixpoint pickEarliest (l : list Timer) : option (Timer * list Timer) :=
  match l with
  | [] => None
  | t :: rest =>
      match pickEarliest rest with
      | Some (t', rest') =>
          if due t <=? due t' then Some (t, rest) else Some (t', t :: rest')
      | None => Some (t, [])
      end
  end.

(** ** The functions of [GameProvider] *)

Definition cleanup (g : Game) : Game :=
  withSequenceTimeouts []
    (fold_left (λ g' timeout, clearTimeout timeout g') (sequenceTimeouts g) g).

Definition saveHighScore (newScore : Z) (g : Game) : Game :=
  if signedIn g then
    withHighScores
      (high_scores g ++
       [{| hs_score := newScore; hs_difficulty := difficulty g |}]) g
  else g.

Definition handleGameOver (g : Game) : Game :=
  let g1 := setState GameOver (cleanup g) in
  if signedIn g then
    withGames
      (games g1 ++
       [{| row_score := score g;
           row_difficulty := difficulty g;
           row_streak := Z.of_nat (length (sequence g)) - 1 |}]) g1
  else g1.

(** [sequence.forEach((tileIndex, i) => ...)] of [playSequence], from index
    [i] on; [len] is [sequence.length]. *)
Fixpoint playSequence_forEach (tiles : list Z) (i len : nat)
    (flashDelay pauseDelay : Z) (g : Game) : Game :=
  match tiles with
  | [] => g
  | tileIndex :: rest =>
      let (flashTimeout, g1) :=
        setTimeout (FlashTick tileIndex i len flashDelay)
          (Z.of_nat i * (flashDelay + pauseDelay)) g in
      playSequence_forEach rest (S i) len flashDelay pauseDelay
        (pushTimeout flashTimeout g1)
  end.

Definition playSequence (sequence : list Z) (difficulty : Difficulty)
    (g : Game) : Game :=
  let g1 := setState ShowingSequence g in
  let s := getDifficultySettings difficulty in
  playSequence_forEach sequence 0 (length sequence)
    (flashDelay s) (pauseDelay s) g1.

Definition startGame (g : Game) : Game :=
  let g1 := cleanup g in
  let g2 := setState Idle g1 in
  let g3 := setSequence [] g2 in
  let g4 := setUserSequence [] g3 in
  let g5 := setScore 0 g4 in
  let g6 :=
    setMultiplier (baseMultiplier (getDifficultySettings (difficulty g))) g5 in
  let g7 := setActiveTile None g6 in
  snd (setTimeout (StartTick (difficulty g)) 100 g7).

Definition stopGame (g : Game) : Game :=
  handleGameOver (cleanup g).

Definition resetGame (g : Game) : Game :=
  let g1 := cleanup g in
  let g2 := setSequence [] g1 in
  let g3 := setUserSequence [] g2 in
  let g4 := setScore 0 g3 in
  let g5 :=
    setMultiplier (baseMultiplier (getDifficultySettings (difficulty g))) g4 in
  let g6 := setActiveTile None g5 in
  setState Idle g6.

(** [addToSequence] as the callback sees it: [sequence] and [difficulty] are
    those of the render that scheduled it. *)
Definition addToSequence (sequence : list Z) (difficulty : Difficulty)
    (newTile : Z) (g : Game) : Game :=
  let newSequence := sequence ++ [newTile] in
  let g1 := setSequence newSequence g in
  let g2 := setUserSequence [] g1 in
  playSequence newSequence difficulty g2.

(** The state [handleTileClick] leaves.  When [playTileSound] throws, the
    handler stops there: the input buffer and the lit tile have been set,
    and nothing after the call is done. *)
Definition handleTileClick (tileIndex : Z) (g : Game) : Game :=
  if decide (state g ≠ WaitingForInput) then g
  else
    let newUserSequence := userSequence g ++ [tileIndex] in
    let g1 := setUserSequence newUserSequence g in
    let flashDelay := flashDelay (getDifficultySettings (difficulty g)) in
    let g2 := setActiveTile (Some tileIndex) g1 in
    let g3 := playTileSound tileIndex g2 in
    if playTileSound_throws tileIndex g then g3
    else
    let (flashTimeout, g4) := setTimeout InputFlashTick flashDelay g3 in
    let g5 := pushTimeout flashTimeout g4 in
    if decide (sequence g !! length (userSequence g) ≠ Some tileIndex) then
      handleGameOver (cleanup g5)
    else if decide (length newUserSequence = length (sequence g)) then
      let g6 := cleanup g5 in
      let baseMultiplier :=
        baseMultiplier (getDifficultySettings (difficulty g)) in
      let newMultiplier :=
        calculateMultiplier (Z.of_nat (length (sequence g))) baseMultiplier in
      let g7 := setMultiplier newMultiplier g6 in
      let basePoints := 1 in
      let newScore :=
        score g + Math_round (inject_Z (basePoints * newMultiplier)) in
      let g8 := setScore newScore g7 in
      let g9 :=
        if decide (newScore > highScore g) then
          saveHighScore newScore (setHighScore newScore g8)
        else g8 in
      let (nextSequenceTimeout, g10) :=
        setTimeout (NextSequenceTick (sequence g) (difficulty g)) 1000 g9 in
      pushTimeout nextSequenceTimeout g10
    else g5.

(** Whether [handleTileClick] ends with the exception of [playTileSound]
    instead of returning. *)
Definition handleTileClick_throws (tileIndex : Z) (g : Game) : bool :=
  bool_decide (state g = WaitingForInput) && playTileSound_throws tileIndex g.

(** What a timer does when it fires; [newTile] is the value of
    [Math.floor(Math.random() * 9)], should the callback draw one. *)
Definition runCallback (cb : Callback) (newTile : Z) (g : Game) : Game :=
  match cb with
  | StartTick difficulty =>
      playSequence [newTile] difficulty (setSequence [newTile] g)
  | FlashTick tileIndex i len flashDelay =>
      let g1 := setActiveTile (Some tileIndex) g in
      let g2 := playTileSound tileIndex g1 in
      if playTileSound_throws tileIndex g then g2
      else
      let (clearTimeout, g3) := setTimeout (ClearTick i len) flashDelay g2 in
      pushTimeout clearTimeout g3
  | ClearTick i len =>
      let g1 := setActiveTile None g in
      if decide (Z.of_nat i = Z.of_nat len - 1) then
        setState WaitingForInput g1
      else g1
  | InputFlashTick => setActiveTile None g
  | NextSequenceTick sequence difficulty =>
      addToSequence sequence difficulty newTile g
  end.

(** ** The session as a transition system *)

(** The state a timer callback starts from: the timer is gone and the clock
    is at its due time. *)
Definition fired (t : Timer) (rest : list Timer) (g : Game) : Game :=
  withClock (Z.max (clock g) (due t)) (withPending (nextHandle g) rest g).

Inductive Event :=
| StartGame
| StopGame
| ResetGame
| SetDifficulty (level : Difficulty)
| TileClick (tileIndex : Z)
| TimerFires (newTile : Z)       (* the next timer runs *)
| Elapse (ms : Z)                (* time passes, no timer being overdue *)
| HighScoreFetched (value : Z)   (* fetchHighScore has answered *)
| SoundSettings (sfxEnabled : bool)
    (* the sound settings are fetched or changed *)
| InitAudio.                     (* the first click or touch on the window *)

(** One event: the state it leaves, or [None] when the event cannot take
    place.  A tile click always takes place: a handler that throws leaves
    the updates it has made ([handleTileClick_throws] tells whether it
    does). *)
Definition step (e : Event) (g : Game) : option Game :=
  match e with
  | StartGame => Some (startGame g)
  | StopGame => Some (stopGame g)
  | ResetGame => Some (resetGame g)
  | SetDifficulty level => Some (setDifficulty level g)
  | TileClick tileIndex => Some (handleTileClick tileIndex g)
  | TimerFires newTile =>
      match pickEarliest (pending g) with
      | Some (t, rest) =>
          if decide (0 <= newTile < 9) then
            Some (runCallback (callback t) newTile (fired t rest g))
          else None
      | None => None
      end
  | Elapse ms =>
      if decide (0 <= ms ∧ Forall (λ t, clock g + ms <= due t) (pending g))
      then Some (withClock (clock g + ms) g)
      else None
  | HighScoreFetched value =>
      if signedIn g then Some (setHighScore value g) else None
  | SoundSettings sfxEnabled =>
      if signedIn g then Some (SoundProvider_setSettings sfxEnabled g)
      else None
  | InitAudio => Some (initAudio g)
  end.

Fixpoint run (es : list Event) (g : Game) : option Game :=
  match es with
  | [] => Some g
  | e :: es' =>
      match step e g with
      | Some g' => run es' g'
      | None => None
      end
  end.

(** The provider as mounted: every [useState] at its initial value. *)
Definition initial (signedIn : bool) : Game :=
  {| state := Idle; sequence := []; userSequence := []; score := 0;
     highScore := 0; activeTile := None; difficulty := easy; multiplier := 1;
     sequenceTimeouts := []; clock := 0; nextHandle := 0; pending := [];
     signedIn := signedIn; games := []; high_scores := [];
     presented := [];
     sfxEnabled := true; audioContext := false |}.

Definition reachable (g : Game) : Prop :=
  ∃ signedIn es, run es (initial signedIn) = Some g.

(** The clicks of the page: a tile of the grid or the key of one submits
    one of the nine tiles.  A session played on the grid is a run all of
    whose clicks are such. *)
Definition onGrid (e : Event) : Prop :=
  match e with
  | TileClick tileIndex => validTile tileIndex
  | _ => True
  end.

Definition reachableOnGrid (g : Game) : Prop :=
  ∃ signedIn es,
    Forall onGrid es ∧ run es (initial signedIn) = Some g.

(** The difficulty buttons of the game page: [onClick] is
    [setDifficulty(option.value)], and the button is
    [disabled={state !== GameState.Idle}]. *)
Definition DifficultySelector_click (value : Difficulty) (g : Game) : Game :=
  if decide (state g ≠ Idle) then g else setDifficulty value g.

(** ** The scoring table of the specification *)

(** The length bonus as the specification words it (section 4.3), to be
    compared with what [calculateMultiplier] computes. *)
Definition spec_lengthMultiplier (sequenceLength : Z) : Z :=
  if decide (sequenceLength < 5) then 1
  else if decide (5 <= sequenceLength < 10) then 2
  else if decide (10 <= sequenceLength < 13) then 3
  else if decide (13 <= sequenceLength < 16) then 4
  else if decide (16 <= sequenceLength < 20) then 5
  else 6.


(** * Properties *)

(** ** The multiplier *)

Ltac leb_cases :=
  repeat match goal with
  | |- context [?a <=? ?b] => destruct (Z.leb_spec a b)
  end.

(** Below 2^53 the product of two integers is a double, and the
    multiplication of the code is the multiplication of integers. *)
Lemma Number_mul_exact (a b : Z) :
  Z.abs (a * b) < 2 ^ 53 → Number_mul a b = a * b.
Proof.
  intros H. unfold Number_mul, toDouble. cbv zeta.
  by destruct (Z.ltb_spec (Z.abs (a * b)) (2 ^ 53)); [|lia].
Qed.

(** The greatest base multiplier whose products with the length bonus are
    all below 2^53. *)
Definition maxExactBase : Z := 1501199875790165.

Lemma calculateMultiplier_spec sequenceLength baseMultiplier :
  Z.abs baseMultiplier <= maxExactBase →
  calculateMultiplier sequenceLength baseMultiplier =
  baseMultiplier * spec_lengthMultiplier sequenceLength.
Proof.
  unfold maxExactBase. intros Hb.
  unfold calculateMultiplier, spec_lengthMultiplier. cbv zeta.
  rewrite Number_mul_exact.
  - repeat case_decide; leb_cases; lia.
  - leb_cases; lia.
Qed.

(** The base multipliers of the three difficulties are far below the
    bound. *)
Lemma calculateMultiplier_settings sequenceLength d :
  calculateMultiplier sequenceLength
    (baseMultiplier (getDifficultySettings d)) =
  baseMultiplier (getDifficultySettings d) *
  spec_lengthMultiplier sequenceLength.
Proof.
  apply calculateMultiplier_spec. unfold maxExactBase. destruct d; cbn; lia.
Qed.

Lemma spec_lengthMultiplier_mono a b :
  a <= b → spec_lengthMultiplier a <= spec_lengthMultiplier b.
Proof. unfold spec_lengthMultiplier. repeat case_decide; lia. Qed.

(** The claim as the specification words it, for every base multiplier of
    at least 1, fails where the product is not a number of the language:
    for the greatest integer below 2^53 and a sequence of 20 tiles the code
    returns the nearest double, two below six times the base. *)
Lemma calculateMultiplier_counterexample :
  let baseMultiplier := 9007199254740991 in
  let sequenceLength := 20 in
  1 <= baseMultiplier ∧ 0 <= sequenceLength ∧
  spec_lengthMultiplier sequenceLength = 6 ∧
  baseMultiplier * 6 = 54043195528445946 ∧
  calculateMultiplier sequenceLength baseMultiplier = 54043195528445944 ∧
  calculateMultiplier sequenceLength baseMultiplier ≠
    baseMultiplier * spec_lengthMultiplier sequenceLength.
Proof.
  cbv zeta. split; [lia|]. split; [lia|].
  split; [reflexivity|]. split; [reflexivity|]. split; [reflexivity|].
  vm_compute. discriminate.
Qed.

(** C1, as the code has it.  With a base multiplier of at least 1, small
    enough for its products with the length bonus to be exact in the numbers
    of the language (six times the base below 2^53, that is a base of at
    most 1501199875790165; the difficulties have 1, 2 and 3), and a
    sequence length of at least 0, [calculateMultiplier] returns the base
    multiplier times the length bonus, which is 1 below 5, 2 from 5 to 9,
    3 from 10 to 12, 4 from 13 to 15, 5 from 16 to 19 and 6 from 20 on; the
    result never decreases when the length grows, and it changes from one
    length to the next exactly at 5, 10, 13, 16 and 20. *)
Theorem calculateMultiplier_table (baseMultiplier sequenceLength : Z) :
  1 <= baseMultiplier <= maxExactBase → 0 <= sequenceLength →
  let m := calculateMultiplier sequenceLength baseMultiplier in
  (sequenceLength < 5 → m = baseMultiplier * 1) ∧
  (5 <= sequenceLength < 10 → m = baseMultiplier * 2) ∧
  (10 <= sequenceLength < 13 → m = baseMultiplier * 3) ∧
  (13 <= sequenceLength < 16 → m = baseMultiplier * 4) ∧
  (16 <= sequenceLength < 20 → m = baseMultiplier * 5) ∧
  (20 <= sequenceLength → m = baseMultiplier * 6) ∧
  m = baseMultiplier * spec_lengthMultiplier sequenceLength ∧
  (∀ longer, sequenceLength <= longer →
     m <= calculateMultiplier longer baseMultiplier) ∧
  (m ≠ calculateMultiplier (sequenceLength + 1) baseMultiplier ↔
     sequenceLength + 1 ∈ [5; 10; 13; 16; 20]).
Proof.
  intros Hb Hl m. subst m.
  assert (Z.abs baseMultiplier <= maxExactBase) as Habs by lia.
  rewrite !(calculateMultiplier_spec _ _ Habs).
  unfold spec_lengthMultiplier.
  repeat split.
  1-6: intros; repeat case_decide; lia.
  - intros longer Hle. rewrite (calculateMultiplier_spec _ _ Habs).
    pose proof (spec_lengthMultiplier_mono _ _ Hle) as Hm.
    unfold spec_lengthMultiplier in *. nia.
  - intros Hne. rewrite !elem_of_cons, elem_of_nil.
    revert Hne. repeat case_decide; lia.
  - rewrite !elem_of_cons, elem_of_nil.
    intros H. repeat case_decide; lia.
Qed.

Lemma calculateMultiplier_table_witness :
  calculateMultiplier 12 3 = 3 * spec_lengthMultiplier 12 ∧
  (calculateMultiplier 12 3 ≠ calculateMultiplier (12 + 1) 3 ↔
     12 + 1 ∈ [5; 10; 13; 16; 20]).
Proof.
  assert (1 <= 3 <= maxExactBase) as Hb by (unfold maxExactBase; lia).
  pose proof (calculateMultiplier_table 3 12 Hb ltac:(lia)) as H.
  cbv zeta in H. split; apply H.
Defined.

(** ** Timers and [cleanup] *)

Lemma withPending_same g : withPending (nextHandle g) (pending g) g = g.
Proof. by destruct g. Qed.

Lemma filter_Forall_id {A} (P : A → Prop) `{∀ x, Decision (P x)} (l : list A) :
  Forall P l → filter P l = l.
Proof.
  induction 1 as [|x l Hx _ IH]; [done|].
  by rewrite filter_cons_True, IH.
Qed.


Lemma fold_clearTimeout (hs : list nat) (g : Game) :
  fold_left (λ g' timeout, clearTimeout timeout g') hs g =
  withPending (nextHandle g) (filter (λ t, handle t ∉ hs) (pending g)) g.
Proof.
  revert g. induction hs as [|h hs IH]; intros g; simpl.
  - rewrite filter_Forall_id, withPending_same; [done|].
    apply Forall_forall. intros t _. apply not_elem_of_nil.
  - rewrite IH. unfold clearTimeout, withPending; cbn. f_equal.
    rewrite list_filter_filter. apply list_filter_iff.
    intros t. rewrite not_elem_of_cons. tauto.
Qed.

(** [cleanup] cancels the registered timers, empties the register and
    touches nothing else. *)
Lemma cleanup_spec (g : Game) :
  cleanup g =
  withSequenceTimeouts []
    (withPending (nextHandle g)
       (filter (λ t, handle t ∉ sequenceTimeouts g) (pending g)) g).
Proof. unfold cleanup. by rewrite fold_clearTimeout. Qed.

Lemma cleanup_cleanup g : cleanup (cleanup g) = cleanup g.
Proof.
  rewrite !cleanup_spec. unfold withSequenceTimeouts, withPending; cbn.
  f_equal. apply filter_Forall_id, Forall_forall.
  intros t _. apply not_elem_of_nil.
Qed.

(** ** Running events *)

Lemma run_app es1 es2 g :
  run (es1 ++ es2) g = run es1 g ≫= run es2.
Proof.
  revert g. induction es1 as [|e es1 IH]; intros g; simpl; [done|].
  destruct (step e g); simpl; [apply IH | done].
Qed.

Lemma run_invariant (P : Game → Prop) :
  (∀ e g g', P g → step e g = Some g' → P g') →
  ∀ es g g', P g → run es g = Some g' → P g'.
Proof.
  intros Hstep es. induction es as [|e es IH]; intros g g' HP Hrun.
  - simpl in Hrun. by simplify_eq.
  - simpl in Hrun. destruct (step e g) as [g1|] eqn:He; [|done].
    eapply IH; [|done]. by eapply Hstep.
Qed.

Lemma reachable_invariant (P : Game → Prop) :
  (∀ b, P (initial b)) →
  (∀ e g g', P g → step e g = Some g' → P g') →
  ∀ g, reachable g → P g.
Proof.
  intros Hinit Hstep g (b & es & Hrun).
  eapply run_invariant; [exact Hstep | apply Hinit | exact Hrun].
Qed.

(** ** Tile clicks outside the input phase *)

(** C4. In every state other than WaitingForInput (ShowingSequence in
    particular) a tile click changes nothing: state, score, sequence and
    input buffer stay as they are, nothing is written, shown or sounded, and
    no timer is set. *)
Theorem handleTileClick_ignored (tileIndex : Z) (g : Game) :
  state g ≠ WaitingForInput →
  handleTileClick tileIndex g = g ∧
  step (TileClick tileIndex) g = Some g.
Proof.
  intros Hs. unfold step, handleTileClick.
  by rewrite decide_True.
Qed.

Lemma handleTileClick_ignored_witness :
  let g := playSequence [3; 1; 4] easy (initial true) in
  state g = ShowingSequence ∧ handleTileClick 3 g = g.
Proof.
  intros g. split; [reflexivity|].
  apply (handleTileClick_ignored 3 g). discriminate.
Defined.

(** ** Game over *)

(** The row [handleGameOver] inserts into [games]. *)
Definition gameOverRow (g : Game) : GameRow :=
  {| row_score := score g;
     row_difficulty := difficulty g;
     row_streak := Z.of_nat (length (sequence g)) - 1 |}.

Lemma handleGameOver_spec (g : Game) :
  handleGameOver g =
  withGames (games g ++ (if signedIn g then [gameOverRow g] else []))
    (setState GameOver (cleanup g)).
Proof.
  unfold handleGameOver. rewrite cleanup_spec.
  destruct g as [? ? ? ? ? ? ? ? ? ? ? ? [] ? ? ? ? ?]; cbn; [done|].
  by rewrite app_nil_r.
Qed.

Lemma stopGame_spec (g : Game) :
  stopGame g =
  withGames (games g ++ (if signedIn g then [gameOverRow g] else []))
    (setState GameOver (cleanup g)).
Proof.
  unfold stopGame. rewrite handleGameOver_spec, cleanup_cleanup.
  by rewrite cleanup_spec.
Qed.

(** ** When the sound of a tile throws *)

Lemma TILE_FREQUENCIES_at_Some tileIndex :
  validTile tileIndex ↔ ∃ f, TILE_FREQUENCIES_at tileIndex = Some f.
Proof.
  unfold validTile, TILE_FREQUENCIES_at. case_decide as H0.
  - pose proof (lookup_lt_is_Some TILE_FREQUENCIES (Z.to_nat tileIndex)) as H.
    change (length TILE_FREQUENCIES) with 9%nat in H.
    unfold is_Some in H. rewrite H. lia.
  - split; [lia | by intros [f Hf]].
Qed.

(** The call throws exactly when sound effects are enabled, the
    [AudioContext] exists and the index is not one of the nine tiles. *)
Lemma playTileSound_throws_iff tileIndex g :
  playTileSound_throws tileIndex g = true ↔
  sfxEnabled g = true ∧ audioContext g = true ∧ ¬ validTile tileIndex.
Proof.
  unfold playTileSound_throws, playTone_throws.
  rewrite TILE_FREQUENCIES_at_Some.
  destruct (sfxEnabled g), (audioContext g); cbn;
    destruct (TILE_FREQUENCIES_at tileIndex) as [f|].
  all: split; [try done | try (by intros (? & ? & _))].
  - intros (_ & _ & H). destruct H. by exists f.
  - intros _. split; [done|]. split; [done|]. by intros [f Hf].
Qed.

Lemma validTile_returns tileIndex g :
  validTile tileIndex → playTileSound_throws tileIndex g = false.
Proof.
  intros Hv. destruct (playTileSound_throws tileIndex g) eqn:E; [|done].
  apply playTileSound_throws_iff in E as (_ & _ & H). by destruct H.
Qed.

(** The state a click leaves when [playTileSound] throws. *)
Definition thrown (tileIndex : Z) (g : Game) : Game :=
  playTileSound tileIndex
    (setActiveTile (Some tileIndex)
       (setUserSequence (userSequence g ++ [tileIndex]) g)).

Lemma handleTileClick_thrown (tileIndex : Z) (g : Game) :
  state g = WaitingForInput → playTileSound_throws tileIndex g = true →
  handleTileClick tileIndex g = thrown tileIndex g.
Proof.
  intros Hs Ht. unfold handleTileClick.
  rewrite decide_False by (rewrite Hs; tauto).
  cbv zeta. by rewrite Ht.
Qed.

Lemma thrown_fields tileIndex g :
  let g' := thrown tileIndex g in
  state g' = state g ∧ sequence g' = sequence g ∧
  userSequence g' = userSequence g ++ [tileIndex] ∧ score g' = score g ∧
  highScore g' = highScore g ∧ difficulty g' = difficulty g ∧
  multiplier g' = multiplier g ∧
  sequenceTimeouts g' = sequenceTimeouts g ∧
  clock g' = clock g ∧ nextHandle g' = nextHandle g ∧
  pending g' = pending g ∧
  signedIn g' = signedIn g ∧ games g' = games g ∧
  high_scores g' = high_scores g ∧
  presented g' =
    presented g ++
    [(clock g, TileOn tileIndex); (clock g, TileSound tileIndex)] ∧
  activeTile g' = Some tileIndex.
Proof.
  intros g'. subst g'. unfold thrown. repeat split; try reflexivity.
  cbn. by rewrite <- app_assoc.
Qed.

(** The state a wrong tile leads to. *)
Lemma handleTileClick_mismatch (tileIndex : Z) (g : Game) :
  state g = WaitingForInput → playTileSound_throws tileIndex g = false →
  sequence g !! length (userSequence g) ≠ Some tileIndex →
  handleTileClick tileIndex g =
  handleGameOver
    (cleanup
       (pushTimeout (nextHandle g)
          (snd (setTimeout InputFlashTick
                  (flashDelay (getDifficultySettings (difficulty g)))
                  (playTileSound tileIndex
                     (setActiveTile (Some tileIndex)
                        (setUserSequence (userSequence g ++ [tileIndex])
                           g))))))).
Proof.
  intros Hs Ht Hne. unfold handleTileClick.
  rewrite decide_False by (rewrite Hs; tauto).
  cbv zeta. rewrite Ht.
  cbn. by rewrite decide_True.
Qed.


(** A pending timer that holds tiles of the grid only. *)
Definition timerValid (t : Timer) : Prop :=
  match callback t with
  | FlashTick tile _ _ _ => validTile tile
  | NextSequenceTick s _ => Forall validTile s
  | _ => True
  end.

(** Every tile of the sequence, and of the pending callbacks, is one of the
    nine tiles. *)
Definition tilesValid (g : Game) : Prop :=
  Forall validTile (sequence g) ∧ Forall timerValid (pending g).

Lemma pickEarliest_elem l t rest :
  pickEarliest l = Some (t, rest) → t ∈ l ∧ rest ⊆ l.
Proof.
  revert t rest. induction l as [|a l IH]; intros t rest H; simpl in H; [done|].
  destruct (pickEarliest l) as [[t' rest']|] eqn:E.
  - destruct (IH _ _ eq_refl) as [Ht' Hr'].
    destruct (due a <=? due t'); simplify_eq.
    + split; [left | by apply list_subseteq_cons].
    + split; [by right|].
      intros x Hx. apply elem_of_cons in Hx as [->|Hx]; [left|right; auto].
  - simplify_eq. split; [left | apply list_subseteq_nil].
Qed.

Lemma Forall_subseteq {A} (P : A → Prop) (l k : list A) :
  l ⊆ k → Forall P k → Forall P l.
Proof. rewrite !Forall_forall. intros Hs Hk x Hx. apply Hk, Hs, Hx. Qed.

Ltac through_filter :=
  eapply Forall_subseteq; [apply list_subseteq_filter|].

Lemma playSequence_forEach_frame tiles i len f p g :
  let g' := playSequence_forEach tiles i len f p g in
  state g' = state g ∧ sequence g' = sequence g ∧
  userSequence g' = userSequence g ∧ score g' = score g ∧
  highScore g' = highScore g ∧ activeTile g' = activeTile g ∧
  difficulty g' = difficulty g ∧ multiplier g' = multiplier g ∧
  clock g' = clock g ∧ signedIn g' = signedIn g ∧ games g' = games g ∧
  high_scores g' = high_scores g ∧ presented g' = presented g.
Proof.
  revert i g. induction tiles as [|t tiles IH]; intros i g; simpl; [done|].
  specialize (IH (S i)
    (pushTimeout (nextHandle g)
       (withPending (S (nextHandle g))
          (pending g ++
           [{| handle := nextHandle g;
               due := clock g + Z.of_nat i * (f + p);
               callback := FlashTick t i len f |}]) g))).
  cbn in IH. exact IH.
Qed.

Lemma playSequence_forEach_pending tiles i len f p g :
  ∃ added,
    pending (playSequence_forEach tiles i len f p g) = pending g ++ added ∧
    Forall (λ t, ∃ tile j, callback t = FlashTick tile j len f) added.
Proof.
  revert i g. induction tiles as [|t tiles IH]; intros i g; simpl.
  - exists []. by rewrite app_nil_r.
  - destruct (IH (S i)
      (pushTimeout (nextHandle g)
         (withPending (S (nextHandle g))
            (pending g ++
             [{| handle := nextHandle g;
                 due := clock g + Z.of_nat i * (f + p);
                 callback := FlashTick t i len f |}]) g)))
      as (added & Hp & Ha).
    cbn in Hp. eexists (_ :: added). split.
    + rewrite Hp, <- app_assoc. reflexivity.
    + constructor; [cbn; eauto | done].
Qed.

Lemma playSequence_fields s d g :
  let g' := playSequence s d g in
  state g' = ShowingSequence ∧ sequence g' = sequence g ∧
  userSequence g' = userSequence g ∧ score g' = score g ∧
  highScore g' = highScore g ∧ difficulty g' = difficulty g ∧
  clock g' = clock g ∧ signedIn g' = signedIn g ∧ games g' = games g ∧
  high_scores g' = high_scores g ∧ presented g' = presented g ∧
  ∃ added,
    pending g' = pending g ++ added ∧
    Forall (λ t, ∃ tile j f, callback t = FlashTick tile j (length s) f) added.
Proof.
  intros g'. subst g'. unfold playSequence.
  match goal with
  | |- context [playSequence_forEach ?a ?b ?c ?e ?f ?h] =>
      destruct (playSequence_forEach_frame a b c e f h)
        as (?&?&?&?&?&?&?&?&?&?&?&?&?);
      destruct (playSequence_forEach_pending a b c e f h) as (added & ? & Ha)
  end.
  repeat split; try done.
  exists added. split; [done|].
  eapply Forall_impl; [exact Ha|]. intros t (tile & j & Ht). eauto.
Qed.

(** The timers [playSequence] sets for the tiles from index [i] on: handles
    from [h], due times counted from [t0]. *)
Fixpoint flashTimers (tiles : list Z) (i len : nat) (f p : Z) (h : nat)
    (t0 : Z) : list Timer :=
  match tiles with
  | [] => []
  | tile :: rest =>
      {| handle := h; due := t0 + Z.of_nat i * (f + p);
         callback := FlashTick tile i len f |}
      :: flashTimers rest (S i) len f p (S h) t0
  end.

Lemma playSequence_forEach_exact tiles i len f p g :
  pending (playSequence_forEach tiles i len f p g) =
  pending g ++ flashTimers tiles i len f p (nextHandle g) (clock g).
Proof.
  revert i g. induction tiles as [|t tiles IH]; intros i g; simpl.
  - by rewrite app_nil_r.
  - rewrite IH. cbn. by rewrite <- app_assoc.
Qed.

Lemma playSequence_exact s d g :
  pending (playSequence s d g) =
  pending g ++
  flashTimers s 0 (length s) (flashDelay (getDifficultySettings d))
    (pauseDelay (getDifficultySettings d)) (nextHandle g) (clock g).
Proof. unfold playSequence. by rewrite playSequence_forEach_exact. Qed.

Lemma flashTimers_valid tiles i len f p h t0 :
  Forall validTile tiles →
  Forall timerValid (flashTimers tiles i len f p h t0).
Proof.
  intros Hv. revert i h. induction Hv as [|t tiles Ht _ IH]; intros i h.
  - constructor.
  - simpl. constructor; [exact Ht | apply IH].
Qed.

Lemma tilesValid_initial b : tilesValid (initial b).
Proof. split; constructor. Qed.


(** ** The three outcomes of an accepted click *)

Lemma Math_round_integer (z : Z) : Math_round (inject_Z z) = z.
Proof.
  unfold Math_round, Qfloor, inject_Z, Qplus; cbn.
  rewrite Z.mul_1_r.
  replace (z * 2 + 1) with (1 + z * 2) by lia.
  rewrite Z.div_add by lia. reflexivity.
Qed.

(** The part common to every accepted click: the tile joins the input
    buffer, is lit and sounded, and a timer is set to put it out. *)
Definition clicked (tileIndex : Z) (g : Game) : Game :=
  pushTimeout (nextHandle g)
    (snd (setTimeout InputFlashTick
            (flashDelay (getDifficultySettings (difficulty g)))
            (playTileSound tileIndex
               (setActiveTile (Some tileIndex)
                  (setUserSequence (userSequence g ++ [tileIndex]) g))))).

(** The score after the round in progress is completed. *)
Definition roundScore (g : Game) : Z :=
  score g +
  calculateMultiplier (Z.of_nat (length (sequence g)))
    (baseMultiplier (getDifficultySettings (difficulty g))).

Definition completed (tileIndex : Z) (g : Game) : Game :=
  let g8 :=
    setScore (roundScore g)
      (setMultiplier
         (calculateMultiplier (Z.of_nat (length (sequence g)))
            (baseMultiplier (getDifficultySettings (difficulty g))))
         (cleanup (clicked tileIndex g))) in
  let g9 :=
    if decide (roundScore g > highScore g) then
      saveHighScore (roundScore g) (setHighScore (roundScore g) g8)
    else g8 in
  pushTimeout (nextHandle g9)
    (snd (setTimeout (NextSequenceTick (sequence g) (difficulty g)) 1000 g9)).

(** The state after a wrong tile. *)
Definition failed (tileIndex : Z) (g : Game) : Game :=
  handleGameOver (cleanup (clicked tileIndex g)).

Lemma handleTileClick_wrong (tileIndex : Z) (g : Game) :
  state g = WaitingForInput → playTileSound_throws tileIndex g = false →
  sequence g !! length (userSequence g) ≠ Some tileIndex →
  handleTileClick tileIndex g = failed tileIndex g.
Proof. apply handleTileClick_mismatch. Qed.

Lemma handleTileClick_more (tileIndex : Z) (g : Game) :
  state g = WaitingForInput → playTileSound_throws tileIndex g = false →
  sequence g !! length (userSequence g) = Some tileIndex →
  length (userSequence g ++ [tileIndex]) ≠ length (sequence g) →
  handleTileClick tileIndex g = clicked tileIndex g.
Proof.
  intros Hs Ht Heq Hlen. unfold handleTileClick.
  rewrite decide_False by (rewrite Hs; tauto).
  cbv zeta. rewrite Ht.
  cbn. rewrite decide_False by (rewrite Heq; tauto).
  by rewrite decide_False.
Qed.

Lemma handleTileClick_done (tileIndex : Z) (g : Game) :
  state g = WaitingForInput → playTileSound_throws tileIndex g = false →
  sequence g !! length (userSequence g) = Some tileIndex →
  length (userSequence g ++ [tileIndex]) = length (sequence g) →
  handleTileClick tileIndex g = completed tileIndex g.
Proof.
  intros Hs Ht Heq Hlen. unfold handleTileClick.
  rewrite decide_False by (rewrite Hs; tauto).
  cbv zeta. rewrite Ht, Math_round_integer, Z.mul_1_l.
  cbn [setTimeout].
  rewrite decide_False by (rewrite Heq; tauto).
  rewrite decide_True by done.
  reflexivity.
Qed.

(** A click outside the input phase. *)
Lemma handleTileClick_outside (tileIndex : Z) (g : Game) :
  state g ≠ WaitingForInput → handleTileClick tileIndex g = g.
Proof. intros Hs. unfold handleTileClick. by rewrite decide_True. Qed.

(** The two ways a click goes when the sound of its tile throws. *)
Lemma handleTileClick_throw_cases (tileIndex : Z) (g : Game) :
  playTileSound_throws tileIndex g = true →
  (state g ≠ WaitingForInput ∧ handleTileClick tileIndex g = g) ∨
  (state g = WaitingForInput ∧
   handleTileClick tileIndex g = thrown tileIndex g).
Proof.
  intros Ht. destruct (decide (state g = WaitingForInput)) as [Hs|Hs].
  - right. split; [done|]. by apply handleTileClick_thrown.
  - left. split; [done|]. by apply handleTileClick_outside.
Qed.

(** The four ways a click goes when it does not. *)
Lemma handleTileClick_cases (tileIndex : Z) (g : Game) :
  playTileSound_throws tileIndex g = false →
  (state g ≠ WaitingForInput ∧ handleTileClick tileIndex g = g) ∨
  (state g = WaitingForInput ∧
   sequence g !! length (userSequence g) ≠ Some tileIndex ∧
   handleTileClick tileIndex g = failed tileIndex g) ∨
  (state g = WaitingForInput ∧
   sequence g !! length (userSequence g) = Some tileIndex ∧
   length (userSequence g ++ [tileIndex]) ≠ length (sequence g) ∧
   handleTileClick tileIndex g = clicked tileIndex g) ∨
  (state g = WaitingForInput ∧
   sequence g !! length (userSequence g) = Some tileIndex ∧
   length (userSequence g ++ [tileIndex]) = length (sequence g) ∧
   handleTileClick tileIndex g = completed tileIndex g).
Proof.
  intros Hno.
  destruct (decide (state g = WaitingForInput)) as [Hs|Hs].
  - right.
    destruct (decide (sequence g !! length (userSequence g) = Some tileIndex))
      as [Heq|Hne].
    + right.
      destruct (decide (length (userSequence g ++ [tileIndex]) =
                        length (sequence g))) as [Hl|Hl].
      * right. eauto using handleTileClick_done.
      * left. eauto using handleTileClick_more.
    + left. eauto using handleTileClick_wrong.
  - left. split; [done|]. unfold handleTileClick. by rewrite decide_True.
Qed.


(** The fields of [completed] that do not depend on the high score. *)
Lemma completed_fields tileIndex g :
  let g' := completed tileIndex g in
  state g' = state g ∧ sequence g' = sequence g ∧
  userSequence g' = userSequence g ++ [tileIndex] ∧
  score g' = roundScore g ∧ difficulty g' = difficulty g ∧
  clock g' = clock g ∧ signedIn g' = signedIn g ∧ games g' = games g ∧
  nextHandle g' = S (S (nextHandle g)) ∧
  sequenceTimeouts g' = [S (nextHandle g)] ∧
  pending g' =
    filter (λ t, handle t ∉ sequenceTimeouts g ++ [nextHandle g])
      (pending g ++
       [{| handle := nextHandle g;
           due := clock g + flashDelay (getDifficultySettings (difficulty g));
           callback := InputFlashTick |}]) ++
    [{| handle := S (nextHandle g); due := clock g + 1000;
        callback := NextSequenceTick (sequence g) (difficulty g) |}].
Proof.
  unfold completed. rewrite cleanup_spec. unfold clicked, saveHighScore.
  destruct (decide (roundScore g > highScore g));
    [destruct (signedIn g) eqn:Hsi|]; cbn; rewrite ?Hsi; done.
Qed.

(** The registered timers are cancelled, the others stay. *)
Definition unregistered (g : Game) : list Timer :=
  filter (λ t, handle t ∉ sequenceTimeouts g) (pending g).

Lemma startGame_fields g :
  let g' := startGame g in
  state g' = Idle ∧ sequence g' = [] ∧ userSequence g' = [] ∧
  score g' = 0 ∧ highScore g' = highScore g ∧
  difficulty g' = difficulty g ∧ sequenceTimeouts g' = [] ∧
  clock g' = clock g ∧ nextHandle g' = S (nextHandle g) ∧
  pending g' =
    unregistered g ++
    [{| handle := nextHandle g; due := clock g + 100;
        callback := StartTick (difficulty g) |}] ∧
  signedIn g' = signedIn g ∧ games g' = games g ∧
  high_scores g' = high_scores g.
Proof.
  intros g'. subst g'. unfold startGame. rewrite cleanup_spec.
  repeat split; reflexivity.
Qed.

Lemma stopGame_fields g :
  let g' := stopGame g in
  state g' = GameOver ∧ sequence g' = sequence g ∧
  userSequence g' = userSequence g ∧ score g' = score g ∧
  highScore g' = highScore g ∧ difficulty g' = difficulty g ∧
  multiplier g' = multiplier g ∧ sequenceTimeouts g' = [] ∧
  clock g' = clock g ∧ nextHandle g' = nextHandle g ∧
  pending g' = unregistered g ∧ signedIn g' = signedIn g ∧
  games g' = games g ++ (if signedIn g then [gameOverRow g] else []) ∧
  high_scores g' = high_scores g ∧ presented g' = presented g.
Proof.
  intros g'. subst g'. rewrite stopGame_spec, cleanup_spec.
  repeat split; reflexivity.
Qed.

Lemma resetGame_fields g :
  let g' := resetGame g in
  state g' = Idle ∧ sequence g' = [] ∧ userSequence g' = [] ∧
  score g' = 0 ∧ highScore g' = highScore g ∧
  difficulty g' = difficulty g ∧ sequenceTimeouts g' = [] ∧
  clock g' = clock g ∧ nextHandle g' = nextHandle g ∧
  pending g' = unregistered g ∧ signedIn g' = signedIn g ∧
  games g' = games g ∧ high_scores g' = high_scores g.
Proof.
  intros g'. subst g'. unfold resetGame. rewrite cleanup_spec.
  repeat split; reflexivity.
Qed.

Lemma clicked_fields tileIndex g :
  let g' := clicked tileIndex g in
  state g' = state g ∧ sequence g' = sequence g ∧
  userSequence g' = userSequence g ++ [tileIndex] ∧ score g' = score g ∧
  highScore g' = highScore g ∧ difficulty g' = difficulty g ∧
  multiplier g' = multiplier g ∧
  sequenceTimeouts g' = sequenceTimeouts g ++ [nextHandle g] ∧
  clock g' = clock g ∧ nextHandle g' = S (nextHandle g) ∧
  pending g' =
    pending g ++
    [{| handle := nextHandle g;
        due := clock g + flashDelay (getDifficultySettings (difficulty g));
        callback := InputFlashTick |}] ∧
  signedIn g' = signedIn g ∧ games g' = games g ∧
  high_scores g' = high_scores g.
Proof. intros g'. subst g'. unfold clicked. repeat split; reflexivity. Qed.

Lemma failed_fields tileIndex g :
  let g' := failed tileIndex g in
  state g' = GameOver ∧ sequence g' = sequence g ∧
  userSequence g' = userSequence g ++ [tileIndex] ∧ score g' = score g ∧
  highScore g' = highScore g ∧ difficulty g' = difficulty g ∧
  multiplier g' = multiplier g ∧ sequenceTimeouts g' = [] ∧
  clock g' = clock g ∧ nextHandle g' = S (nextHandle g) ∧
  pending g' =
    filter (λ t, handle t ∉ @nil nat)
      (filter (λ t, handle t ∉ sequenceTimeouts g ++ [nextHandle g])
         (pending g ++
          [{| handle := nextHandle g;
              due :=
                clock g + flashDelay (getDifficultySettings (difficulty g));
              callback := InputFlashTick |}])) ∧
  signedIn g' = signedIn g ∧
  games g' = games g ++ (if signedIn g then [gameOverRow g] else []) ∧
  high_scores g' = high_scores g.
Proof.
  intros g'. subst g'. unfold failed.
  rewrite handleGameOver_spec, !cleanup_spec. unfold clicked.
  repeat split; reflexivity.
Qed.


Lemma unregistered_subseteq g : unregistered g ⊆ pending g.
Proof. apply list_subseteq_filter. Qed.

Lemma tilesValid_startGame g : tilesValid g → tilesValid (startGame g).
Proof.
  intros [Hseq Hpend].
  destruct (startGame_fields g) as (_ & Hs & _ & _ & _ & _ & _ & _ & _ & Hp & _).
  split; [rewrite Hs; constructor|]. rewrite Hp.
  apply Forall_app. split.
  - eapply Forall_subseteq; [apply unregistered_subseteq | done].
  - by apply Forall_singleton.
Qed.

Lemma tilesValid_stopGame g : tilesValid g → tilesValid (stopGame g).
Proof.
  intros [Hseq Hpend].
  destruct (stopGame_fields g)
    as (_ & Hs & _ & _ & _ & _ & _ & _ & _ & _ & Hp & _).
  split; [by rewrite Hs|]. rewrite Hp.
  eapply Forall_subseteq; [apply unregistered_subseteq | done].
Qed.

Lemma tilesValid_resetGame g : tilesValid g → tilesValid (resetGame g).
Proof.
  intros [Hseq Hpend].
  destruct (resetGame_fields g)
    as (_ & Hs & _ & _ & _ & _ & _ & _ & _ & Hp & _).
  split; [rewrite Hs; constructor|]. rewrite Hp.
  eapply Forall_subseteq; [apply unregistered_subseteq | done].
Qed.

Lemma tilesValid_handleTileClick tileIndex g :
  tilesValid g → tilesValid (handleTileClick tileIndex g).
Proof.
  intros [Hseq Hpend].
  destruct (playTileSound_throws tileIndex g) eqn:Hthrow.
  { destruct (handleTileClick_throw_cases tileIndex g Hthrow)
      as [[_ ->]|[_ ->]]; [done|].
    destruct (thrown_fields tileIndex g)
      as (_ & Hs & _ & _ & _ & _ & _ & _ & _ & _ & Hp & _).
    split; [by rewrite Hs | by rewrite Hp]. }
  destruct (handleTileClick_cases tileIndex g Hthrow)
    as [[_ ->]|[(_ & _ & ->)|[(_ & _ & _ & ->)|(_ & _ & _ & ->)]]].
  - done.
  - destruct (failed_fields tileIndex g)
      as (_ & Hs & _ & _ & _ & _ & _ & _ & _ & _ & Hp & _).
    split; [by rewrite Hs|]. rewrite Hp.
    do 2 through_filter. apply Forall_app.
    split; [done|]. by apply Forall_singleton.
  - destruct (clicked_fields tileIndex g)
      as (_ & Hs & _ & _ & _ & _ & _ & _ & _ & _ & Hp & _).
    split; [by rewrite Hs|]. rewrite Hp. apply Forall_app.
    split; [done|]. by apply Forall_singleton.
  - destruct (completed_fields tileIndex g)
      as (_ & Hs & _ & _ & _ & _ & _ & _ & _ & _ & Hp).
    split; [by rewrite Hs|]. rewrite Hp.
    apply Forall_app. split.
    + through_filter. apply Forall_app. split; [done|].
      by apply Forall_singleton.
    + apply Forall_singleton. exact Hseq.
Qed.

Lemma step_TimerFires newTile g g' :
  step (TimerFires newTile) g = Some g' →
  ∃ t rest,
    pickEarliest (pending g) = Some (t, rest) ∧ validTile newTile ∧
    g' = runCallback (callback t) newTile (fired t rest g).
Proof.
  unfold step. destruct (pickEarliest (pending g)) as [[t rest]|]; [|done].
  case_decide; [|done]. intros [= <-]. by exists t, rest.
Qed.

Lemma step_SoundSettings v g g' :
  step (SoundSettings v) g = Some g' → g' = SoundProvider_setSettings v g.
Proof. unfold step. destruct (signedIn g); [|done]. by intros [= <-]. Qed.

Lemma step_InitAudio g g' : step InitAudio g = Some g' → g' = initAudio g.
Proof. by intros [= <-]. Qed.

Lemma fired_fields t rest g :
  let g' := fired t rest g in
  state g' = state g ∧ sequence g' = sequence g ∧
  userSequence g' = userSequence g ∧ score g' = score g ∧
  highScore g' = highScore g ∧ difficulty g' = difficulty g ∧
  multiplier g' = multiplier g ∧
  sequenceTimeouts g' = sequenceTimeouts g ∧
  clock g' = Z.max (clock g) (due t) ∧ nextHandle g' = nextHandle g ∧
  pending g' = rest ∧ signedIn g' = signedIn g ∧ games g' = games g ∧
  high_scores g' = high_scores g ∧ presented g' = presented g.
Proof. intros g'. subst g'. repeat split; reflexivity. Qed.

(** The sound state is the sound provider's: nothing in the game provider
    changes it. *)
Lemma fired_throws t rest tile g :
  playTileSound_throws tile (fired t rest g) = playTileSound_throws tile g.
Proof. reflexivity. Qed.

(** The fields a flash leaves alone, whether its sound throws or not (in
    the order of [FlashTick_fields] below; the timers and their register
    are left out). *)
Lemma FlashTick_frame tile i len f newTile g :
  let g' := runCallback (FlashTick tile i len f) newTile g in
  state g' = state g ∧ sequence g' = sequence g ∧
  userSequence g' = userSequence g ∧ score g' = score g ∧
  highScore g' = highScore g ∧ difficulty g' = difficulty g ∧
  multiplier g' = multiplier g ∧ True ∧
  clock g' = clock g ∧ True ∧ True ∧
  signedIn g' = signedIn g ∧ games g' = games g ∧
  high_scores g' = high_scores g ∧
  presented g' =
    presented g ++ [(clock g, TileOn tile); (clock g, TileSound tile)].
Proof.
  intros g'. subst g'. cbn [runCallback]. unfold setTimeout.
  destruct (playTileSound_throws tile g);
    (repeat split; try reflexivity; cbn; by rewrite <- app_assoc).
Qed.

Lemma FlashTick_fields tile i len f newTile g :
  playTileSound_throws tile g = false →
  let g' := runCallback (FlashTick tile i len f) newTile g in
  state g' = state g ∧ sequence g' = sequence g ∧
  userSequence g' = userSequence g ∧ score g' = score g ∧
  highScore g' = highScore g ∧ difficulty g' = difficulty g ∧
  multiplier g' = multiplier g ∧
  sequenceTimeouts g' = sequenceTimeouts g ++ [nextHandle g] ∧
  clock g' = clock g ∧ nextHandle g' = S (nextHandle g) ∧
  pending g' =
    pending g ++
    [{| handle := nextHandle g; due := clock g + f;
        callback := ClearTick i len |}] ∧
  signedIn g' = signedIn g ∧ games g' = games g ∧
  high_scores g' = high_scores g ∧
  presented g' =
    presented g ++ [(clock g, TileOn tile); (clock g, TileSound tile)].
Proof.
  intros Hno g'. subst g'. cbn [runCallback]. rewrite Hno. unfold setTimeout.
  repeat split; try reflexivity.
  cbn. by rewrite <- app_assoc.
Qed.

(** The state a flash leaves when its sound throws: no timer is set to put
    the tile out. *)
Lemma FlashTick_thrown tile i len f newTile g :
  playTileSound_throws tile g = true →
  let g' := runCallback (FlashTick tile i len f) newTile g in
  pending g' = pending g ∧ sequenceTimeouts g' = sequenceTimeouts g ∧
  nextHandle g' = nextHandle g ∧ activeTile g' = Some tile.
Proof.
  intros Hthrow g'. subst g'. cbn [runCallback]. rewrite Hthrow.
  repeat split; reflexivity.
Qed.

Lemma tilesValid_runCallback t rest newTile g :
  tilesValid g → t ∈ pending g → rest ⊆ pending g → validTile newTile →
  tilesValid (runCallback (callback t) newTile (fired t rest g)).
Proof.
  intros [Hseq Hpend] Ht Hrest Hr.
  pose proof (Forall_subseteq _ _ _ Hrest Hpend) as Hrest'.
  rewrite Forall_forall in Hpend. specialize (Hpend _ Ht).
  unfold timerValid in Hpend.
  destruct (callback t) as [d|tile i len f|i len| |s d] eqn:Hcb.
  - cbn [runCallback].
    destruct (playSequence_fields [newTile] d
      (setSequence [newTile] (fired t rest g)))
      as (_ & Hs & _).
    pose proof (playSequence_exact [newTile] d
                  (setSequence [newTile] (fired t rest g))) as Hp.
    split; [rewrite Hs; by apply Forall_singleton|].
    rewrite Hp. apply Forall_app. split; [done|].
    apply flashTimers_valid. by apply Forall_singleton.
  - destruct (FlashTick_fields tile i len f newTile (fired t rest g))
      as (_ & Hs & _ & _ & _ & _ & _ & _ & _ & _ & Hp & _).
    { rewrite fired_throws. by apply validTile_returns. }
    split; [by rewrite Hs|]. rewrite Hp.
    apply Forall_app. split; [done|]. by apply Forall_singleton.
  - cbn [runCallback]. case_decide; split; done.
  - split; done.
  - cbn [runCallback]. unfold addToSequence.
    assert (Forall validTile (s ++ [newTile])) as Hv.
    { apply Forall_app. split; [done|]. by apply Forall_singleton. }
    destruct (playSequence_fields (s ++ [newTile]) d
      (setUserSequence [] (setSequence (s ++ [newTile]) (fired t rest g))))
      as (_ & Hs & _).
    pose proof (playSequence_exact (s ++ [newTile]) d
                  (setUserSequence []
                     (setSequence (s ++ [newTile]) (fired t rest g)))) as Hp.
    split; [by rewrite Hs|].
    rewrite Hp. apply Forall_app. split; [done|].
    by apply flashTimers_valid.
Qed.

Lemma tilesValid_step e g g' :
  tilesValid g → step e g = Some g' → tilesValid g'.
Proof.
  intros Hv Hstep. destruct e.
  - injection Hstep as <-. by apply tilesValid_startGame.
  - injection Hstep as <-. by apply tilesValid_stopGame.
  - injection Hstep as <-. by apply tilesValid_resetGame.
  - injection Hstep as <-. exact Hv.
  - injection Hstep as <-. by apply tilesValid_handleTileClick.
  - apply step_TimerFires in Hstep as (t & rest & Hpick & Hr & ->).
    destruct (pickEarliest_elem _ _ _ Hpick).
    by apply tilesValid_runCallback.
  - unfold step in Hstep. case_decide; [|done].
    injection Hstep as <-. exact Hv.
  - unfold step in Hstep. destruct (signedIn g); [|done].
    injection Hstep as <-. exact Hv.
  - unfold step in Hstep. destruct (signedIn g); [|done].
    injection Hstep as <-. exact Hv.
  - injection Hstep as <-. exact Hv.
Qed.

Lemma reachable_tilesValid g : reachable g → tilesValid g.
Proof.
  apply reachable_invariant; [apply tilesValid_initial|].
  intros e g1 g2 H1 H2. by eapply tilesValid_step.
Qed.

(** Invariants of the sessions played on the grid. *)
Lemma run_invariant_onGrid (P : Game → Prop) :
  (∀ e g g', onGrid e → tilesValid g → P g → step e g = Some g' → P g') →
  ∀ es g g',
    Forall onGrid es → tilesValid g → P g → run es g = Some g' → P g'.
Proof.
  intros Hstep es. induction es as [|e es IH]; intros g g' Hes Hv HP Hrun.
  - simpl in Hrun. by simplify_eq.
  - simpl in Hrun. destruct (step e g) as [g1|] eqn:He; [|done].
    apply Forall_cons in Hes as [He1 Hes].
    eapply IH; [done | by eapply tilesValid_step | | done].
    by eapply Hstep.
Qed.

Lemma reachableOnGrid_invariant (P : Game → Prop) :
  (∀ b, P (initial b)) →
  (∀ e g g', onGrid e → tilesValid g → P g → step e g = Some g' → P g') →
  ∀ g, reachableOnGrid g → P g.
Proof.
  intros Hinit Hstep g (b & es & Hes & Hrun).
  eapply run_invariant_onGrid;
    [exact Hstep | exact Hes | apply tilesValid_initial | apply Hinit
    | exact Hrun].
Qed.

Lemma reachableOnGrid_reachable g : reachableOnGrid g → reachable g.
Proof. intros (b & es & _ & Hrun). by exists b, es. Qed.

Lemma onGrid_returns tileIndex g :
  onGrid (TileClick tileIndex) → playTileSound_throws tileIndex g = false.
Proof. apply validTile_returns. Qed.

(** ** What the timer callbacks change *)

Lemma ClearTick_fields i len newTile g :
  let g' := runCallback (ClearTick i len) newTile g in
  state g' =
    (if decide (Z.of_nat i = Z.of_nat len - 1) then WaitingForInput
     else state g) ∧
  sequence g' = sequence g ∧
  userSequence g' = userSequence g ∧ score g' = score g ∧
  highScore g' = highScore g ∧ difficulty g' = difficulty g ∧
  multiplier g' = multiplier g ∧
  sequenceTimeouts g' = sequenceTimeouts g ∧
  clock g' = clock g ∧ nextHandle g' = nextHandle g ∧
  pending g' = pending g ∧
  signedIn g' = signedIn g ∧ games g' = games g ∧
  high_scores g' = high_scores g ∧
  presented g' = presented g ++ [(clock g, TileOff)].
Proof.
  intros g'. subst g'. cbn [runCallback].
  case_decide; repeat split; reflexivity.
Qed.


(** ** Idle sessions are blank *)




(** ** A wrong tile *)

Lemma lookup_validTile (s : list Z) (n : nat) (t : Z) :
  Forall validTile s → s !! n = Some t → validTile t.
Proof.
  intros Hs Hl. rewrite Forall_forall in Hs.
  apply Hs. by eapply list_elem_of_lookup_2.
Qed.


Lemma handleTileClick_throws_iff tileIndex g :
  handleTileClick_throws tileIndex g = true ↔
  state g = WaitingForInput ∧ playTileSound_throws tileIndex g = true.
Proof.
  unfold handleTileClick_throws.
  by rewrite andb_true_iff, bool_decide_eq_true.
Qed.


(** A session on Easy whose tiles are 2, 7, 5, up to the moment the player
    has entered 2 and 7 of the third round. *)
Definition session_2_7_5 : list Event :=
  [StartGame; TimerFires 2; TimerFires 0; TimerFires 0; TileClick 2;
   TimerFires 7; TimerFires 0; TimerFires 0; TimerFires 0; TimerFires 0;
   TileClick 2; TileClick 7;
   TimerFires 5; TimerFires 0; TimerFires 0; TimerFires 0; TimerFires 0;
   TimerFires 0; TimerFires 0; TileClick 2; TileClick 7].

Definition game_2_7_5_signedIn : Game :=
  Eval vm_compute in
    default (initial true) (run session_2_7_5 (initial true)).

Definition game_2_7_5_anonymous : Game :=
  Eval vm_compute in
    default (initial false) (run session_2_7_5 (initial false)).

Definition game_2_7_5 (signedIn : bool) : Game :=
  if signedIn then game_2_7_5_signedIn else game_2_7_5_anonymous.

Lemma game_2_7_5_reachable b :
  run session_2_7_5 (initial b) = Some (game_2_7_5 b) ∧
  state (game_2_7_5 b) = WaitingForInput ∧
  sequence (game_2_7_5 b) = [2; 7; 5] ∧
  userSequence (game_2_7_5 b) = [2; 7] ∧
  score (game_2_7_5 b) = 2 ∧
  signedIn (game_2_7_5 b) = b.
Proof. destruct b; vm_compute; repeat split; reflexivity. Qed.


(** The session above once the first click or touch on the window has
    created the AudioContext. *)
Definition game_2_7_5_audible : Game := initAudio (game_2_7_5 true).



(** ** The row written at game over *)

Lemma runCallback_state cb newTile g :
  state (runCallback cb newTile g) = ShowingSequence ∨
  state (runCallback cb newTile g) = WaitingForInput ∨
  state (runCallback cb newTile g) = state g.
Proof.
  destruct cb as [d|tile i len f|i len| |s d].
  - left. cbn [runCallback].
    by destruct (playSequence_fields [newTile] d (setSequence [newTile] g)).
  - right; right. by destruct (FlashTick_frame tile i len f newTile g).
  - destruct (ClearTick_fields i len newTile g) as (H & _). rewrite H.
    case_decide; auto.
  - right; right. reflexivity.
  - left. cbn [runCallback]. unfold addToSequence.
    by destruct (playSequence_fields (s ++ [newTile]) d
                   (setUserSequence [] (setSequence (s ++ [newTile]) g))).
Qed.

(** C6, as the code has it.  Whenever the session passes into GameOver, a
    signed-in player gets exactly one new row in [games]; it holds the score
    and the difficulty of the session and a streak equal to the length of
    the sequence minus one.  A player who is not signed in gets no row. *)
Theorem gameOver_row (e : Event) (g g' : Game) :
  step e g = Some g' → state g ≠ GameOver → state g' = GameOver →
  games g' =
    games g ++
    (if signedIn g then
       [{| row_score := score g';
           row_difficulty := difficulty g';
           row_streak := Z.of_nat (length (sequence g')) - 1 |}]
     else []).
Proof.
  intros Hstep Hbefore Hafter. destruct e.
  - injection Hstep as <-.
    destruct (startGame_fields g) as (H & _). congruence.
  - injection Hstep as <-.
    destruct (stopGame_fields g)
      as (_ & Hs & _ & Hsc & _ & Hd & _ & _ & _ & _ & _ & _ & Hg & _).
    rewrite Hg, Hs, Hsc, Hd. reflexivity.
  - injection Hstep as <-.
    destruct (resetGame_fields g) as (H & _). congruence.
  - injection Hstep as <-. done.
  - injection Hstep as <-. revert Hafter.
    destruct (playTileSound_throws tileIndex g) eqn:Hthrow.
    { destruct (handleTileClick_throw_cases tileIndex g Hthrow)
        as [[_ ->]|[_ ->]]; [done|].
      destruct (thrown_fields tileIndex g) as (H & _). congruence. }
    destruct (handleTileClick_cases tileIndex g Hthrow)
      as [[_ ->]|[(Hw & _ & ->)|[(Hw & _ & _ & ->)|(Hw & _ & _ & ->)]]].
    + done.
    + destruct (failed_fields tileIndex g)
        as (_ & Hs & _ & Hsc & _ & Hd & _ & _ & _ & _ & _ & _ & Hg & _).
      intros _. rewrite Hg, Hs, Hsc, Hd. reflexivity.
    + destruct (clicked_fields tileIndex g) as (H & _). congruence.
    + destruct (completed_fields tileIndex g) as (H & _). congruence.
  - apply step_TimerFires in Hstep as (t & rest & Hpick & Hr & ->).
    destruct (fired_fields t rest g) as (Hf & _).
    destruct (runCallback_state (callback t) newTile (fired t rest g))
      as [H|[H|H]]; congruence.
  - unfold step in Hstep. case_decide; [|done].
    injection Hstep as <-. done.
  - unfold step in Hstep. destruct (signedIn g); [|done].
    injection Hstep as <-. done.
  - apply step_SoundSettings in Hstep as ->. done.
  - apply step_InitAudio in Hstep as ->. done.
Qed.

Lemma gameOver_row_witness :
  games (handleTileClick 4 (game_2_7_5 true)) =
  [{| row_score := 2; row_difficulty := easy; row_streak := 2 |}].
Proof.
  apply (gameOver_row (TileClick 4) (game_2_7_5 true)
           (handleTileClick 4 (game_2_7_5 true))).
  - reflexivity.
  - vm_compute. discriminate.
  - reflexivity.
Defined.

(** The claim as the specification words it fails: a mismatch while the
    sequence is 2, 7, 5 (the player clicks tile 4 where 5 is due) writes a
    row whose streak is 2, not the length 3 of the sequence. *)
Lemma sequenceLengthReached_counterexample :
  let g := game_2_7_5 true in
  let g' := handleTileClick 4 g in
  reachable g ∧ state g = WaitingForInput ∧ sequence g = [2; 7; 5] ∧
  userSequence g = [2; 7] ∧
  step (TileClick 4) g = Some g' ∧ state g' = GameOver ∧
  sequence g' = [2; 7; 5] ∧
  games g' = [{| row_score := 2; row_difficulty := easy; row_streak := 2 |}] ∧
  ¬ (∃ row, row ∈ games g' ∧
            row_streak row = Z.of_nat (length (sequence g'))).
Proof.
  intros g g'. split.
  { exists true, session_2_7_5. apply game_2_7_5_reachable. }
  do 7 (split; [reflexivity|]).
  intros (row & Hin & Hrow). change (games g') with
    [{| row_score := 2; row_difficulty := easy; row_streak := 2 |}] in Hin.
  apply list_elem_of_singleton in Hin. subst row.
  vm_compute in Hrow. discriminate Hrow.
Qed.

(** ** stopGame *)



(** ** setDifficulty *)

(** C7, as the code has it.  [setDifficulty] is the bare setter of the
    difficulty cell: in every state it stores the level and changes nothing
    else.  The guard is in the difficulty buttons of the page, which are
    disabled unless the state is Idle: a click on one of them outside Idle
    changes nothing, and in Idle it sets the difficulty. *)
Theorem setDifficulty_guarded_by_selector (level : Difficulty) (g : Game) :
  step (SetDifficulty level) g = Some (setDifficulty level g) ∧
  difficulty (setDifficulty level g) = level ∧
  setDifficulty (difficulty g) (setDifficulty level g) = g ∧
  (state g ≠ Idle → DifficultySelector_click level g = g) ∧
  (state g = Idle →
   DifficultySelector_click level g = setDifficulty level g).
Proof.
  split; [done|]. split; [done|]. split; [by destruct g|].
  unfold DifficultySelector_click. split; intros H.
  - by rewrite decide_True.
  - rewrite decide_False; [done|]. by intros ?.
Qed.

Lemma setDifficulty_guarded_by_selector_witness :
  DifficultySelector_click hard (game_2_7_5 true) = game_2_7_5 true.
Proof.
  apply (setDifficulty_guarded_by_selector hard (game_2_7_5 true)).
  vm_compute. discriminate.
Defined.

(** The claim as the specification words it fails: [setDifficulty] called in
    WaitingForInput is not ignored; the difficulty, and the base multiplier
    with it, change in the middle of the session. *)
Lemma setDifficulty_counterexample :
  let g := game_2_7_5 true in
  reachable g ∧ state g = WaitingForInput ∧ difficulty g = easy ∧
  ∃ g', step (SetDifficulty hard) g = Some g' ∧ g' ≠ g ∧
        difficulty g' = hard ∧
        baseMultiplier (getDifficultySettings (difficulty g')) = 3 ∧
        baseMultiplier (getDifficultySettings (difficulty g)) = 1.
Proof.
  intros g. split.
  { exists true, session_2_7_5. apply game_2_7_5_reachable. }
  do 2 (split; [reflexivity|]).
  exists (setDifficulty hard g). split; [reflexivity|].
  split; [|by repeat split].
  intros H. apply (f_equal difficulty) in H. discriminate H.
Qed.

(** ** High-score writes *)

Lemma completed_highScore tileIndex g :
  let g' := completed tileIndex g in
  (roundScore g > highScore g →
   highScore g' = roundScore g ∧
   high_scores g' =
     high_scores g ++
     (if signedIn g then
        [{| hs_score := roundScore g; hs_difficulty := difficulty g |}]
      else [])) ∧
  (¬ roundScore g > highScore g →
   highScore g' = highScore g ∧ high_scores g' = high_scores g).
Proof.
  intros g'. subst g'. unfold completed. rewrite cleanup_spec.
  unfold clicked, saveHighScore.
  destruct (decide (roundScore g > highScore g)) as [Hgt|Hle];
    (split; [intros Hgt'|intros Hle']); try done.
  cbn [signedIn setHighScore setScore setMultiplier withSequenceTimeouts
       withPending pushTimeout setTimeout snd playTileSound setActiveTile
       setUserSequence].
  destruct (signedIn g); (split; [reflexivity|]); cbn; [done|].
  by rewrite app_nil_r.
Qed.

(** A click that completes the round in progress: the handler runs to its
    end (the sound of the tile does not throw), the tile is the one due and
    the last of the sequence. *)
Definition completesRound (e : Event) (g : Game) : Prop :=
  ∃ tileIndex,
    e = TileClick tileIndex ∧ state g = WaitingForInput ∧
    playTileSound_throws tileIndex g = false ∧
    sequence g !! length (userSequence g) = Some tileIndex ∧
    length (userSequence g ++ [tileIndex]) = length (sequence g).

Lemma runCallback_highScore cb newTile g :
  highScore (runCallback cb newTile g) = highScore g ∧
  high_scores (runCallback cb newTile g) = high_scores g ∧
  score (runCallback cb newTile g) = score g.
Proof.
  destruct cb as [d|tile i len f|i len| |s d].
  - cbn [runCallback].
    destruct (playSequence_fields [newTile] d (setSequence [newTile] g))
      as (_ & _ & _ & H1 & H2 & _ & _ & _ & _ & H3 & _).
    by rewrite H1, H2, H3.
  - by destruct (FlashTick_frame tile i len f newTile g)
      as (_ & _ & _ & -> & -> & _ & _ & _ & _ & _ & _ & _ & _ & -> & _).
  - by destruct (ClearTick_fields i len newTile g)
      as (_ & _ & _ & -> & -> & _ & _ & _ & _ & _ & _ & _ & _ & -> & _).
  - done.
  - cbn [runCallback]. unfold addToSequence.
    destruct (playSequence_fields (s ++ [newTile]) d
                (setUserSequence [] (setSequence (s ++ [newTile]) g)))
      as (_ & _ & _ & H1 & H2 & _ & _ & _ & _ & H3 & _).
    by rewrite H1, H2, H3.
Qed.

(** What one event does to the high score and to the [high_scores] table:
    either a round is completed above the known high score, which then
    becomes the score (and is written for a signed-in player), or the event
    is the arrival of the fetched high score, or nothing changes. *)
Lemma step_highScore e g g' :
  step e g = Some g' →
  (completesRound e g ∧ score g' > highScore g ∧ highScore g' = score g' ∧
   high_scores g' =
     high_scores g ++
     (if signedIn g then
        [{| hs_score := score g'; hs_difficulty := difficulty g |}]
      else [])) ∨
  (¬ (completesRound e g ∧ score g' > highScore g) ∧
   high_scores g' = high_scores g ∧
   ((∃ v, e = HighScoreFetched v) ∨ highScore g' = highScore g)).
Proof.
  intros Hstep. destruct e.
  - injection Hstep as <-. right.
    destruct (startGame_fields g)
      as (_ & _ & _ & _ & H1 & _ & _ & _ & _ & _ & _ & _ & H2).
    split; [by intros [(? & ? & _) _]|]. auto.
  - injection Hstep as <-. right.
    destruct (stopGame_fields g)
      as (_ & _ & _ & _ & H1 & _ & _ & _ & _ & _ & _ & _ & _ & H2 & _).
    split; [by intros [(? & ? & _) _]|]. auto.
  - injection Hstep as <-. right.
    destruct (resetGame_fields g)
      as (_ & _ & _ & _ & H1 & _ & _ & _ & _ & _ & _ & _ & H2).
    split; [by intros [(? & ? & _) _]|]. auto.
  - injection Hstep as <-. right.
    split; [by intros [(? & ? & _) _]|]. auto.
  - injection Hstep as <-.
    destruct (playTileSound_throws tileIndex g) eqn:Hthrow.
    { right. split; [intros [(i & [= <-] & _ & Hno & _) _]; congruence|].
      destruct (handleTileClick_throw_cases tileIndex g Hthrow)
        as [[_ ->]|[_ ->]]; [auto|].
      destruct (thrown_fields tileIndex g)
        as (_ & _ & _ & _ & H1 & _ & _ & _ & _ & _ & _ & _ & _ & H2 & _).
      auto. }
    destruct (handleTileClick_cases tileIndex g Hthrow)
      as [[Hn ->]|[(Hw & Hne & ->)|[(Hw & He & Hl & ->)|(Hw & He & Hl & ->)]]].
    + right. split; [|auto].
      intros [(i & [= <-] & Hs & _) _]. done.
    + right.
      destruct (failed_fields tileIndex g)
        as (_ & _ & _ & _ & H1 & _ & _ & _ & _ & _ & _ & _ & _ & H2).
      split; [|auto]. intros [(i & [= <-] & _ & _ & Hl & _) _]. done.
    + right.
      destruct (clicked_fields tileIndex g)
        as (_ & _ & _ & _ & H1 & _ & _ & _ & _ & _ & _ & _ & _ & H2).
      split; [|auto]. intros [(i & [= <-] & _ & _ & _ & Hl') _]. done.
    + destruct (completed_fields tileIndex g) as (_ & _ & _ & Hsc & _).
      destruct (completed_highScore tileIndex g) as [Hgt Hle].
      rewrite Hsc.
      destruct (decide (roundScore g > highScore g)) as [Hd|Hd].
      * left. destruct (Hgt Hd) as [H1 H2].
        split; [by exists tileIndex|]. auto.
      * right. destruct (Hle Hd) as [H1 H2].
        split; [by intros [_ ?]|]. auto.
  - apply step_TimerFires in Hstep as (t & rest & Hpick & Hr & ->).
    right. split; [by intros [(? & ? & _) _]|].
    destruct (runCallback_highScore (callback t) newTile (fired t rest g))
      as (H1 & H2 & _).
    split; [exact H2 | right; exact H1].
  - unfold step in Hstep. case_decide; [|done].
    injection Hstep as <-. right.
    split; [by intros [(? & ? & _) _]|]. auto.
  - unfold step in Hstep. destruct (signedIn g); [|done].
    injection Hstep as <-. right.
    split; [by intros [(? & ? & _) _]|]. eauto.
  - apply step_SoundSettings in Hstep as ->. right.
    split; [by intros [(? & ? & _) _]|]. auto.
  - apply step_InitAudio in Hstep as ->. right.
    split; [by intros [(? & ? & _) _]|]. auto.
Qed.

(** A run without a fetched high score, all of whose scores stay at or below
    the high score known at its start, writes nothing. *)
Lemma run_no_write es g g' :
  run es g = Some g' →
  Forall (λ e, ∀ v, e ≠ HighScoreFetched v) es →
  (∀ k gk, run (take k es) g = Some gk → score gk <= highScore g) →
  high_scores g' = high_scores g.
Proof.
  revert g. induction es as [|e es IH]; intros g Hrun Hnf Hbound.
  - simpl in Hrun. by simplify_eq.
  - simpl in Hrun. destruct (step e g) as [g1|] eqn:He; [|done].
    apply Forall_cons in Hnf as [Hne Hnf].
    assert (score g1 <= highScore g) as Hb1.
    { apply (Hbound 1%nat). simpl. rewrite He. by destruct es. }
    destruct (step_highScore _ _ _ He)
      as [(_ & Hgt & _)|(_ & Hhs & [[v ->]|Hh])]; [lia | by destruct (Hne v) |].
    rewrite <- Hhs. apply IH; [done | done |].
    intros k gk Hk. rewrite Hh. apply (Hbound (S k)). simpl. by rewrite He.
Qed.

(** A session on Hard, the stored high score being 10, with tiles 4, 0, 8, 3,
    played without a mistake through four rounds. *)
Definition session_hard_four_rounds : list Event :=
  [SetDifficulty hard; HighScoreFetched 10; StartGame;
   TimerFires 4; TimerFires 0; TimerFires 0; TileClick 4;
   TimerFires 0; TimerFires 0; TimerFires 0; TimerFires 0; TimerFires 0;
   TileClick 4; TileClick 0;
   TimerFires 8; TimerFires 0; TimerFires 0; TimerFires 0; TimerFires 0;
   TimerFires 0; TimerFires 0;
   TileClick 4; TileClick 0; TileClick 8;
   TimerFires 3; TimerFires 0; TimerFires 0; TimerFires 0; TimerFires 0;
   TimerFires 0; TimerFires 0; TimerFires 0; TimerFires 0;
   TileClick 4; TileClick 0; TileClick 8; TileClick 3].

(** A session that ends on Hard with the score 8, the stored high score
    being 10: one round is played on Medium and two on Hard (the provider's
    [setDifficulty] is not guarded), then a wrong tile is entered. *)
Definition session_hard_eight : list Event :=
  [SetDifficulty hard; HighScoreFetched 10; StartGame;
   TimerFires 4; TimerFires 0; TimerFires 0;
   SetDifficulty medium; TileClick 4; SetDifficulty hard;
   TimerFires 0; TimerFires 0; TimerFires 0; TimerFires 0; TimerFires 0;
   TileClick 4; TileClick 0;
   TimerFires 8; TimerFires 0; TimerFires 0; TimerFires 0; TimerFires 0;
   TimerFires 0; TimerFires 0;
   TileClick 4; TileClick 0; TileClick 8;
   TimerFires 3; TimerFires 0; TimerFires 0; TimerFires 0; TimerFires 0;
   TimerFires 0; TimerFires 0; TimerFires 0; TimerFires 0;
   TileClick 4; TileClick 0; TileClick 8; TileClick 5].

(** The score the [high_scores] table holds for a difficulty after the rows
    written: the upsert is keyed by player and difficulty
    ([onConflict: "user_id,difficulty"]), so the last row written for the
    difficulty replaces the earlier ones. *)
Definition storedHighScore (d : Difficulty) (rows : list HighScoreRow)
  : option Z :=
  last (map hs_score (filter (λ r, hs_difficulty r = d) rows)).

(** A signed-in player on the game page.  On Hard, whose fetched high score
    is 0, two rounds are completed (6 points) and the game is lost and
    dismissed.  On Easy, whose fetched high score is 0, one round is
    completed (1 point) and the game is lost and dismissed.  The difficulty
    is set to Hard again and a game is started; the answer of
    [fetchHighScore] for Hard has not arrived (or the request has failed)
    when the first tile has been shown. *)
Definition session_stale_baseline : list Event :=
  [HighScoreFetched 0; SetDifficulty hard; HighScoreFetched 0; StartGame;
   TimerFires 4; TimerFires 0; TimerFires 0; TileClick 4;
   TimerFires 0; TimerFires 0; TimerFires 0; TimerFires 0; TimerFires 0;
   TileClick 4; TileClick 0;
   TimerFires 8; TimerFires 0; TimerFires 0; TimerFires 0; TimerFires 0;
   TimerFires 0; TimerFires 0;
   TileClick 0;
   ResetGame; SetDifficulty easy; HighScoreFetched 0; StartGame;
   TimerFires 2; TimerFires 0; TimerFires 0; TileClick 2;
   TimerFires 7; TimerFires 0; TimerFires 0; TimerFires 0; TimerFires 0;
   TileClick 7;
   ResetGame; SetDifficulty hard; StartGame;
   TimerFires 5; TimerFires 0; TimerFires 0].

(** C9, what the code does.  The provider keeps one cell [highScore]: it
    holds the value last fetched or last written, and [setDifficulty] leaves
    it as it is until [fetchHighScore] answers for the new difficulty.  For a
    signed-in player a row with the new score is written to [high_scores]
    exactly when a completed round raises the score strictly above that
    cell; nothing is written for a player who is not signed in.  A run whose
    scores never exceed the cell at its start, and in which no fetched value
    arrives, writes nothing.  So while the cell holds the high score of the
    current difficulty the write is issued exactly when that high score is
    beaten: on Hard with a fetched high score of 10, a signed-in session that
    reaches 12 writes 12, and one that ends at 8 writes nothing. *)
Theorem highScore_written_when_beaten (e : Event) (es : list Event)
    (g g' : Game) :
  (step e g = Some g' →
   (signedIn g = true →
    (completesRound e g ∧ score g' > highScore g ∧
     high_scores g' =
       high_scores g ++
       [{| hs_score := score g'; hs_difficulty := difficulty g |}]) ∨
    (¬ (completesRound e g ∧ score g' > highScore g) ∧
     high_scores g' = high_scores g)) ∧
   (signedIn g = false → high_scores g' = high_scores g) ∧
   (highScore g' = highScore g ∨
    (∃ v, e = HighScoreFetched v ∧ highScore g' = v) ∨
    (completesRound e g ∧ score g' > highScore g ∧
     highScore g' = score g'))) ∧
  (run es g = Some g' →
   Forall (λ e, ∀ v, e ≠ HighScoreFetched v) es →
   (∀ k gk, run (take k es) g = Some gk → score gk <= highScore g) →
   high_scores g' = high_scores g) ∧
  (∃ g12,
     run session_hard_four_rounds (initial true) = Some g12 ∧
     difficulty g12 = hard ∧ score g12 = 12 ∧
     high_scores g12 = [{| hs_score := 12; hs_difficulty := hard |}]) ∧
  (∃ g8,
     run session_hard_eight (initial true) = Some g8 ∧
     state g8 = GameOver ∧ difficulty g8 = hard ∧ highScore g8 = 10 ∧
     score g8 = 8 ∧ high_scores g8 = []).
Proof.
  split; [|split; [apply run_no_write|split]].
  - intros Hstep. split; [|split].
    + intros Hsi. destruct (step_highScore _ _ _ Hstep)
        as [(Hc & Hgt & _ & Hw)|(Hn & Hw & _)].
      * rewrite Hsi in Hw. auto.
      * auto.
    + intros Hsi. destruct (step_highScore _ _ _ Hstep)
        as [(Hc & Hgt & _ & Hw)|(Hn & Hw & _)]; [|done].
      rewrite Hsi in Hw. by rewrite app_nil_r in Hw.
    + destruct (step_highScore _ _ _ Hstep)
        as [(Hc & Hgt & Hh & _)|(_ & _ & [[v ->]|Hh])].
      * right. right. done.
      * right. left. exists v. split; [done|].
        unfold step in Hstep. destruct (signedIn g); [|done].
        by injection Hstep as <-.
      * by left.
  - eexists. vm_compute. repeat split; reflexivity.
  - eexists. vm_compute. repeat split; reflexivity.
Qed.

Lemma highScore_written_when_beaten_witness :
  high_scores (handleTileClick 5 (game_2_7_5 true)) =
  [{| hs_score := 1; hs_difficulty := easy |};
   {| hs_score := 2; hs_difficulty := easy |};
   {| hs_score := 3; hs_difficulty := easy |}].
Proof.
  destruct (highScore_written_when_beaten (TileClick 5) [TileClick 5]
              (game_2_7_5 true) (handleTileClick 5 (game_2_7_5 true)))
    as ([H _] & _).
  - reflexivity.
  - destruct (H eq_refl) as [(_ & _ & Hw)|(Hn & _)].
    + exact Hw.
    + exfalso. apply Hn. split; [|vm_compute; reflexivity].
      exists 5. repeat split; reflexivity.
Defined.

(** Where the code leaves the claim: the cell can be out of date.  In
    [session_stale_baseline] the table holds 6 for Hard, written by the
    session itself, and the cell holds the 1 of the Easy game when the
    player, on Hard again, completes the first round.  The score 3 does not
    exceed the high score 6 known for Hard, yet it is above the cell: the
    row (3, hard) is upserted and the stored high score for Hard drops from
    6 to 3. *)
Lemma highScore_stale_baseline :
  ∃ g g',
    run session_stale_baseline (initial true) = Some g ∧
    signedIn g = true ∧ state g = WaitingForInput ∧ difficulty g = hard ∧
    storedHighScore hard (high_scores g) = Some 6 ∧ highScore g = 1 ∧
    completesRound (TileClick 5) g ∧ handleTileClick_throws 5 g = false ∧
    step (TileClick 5) g = Some g' ∧
    score g' = 3 ∧ ¬ score g' > 6 ∧
    high_scores g' =
      high_scores g ++ [{| hs_score := 3; hs_difficulty := hard |}] ∧
    storedHighScore hard (high_scores g') = Some 3.
Proof.
  eexists. eexists. split; [vm_compute; reflexivity|].
  split; [reflexivity|]. split; [reflexivity|]. split; [reflexivity|].
  split; [vm_compute; reflexivity|]. split; [reflexivity|].
  split; [exists 5; repeat split; reflexivity|].
  split; [reflexivity|]. split; [vm_compute; reflexivity|].
  split; [reflexivity|]. split; [cbn; lia|].
  split; vm_compute; reflexivity.
Qed.

(** ** The reveal pass *)

(** What a pass shows, tile by tile: on and sounded at
    [t0 + i * (f + p)], off [f] later. *)
Fixpoint revealLog (tiles : list Z) (i : nat) (f p : Z) (t0 : Z)
  : list (Z * Presentation) :=
  match tiles with
  | [] => []
  | tile :: rest =>
      [(t0 + Z.of_nat i * (f + p), TileOn tile);
       (t0 + Z.of_nat i * (f + p), TileSound tile);
       (t0 + Z.of_nat i * (f + p) + f, TileOff)]
      ++ revealLog rest (S i) f p t0
  end.

(** The tiles lit, in order. *)
Definition activated (log : list (Z * Presentation)) : list Z :=
  omap (λ x, match snd x with TileOn t => Some t | _ => None end) log.

(** Two timers fire for each tile of the pass. *)
Definition revealEvents (tiles : list Z) : list Event :=
  flat_map (λ _, [TimerFires 0; TimerFires 0]) tiles.

(** The fields the timers of a pass leave alone. *)
Definition sameSession (g g' : Game) : Prop :=
  sequence g' = sequence g ∧ userSequence g' = userSequence g ∧
  score g' = score g ∧ highScore g' = highScore g ∧
  difficulty g' = difficulty g ∧ multiplier g' = multiplier g ∧
  signedIn g' = signedIn g ∧ games g' = games g ∧
  high_scores g' = high_scores g.


Lemma sameSession_trans g1 g2 g3 :
  sameSession g1 g2 → sameSession g2 g3 → sameSession g1 g3.
Proof.
  unfold sameSession. intros (?&?&?&?&?&?&?&?&?) (?&?&?&?&?&?&?&?&?).
  repeat split; congruence.
Qed.

Lemma playSequence_sameSession s d g : sameSession g (playSequence s d g).
Proof.
  unfold playSequence.
  match goal with
  | |- context [playSequence_forEach ?a ?b ?c ?e ?f ?h] =>
      destruct (playSequence_forEach_frame a b c e f h)
        as (?&?&?&?&?&?&?&?&?&?&?&?&?)
  end.
  by repeat split.
Qed.

Lemma pickEarliest_None l : pickEarliest l = None → l = [].
Proof.
  destruct l as [|t l]; [done|]. simpl.
  destruct (pickEarliest l) as [[t' rest']|]; [|done].
  by destruct (due t <=? due t').
Qed.

Lemma pickEarliest_head t l :
  Forall (λ x, due t <= due x) l → pickEarliest (t :: l) = Some (t, l).
Proof.
  intros Hl. simpl.
  destruct (pickEarliest l) as [[t' rest']|] eqn:E.
  - destruct (pickEarliest_elem _ _ _ E) as [Hin _].
    rewrite Forall_forall in Hl. specialize (Hl _ Hin).
    by destruct (Z.leb_spec (due t) (due t')); [|lia].
  - by rewrite (pickEarliest_None _ E).
Qed.

Lemma pickEarliest_last t l :
  Forall (λ x, due t < due x) l → pickEarliest (l ++ [t]) = Some (t, l).
Proof.
  induction 1 as [|a l Ha _ IH]; [done|].
  simpl. rewrite IH.
  by destruct (Z.leb_spec (due a) (due t)); [lia|].
Qed.

Lemma step_fire newTile t rest g :
  pickEarliest (pending g) = Some (t, rest) → validTile newTile →
  step (TimerFires newTile) g =
  Some (runCallback (callback t) newTile (fired t rest g)).
Proof. intros Hp Hv. unfold step. rewrite Hp. by rewrite decide_True. Qed.

Lemma flashTimers_due tiles i len f p h t0 :
  0 <= f + p →
  Forall (λ x, t0 + Z.of_nat i * (f + p) <= due x)
    (flashTimers tiles i len f p h t0).
Proof.
  intros Hfp. revert i h. induction tiles as [|t tiles IH]; intros i h.
  - constructor.
  - simpl. constructor; [cbn; lia|].
    eapply Forall_impl; [apply (IH (S i))|]. cbn. intros x Hx. nia.
Qed.

Lemma validTile_0 : validTile 0.
Proof. unfold validTile. lia. Qed.

Lemma fired_sameSession t rest g : sameSession g (fired t rest g).
Proof. by repeat split. Qed.

Lemma FlashTick_sameSession tile i len f newTile g :
  sameSession g (runCallback (FlashTick tile i len f) newTile g).
Proof.
  destruct (FlashTick_frame tile i len f newTile g)
    as (?&?&?&?&?&?&?&?&?&?&?&?&?&?&?).
  by repeat split.
Qed.

Lemma ClearTick_sameSession i len newTile g :
  sameSession g (runCallback (ClearTick i len) newTile g).
Proof.
  destruct (ClearTick_fields i len newTile g)
    as (?&?&?&?&?&?&?&?&?&?&?&?&?&?&?).
  by repeat split.
Qed.

(** One tile of the pass: its two timers fire in turn. *)
Lemma reveal_tile tile rest i len f p h t0 g :
  0 < f → 0 < p → validTile tile →
  pending g = flashTimers (tile :: rest) i len f p h t0 →
  clock g <= t0 + Z.of_nat i * (f + p) →
  ∃ g1 g2,
    step (TimerFires 0) g = Some g1 ∧ step (TimerFires 0) g1 = Some g2 ∧
    state g1 = state g ∧
    state g2 =
      (if decide (Z.of_nat i = Z.of_nat len - 1) then WaitingForInput
       else state g) ∧
    (∃ h', pending g2 = flashTimers rest (S i) len f p h' t0) ∧
    clock g2 = t0 + Z.of_nat i * (f + p) + f ∧
    presented g2 =
      presented g ++
      [(t0 + Z.of_nat i * (f + p), TileOn tile);
       (t0 + Z.of_nat i * (f + p), TileSound tile);
       (t0 + Z.of_nat i * (f + p) + f, TileOff)] ∧
    sameSession g g2.
Proof.
  intros Hf Hp Hvalid Hpend Hclock. simpl in Hpend.
  set (F := {| handle := h; due := t0 + Z.of_nat i * (f + p);
               callback := FlashTick tile i len f |}) in *.
  set (Frest := flashTimers rest (S i) len f p (S h) t0) in *.
  assert (Forall (λ x, t0 + Z.of_nat (S i) * (f + p) <= due x) Frest)
    as Hdue by (apply flashTimers_due; lia).
  assert (pickEarliest (pending g) = Some (F, Frest)) as Hpick1.
  { rewrite Hpend. apply pickEarliest_head.
    eapply Forall_impl; [exact Hdue|]. cbn. intros x Hx. nia. }
  set (g0 := fired F Frest g).
  set (g1 := runCallback (FlashTick tile i len f) 0 g0).
  destruct (fired_fields F Frest g)
    as (A1&_&_&_&_&_&_&_&A9&A10&A11&_&_&_&A15).
  destruct (FlashTick_fields tile i len f 0 g0
              (validTile_returns tile g0 Hvalid))
    as (B1&_&_&_&_&_&_&_&B9&B10&B11&_&_&_&B15).
  fold g0 in A1, A9, A10, A11, A15.
  fold g1 in B1, B9, B10, B11, B15.
  assert (clock g0 = t0 + Z.of_nat i * (f + p)) as Hc0.
  { rewrite A9. cbn. lia. }
  set (C := {| handle := nextHandle g0; due := clock g0 + f;
               callback := ClearTick i len |}) in *.
  assert (pickEarliest (pending g1) = Some (C, Frest)) as Hpick2.
  { rewrite B11, A11. apply pickEarliest_last.
    eapply Forall_impl; [exact Hdue|]. cbn. intros x Hx. nia. }
  set (g1' := fired C Frest g1).
  set (g2 := runCallback (ClearTick i len) 0 g1').
  destruct (fired_fields C Frest g1)
    as (C1&_&_&_&_&_&_&_&C9&_&C11&_&_&_&C15).
  destruct (ClearTick_fields i len 0 g1')
    as (D1&_&_&_&_&_&_&_&D9&_&D11&_&_&_&D15).
  fold g1' in C1, C9, C11, C15.
  fold g2 in D1, D9, D11, D15.
  assert (clock g1' = t0 + Z.of_nat i * (f + p) + f) as Hc1.
  { rewrite C9, B9, Hc0. cbn. lia. }
  exists g1, g2. split.
  { rewrite (step_fire 0 F Frest g Hpick1 validTile_0). reflexivity. }
  split.
  { rewrite (step_fire 0 C Frest g1 Hpick2 validTile_0). reflexivity. }
  split; [by rewrite B1, A1|].
  split; [by rewrite D1, C1, B1, A1|].
  split; [exists (S h); by rewrite D11, C11|].
  split; [by rewrite D9, Hc1|].
  split.
  { rewrite D15, C15, B15, A15, Hc1, Hc0, <- app_assoc. reflexivity. }
  eapply sameSession_trans; [apply (fired_sameSession F Frest)|].
  eapply sameSession_trans; [apply FlashTick_sameSession|].
  eapply sameSession_trans; [apply (fired_sameSession C Frest)|].
  apply ClearTick_sameSession.
Qed.

(** The whole pass, from the tile of index [i] on. *)
Lemma reveal_run tiles :
  ∀ i len f p h t0 g,
    0 < f → 0 < p → Forall validTile tiles → tiles ≠ [] →
    (i + length tiles = len)%nat →
    pending g = flashTimers tiles i len f p h t0 →
    clock g <= t0 + Z.of_nat i * (f + p) →
    state g = ShowingSequence →
    ∃ g',
      run (revealEvents tiles) g = Some g' ∧
      state g' = WaitingForInput ∧ pending g' = [] ∧
      presented g' = presented g ++ revealLog tiles i f p t0 ∧
      clock g' = t0 + (Z.of_nat len - 1) * (f + p) + f ∧
      sameSession g g' ∧
      (∀ k, (k < length (revealEvents tiles))%nat →
            ∃ gk, run (take k (revealEvents tiles)) g = Some gk ∧
                  state gk = ShowingSequence).
Proof.
  induction tiles as [|tile rest IH]; [done|].
  intros i len f p h t0 g Hf Hp Hvalid _ Hlen Hpend Hclock Hstate.
  apply Forall_cons in Hvalid as [Hvalid Hvalid'].
  destruct (reveal_tile tile rest i len f p h t0 g Hf Hp Hvalid Hpend Hclock)
    as (g1 & g2 & S1 & S2 & St1 & St2 & (h' & Hp2) & Hc2 & Hlog & Hsame).
  assert (∀ es k,
    (k < 2 + length es)%nat →
    (∀ k', (k' < length es)%nat →
           ∃ gk, run (take k' es) g2 = Some gk ∧
                 state gk = ShowingSequence) →
    ∃ gk, run (take k (TimerFires 0 :: TimerFires 0 :: es)) g = Some gk ∧
          state gk = ShowingSequence) as Hprefix.
  { intros es k Hk Hes. destruct k as [|[|k]].
    - exists g. by split.
    - exists g1. cbn [take run]. rewrite S1. split; [done | congruence].
    - cbn [take run]. rewrite S1, S2. apply Hes. lia. }
  destruct rest as [|tile' rest'].
  - exists g2. simpl in Hlen.
    rewrite decide_True in St2 by lia.
    split.
    { change (revealEvents [tile]) with [TimerFires 0; TimerFires 0].
      cbn [run]. by rewrite S1, S2. }
    split; [done|]. split; [by rewrite Hp2|].
    split; [by rewrite Hlog|].
    split; [rewrite Hc2; f_equal; f_equal; lia|].
    split; [done|].
    intros k Hk. apply (Hprefix [] k); [simpl in *; lia|].
    intros k' Hk'. simpl in Hk'. lia.
  - simpl in Hlen. rewrite decide_False in St2 by lia.
    destruct (IH (S i) len f p h' t0 g2 Hf Hp) as
      (g' & R & Rs & Rp & Rlog & Rc & Rsame & Rprefix);
      [done | done | simpl; lia | exact Hp2 | rewrite Hc2; nia | congruence |].
    exists g'.
    split.
    { change (revealEvents (tile :: tile' :: rest')) with
        (TimerFires 0 :: TimerFires 0 :: revealEvents (tile' :: rest')).
      cbn [run]. by rewrite S1, S2. }
    split; [done|]. split; [done|].
    split.
    { rewrite Rlog, Hlog, <- app_assoc. reflexivity. }
    split; [done|].
    split; [by eapply sameSession_trans|].
    intros k Hk.
    change (revealEvents (tile :: tile' :: rest')) with
      (TimerFires 0 :: TimerFires 0 :: revealEvents (tile' :: rest')) in *.
    apply Hprefix; [simpl in Hk; simpl; lia | exact Rprefix].
Qed.

Lemma activated_app l1 l2 : activated (l1 ++ l2) = activated l1 ++ activated l2.
Proof. unfold activated. apply omap_app. Qed.

Lemma activated_revealLog tiles i f p t0 :
  activated (revealLog tiles i f p t0) = tiles.
Proof.
  revert i. induction tiles as [|t tiles IH]; intros i; [done|].
  simpl. unfold activated in *. cbn. by rewrite IH.
Qed.

(** The pass [playSequence] schedules, run to its end. *)
Lemma playSequence_reveals (s : list Z) (d : Difficulty) (g : Game) :
  s ≠ [] → Forall validTile s → pending g = [] →
  let f := flashDelay (getDifficultySettings d) in
  let p := pauseDelay (getDifficultySettings d) in
  let g0 := playSequence s d g in
  ∃ g',
    run (revealEvents s) g0 = Some g' ∧
    (∀ k, (k < length (revealEvents s))%nat →
          ∃ gk, run (take k (revealEvents s)) g0 = Some gk ∧
                state gk = ShowingSequence) ∧
    state g' = WaitingForInput ∧
    presented g' = presented g ++ revealLog s 0 f p (clock g) ∧
    activated (presented g') = activated (presented g) ++ s ∧
    clock g' = clock g + (Z.of_nat (length s) - 1) * (f + p) + f ∧
    pending g' = [] ∧ sameSession g g'.
Proof.
  intros Hs Hvalid Hpend f p g0.
  assert (0 < f ∧ 0 < p) as [Hf Hp] by (subst f p; destruct d; cbn; lia).
  destruct (playSequence_fields s d g)
    as (Hst & _ & _ & _ & _ & _ & Hc & _ & _ & _ & Hlog & _).
  fold g0 in Hst, Hc, Hlog.
  destruct (reveal_run s 0 (length s) f p (nextHandle g) (clock g) g0)
    as (g' & R & Rs & Rp & Rlog & Rc & Rsame & Rprefix);
    [done | done | done | done | done | | rewrite Hc; lia | done |].
  { subst g0. by rewrite playSequence_exact, Hpend. }
  exists g'. rewrite Hlog in Rlog.
  split; [done|]. split; [done|]. split; [done|]. split; [done|].
  split; [by rewrite Rlog, activated_app, activated_revealLog|].
  split; [done|]. split; [done|].
  eapply sameSession_trans; [apply playSequence_sameSession | exact Rsame].
Qed.

(** The claim as the specification words it fails in its last part: in a
    session on Easy whose first tile is 3, the tile goes on at 100 and off at
    500, its on-and-off cycle of 400 + 400 ms ends at 900, and the state is
    WaitingForInput at 500 already: a click at that time is accepted and
    completes the round. *)
Lemma reveal_waits_counterexample :
  ∃ g0 g',
    run [StartGame; TimerFires 3] (initial true) = Some g0 ∧
    state g0 = ShowingSequence ∧ sequence g0 = [3] ∧
    run (revealEvents [3]) g0 = Some g' ∧
    presented g' =
      [(0, TileOff); (100, TileOn 3); (100, TileSound 3); (500, TileOff)] ∧
    state g' = WaitingForInput ∧ clock g' = 500 ∧
    clock g' <
      100 + flashDelay (getDifficultySettings easy)
          + pauseDelay (getDifficultySettings easy) ∧
    score (handleTileClick 3 g') = 1.
Proof.
  eexists. eexists. split; [vm_compute; reflexivity|].
  split; [reflexivity|]. split; [reflexivity|].
  split; [vm_compute; reflexivity|].
  repeat split; vm_compute; reflexivity.
Qed.

(** ** A session played without a mistake *)












(** ** The input buffer is a prefix of the sequence *)

(** The timer of [startGame] is the one timer that is not registered in
    [sequenceTimeouts], so that [cleanup] does not cancel it.  The invariant
    below keeps track of it: while such a timer is pending the session
    cannot be accepting input, because a reveal pass takes at least
    [flashDelay >= 200] ms and the timer is due within 100 ms. *)

Definition startTick (t : Timer) : Prop := ∃ d, callback t = StartTick d.

Record sessionInv (g : Game) : Prop := {
  inv_registered :
    ∀ t, t ∈ pending g → startTick t ∨ handle t ∈ sequenceTimeouts g;
  inv_start_due :
    ∀ t0, t0 ∈ pending g → startTick t0 → due t0 <= clock g + 100;
  inv_start_flash :
    ∀ t0 t tile i len f,
      t0 ∈ pending g → startTick t0 → t ∈ pending g →
      callback t = FlashTick tile i len f → due t0 < due t + f;
  inv_start_clear :
    ∀ t0 t i len,
      t0 ∈ pending g → startTick t0 → t ∈ pending g →
      callback t = ClearTick i len → due t0 < due t;
  inv_start_quiet :
    ∀ t0, t0 ∈ pending g → startTick t0 →
      state g ≠ WaitingForInput ∧ userSequence g = [] ∧
      ∀ t s d, t ∈ pending g → callback t ≠ NextSequenceTick s d;
  inv_prefix :
    userSequence g `prefix_of` sequence g ∨
    (state g = GameOver ∧ pending g = [])
}.

Lemma sessionInv_initial b : sessionInv (initial b).
Proof.
  split; cbn; try (intros; by match goal with H : _ ∈ [] |- _ =>
                                  apply elem_of_nil in H end).
  left. apply prefix_nil.
Qed.

(** No start timer pending: only registration and the prefix matter. *)
Lemma sessionInv_no_start g :
  (∀ t, t ∈ pending g → ¬ startTick t) →
  (∀ t, t ∈ pending g → handle t ∈ sequenceTimeouts g) →
  userSequence g `prefix_of` sequence g ∨
    (state g = GameOver ∧ pending g = []) →
  sessionInv g.
Proof.
  intros Hno Hreg Hpre. split; try done.
  - intros t Ht. right. by apply Hreg.
  - intros t0 Ht0 Hs. by destruct (Hno t0 Ht0).
  - intros t0 t tile i len f Ht0 Hs. by destruct (Hno t0 Ht0).
  - intros t0 t i len Ht0 Hs. by destruct (Hno t0 Ht0).
  - intros t0 Ht0 Hs. by destruct (Hno t0 Ht0).
Qed.

(** Only start timers pending, as after [cleanup]. *)
Lemma sessionInv_only_start g :
  (∀ t, t ∈ pending g → startTick t) →
  (∀ t, t ∈ pending g → due t <= clock g + 100) →
  state g ≠ WaitingForInput →
  (pending g ≠ [] → userSequence g = []) →
  userSequence g `prefix_of` sequence g ∨
    (state g = GameOver ∧ pending g = []) →
  sessionInv g.
Proof.
  intros Hall Hdue Hst Hu Hpre. split; try done.
  - intros t Ht. left. by apply Hall.
  - intros t0 Ht0 _. by apply Hdue.
  - intros t0 t tile i len f _ _ Ht Hcb.
    destruct (Hall t Ht) as [d Hd]. congruence.
  - intros t0 t i len _ _ Ht Hcb.
    destruct (Hall t Ht) as [d Hd]. congruence.
  - intros t0 Ht0 _. split; [done|]. split.
    + apply Hu. intros Hnil. rewrite Hnil in Ht0. by apply elem_of_nil in Ht0.
    + intros t s d Ht Hcb. destruct (Hall t Ht) as [d' Hd]. congruence.
Qed.

Lemma unregistered_elem g t :
  t ∈ unregistered g ↔ t ∈ pending g ∧ handle t ∉ sequenceTimeouts g.
Proof. unfold unregistered. rewrite list_elem_of_filter. tauto. Qed.

Lemma unregistered_start g t :
  sessionInv g → t ∈ unregistered g → t ∈ pending g ∧ startTick t.
Proof.
  intros Hinv [Ht Hn]%unregistered_elem. split; [done|].
  by destruct (inv_registered g Hinv t Ht).
Qed.

Lemma prefix_snoc (u s : list Z) (x : Z) :
  u `prefix_of` s → s !! length u = Some x → (u ++ [x]) `prefix_of` s.
Proof.
  intros [k ->] Hl. rewrite lookup_app_r in Hl by lia.
  rewrite Nat.sub_diag in Hl. destruct k as [|y k]; [done|].
  simpl in Hl. simplify_eq. exists k. by rewrite <- app_assoc.
Qed.

Lemma waiting_no_start g t :
  sessionInv g → state g = WaitingForInput → t ∈ pending g → ¬ startTick t.
Proof.
  intros Hinv Hw Ht Hs. by destruct (inv_start_quiet g Hinv t Ht Hs).
Qed.

Lemma waiting_prefix g :
  sessionInv g → state g = WaitingForInput →
  userSequence g `prefix_of` sequence g.
Proof.
  intros Hinv Hw. destruct (inv_prefix g Hinv) as [H|[H _]]; [done|].
  congruence.
Qed.

Lemma pickEarliest_min l t rest :
  pickEarliest l = Some (t, rest) → ∀ x, x ∈ l → due t <= due x.
Proof.
  revert t rest. induction l as [|a l IH]; intros t rest H x Hx;
    simpl in H; [done|].
  destruct (pickEarliest l) as [[t' rest']|] eqn:E.
  - specialize (IH _ _ eq_refl).
    destruct (Z.leb_spec (due a) (due t')); simplify_eq;
      apply elem_of_cons in Hx as [->|Hx]; try lia.
    + specialize (IH _ Hx). lia.
    + by apply IH.
  - apply pickEarliest_None in E. subst l. simplify_eq.
    apply elem_of_cons in Hx as [->|Hx]; [lia|].
    by apply elem_of_nil in Hx.
Qed.

Lemma flashTimers_callback tiles i len f p h t0 x :
  x ∈ flashTimers tiles i len f p h t0 →
  ∃ tile j, callback x = FlashTick tile j len f.
Proof.
  revert i h. induction tiles as [|t tiles IH]; intros i h Hx; simpl in Hx.
  - by apply elem_of_nil in Hx.
  - apply elem_of_cons in Hx as [->|Hx]; [cbn; eauto|]. by eapply IH.
Qed.

Lemma flashTimers_elem_due tiles len f p h t0 x :
  0 <= f + p → x ∈ flashTimers tiles 0 len f p h t0 → t0 <= due x.
Proof.
  intros Hfp Hx.
  pose proof (flashTimers_due tiles 0 len f p h t0 Hfp) as H.
  rewrite Forall_forall in H. specialize (H x Hx). cbn in H. lia.
Qed.

Lemma playSequence_forEach_registered tiles i len f p g :
  sequenceTimeouts (playSequence_forEach tiles i len f p g) =
  sequenceTimeouts g ++
  map handle (flashTimers tiles i len f p (nextHandle g) (clock g)).
Proof.
  revert i g. induction tiles as [|t tiles IH]; intros i g; simpl.
  - by rewrite app_nil_r.
  - rewrite IH. cbn. by rewrite <- app_assoc.
Qed.

Lemma playSequence_registered s d g :
  sequenceTimeouts (playSequence s d g) =
  sequenceTimeouts g ++
  map handle
    (flashTimers s 0 (length s) (flashDelay (getDifficultySettings d))
       (pauseDelay (getDifficultySettings d)) (nextHandle g) (clock g)).
Proof. unfold playSequence. by rewrite playSequence_forEach_registered. Qed.

Lemma flashDelay_bounds d :
  200 <= flashDelay (getDifficultySettings d) ∧
  200 <= pauseDelay (getDifficultySettings d).
Proof. destruct d; cbn; lia. Qed.

Lemma no_elem_nil {A} (l : list A) : (∀ x, x ∉ l) → l = [].
Proof. destruct l as [|a l]; [done|]. intros H. destruct (H a). left. Qed.

(** The invariant survives when timers only disappear and time only
    passes. *)
Lemma sessionInv_shrink g g' :
  sessionInv g →
  pending g' ⊆ pending g → sequenceTimeouts g ⊆ sequenceTimeouts g' →
  clock g <= clock g' → state g' = state g →
  userSequence g' = userSequence g →
  (userSequence g' `prefix_of` sequence g' ∨
   (state g' = GameOver ∧ pending g' = [])) →
  sessionInv g'.
Proof.
  intros Hinv Hp Hr Hc Hs Hu Hpre. split.
  - intros t Ht. destruct (inv_registered g Hinv t (Hp _ Ht)); auto.
  - intros t0 Ht0 Hst.
    pose proof (inv_start_due g Hinv t0 (Hp _ Ht0) Hst). lia.
  - intros t0 t tile i len f Ht0 Hst Ht Hcb.
    by eapply (inv_start_flash g Hinv t0 t); eauto.
  - intros t0 t i len Ht0 Hst Ht Hcb.
    by eapply (inv_start_clear g Hinv t0 t); eauto.
  - intros t0 Ht0 Hst.
    destruct (inv_start_quiet g Hinv t0 (Hp _ Ht0) Hst) as (H1 & H2 & H3).
    split; [congruence|]. split; [congruence|].
    intros t s d Ht. by apply H3, Hp.
  - done.
Qed.

Lemma sessionInv_startGame g : sessionInv g → sessionInv (startGame g).
Proof.
  intros Hinv.
  destruct (startGame_fields g)
    as (S1 & S2 & S3 & _ & _ & _ & S7 & S8 & _ & S10 & _).
  apply sessionInv_only_start.
  - intros t. rewrite S10. intros [Ht|Ht]%elem_of_app.
    + by destruct (unregistered_start g t Hinv Ht).
    + apply list_elem_of_singleton in Ht. subst t. by eexists.
  - intros t. rewrite S10, S8. intros [Ht|Ht]%elem_of_app.
    + destruct (unregistered_start g t Hinv Ht) as [Hin Hst].
      by apply (inv_start_due g Hinv).
    + apply list_elem_of_singleton in Ht. subst t. cbn. lia.
  - by rewrite S1.
  - done.
  - left. rewrite S3. apply prefix_nil.
Qed.

Lemma sessionInv_stopGame g : sessionInv g → sessionInv (stopGame g).
Proof.
  intros Hinv.
  destruct (stopGame_fields g)
    as (S1 & S2 & S3 & _ & _ & _ & _ & S8 & S9 & _ & S11 & _).
  apply sessionInv_only_start.
  - intros t. rewrite S11. intros Ht.
    by destruct (unregistered_start g t Hinv Ht).
  - intros t. rewrite S11, S9. intros Ht.
    destruct (unregistered_start g t Hinv Ht) as [Hin Hst].
    by apply (inv_start_due g Hinv).
  - by rewrite S1.
  - rewrite S11, S3. intros Hne.
    destruct (unregistered g) as [|t l] eqn:E; [done|].
    destruct (unregistered_start g t Hinv) as [Hin Hst];
      [rewrite E; left|].
    by destruct (inv_start_quiet g Hinv t Hin Hst) as (_ & ? & _).
  - rewrite S3, S2, S1, S11.
    destruct (inv_prefix g Hinv) as [H|[_ H]]; [by left|].
    right. split; [done|]. unfold unregistered. by rewrite H.
Qed.

Lemma sessionInv_resetGame g : sessionInv g → sessionInv (resetGame g).
Proof.
  intros Hinv.
  destruct (resetGame_fields g)
    as (S1 & S2 & S3 & _ & _ & _ & S7 & S8 & _ & S10 & _).
  apply sessionInv_only_start.
  - intros t. rewrite S10. intros Ht.
    by destruct (unregistered_start g t Hinv Ht).
  - intros t. rewrite S10, S8. intros Ht.
    destruct (unregistered_start g t Hinv Ht) as [Hin Hst].
    by apply (inv_start_due g Hinv).
  - by rewrite S1.
  - done.
  - left. rewrite S3. apply prefix_nil.
Qed.

(** In WaitingForInput every pending timer is registered, so that the
    [cleanup] of a click leaves none. *)
Lemma click_cleanup_empty g dueTime cb :
  sessionInv g → state g = WaitingForInput →
  filter (λ t, handle t ∉ sequenceTimeouts g ++ [nextHandle g])
    (pending g ++
     [{| handle := nextHandle g; due := dueTime; callback := cb |}]) = [].
Proof.
  intros Hinv Hw. apply no_elem_nil. intros t Ht.
  apply list_elem_of_filter in Ht as [Hn Ht]. apply Hn.
  apply elem_of_app in Ht as [Ht|Ht].
  - destruct (inv_registered g Hinv t Ht) as [Hs|Hr].
    + by destruct (waiting_no_start g t Hinv Hw Ht).
    + apply elem_of_app. by left.
  - apply list_elem_of_singleton in Ht. subst t. cbn.
    apply elem_of_app. right. left.
Qed.

Lemma sessionInv_handleTileClick tileIndex g :
  playTileSound_throws tileIndex g = false →
  sessionInv g → sessionInv (handleTileClick tileIndex g).
Proof.
  intros Hno Hinv.
  destruct (handleTileClick_cases tileIndex g Hno)
    as [[_ ->]|[(Hw & _ & ->)|[(Hw & Hx & _ & ->)|(Hw & Hx & _ & ->)]]].
  - done.
  - destruct (failed_fields tileIndex g)
      as (S1 & _ & _ & _ & _ & _ & _ & _ & _ & _ & S11 & _).
    rewrite (click_cleanup_empty g _ _ Hinv Hw) in S11.
    rewrite filter_nil in S11.
    apply sessionInv_no_start.
    + intros t. rewrite S11. by intros ?%elem_of_nil.
    + intros t. rewrite S11. by intros ?%elem_of_nil.
    + by right.
  - destruct (clicked_fields tileIndex g)
      as (S1 & S2 & S3 & _ & _ & _ & _ & S8 & _ & _ & S11 & _).
    apply sessionInv_no_start.
    + intros t. rewrite S11. intros [Ht|Ht]%elem_of_app.
      * by apply (waiting_no_start g t Hinv Hw).
      * apply list_elem_of_singleton in Ht. subst t. by intros [d Hd].
    + intros t. rewrite S11, S8. intros [Ht|Ht]%elem_of_app.
      * destruct (inv_registered g Hinv t Ht) as [Hs|Hr].
        -- by destruct (waiting_no_start g t Hinv Hw Ht).
        -- apply elem_of_app. by left.
      * apply list_elem_of_singleton in Ht. subst t.
        apply elem_of_app. right. left.
    + left. rewrite S3, S2. apply prefix_snoc; [|done].
      by apply waiting_prefix.
  - destruct (completed_fields tileIndex g)
      as (S1 & S2 & S3 & _ & _ & _ & _ & _ & _ & S10 & S11).
    rewrite (click_cleanup_empty g _ _ Hinv Hw) in S11.
    apply sessionInv_no_start.
    + intros t. rewrite S11. intros Ht.
      apply list_elem_of_singleton in Ht. subst t. by intros [d Hd].
    + intros t. rewrite S11, S10. intros Ht.
      apply list_elem_of_singleton in Ht. subst t. left.
    + left. rewrite S3, S2. apply prefix_snoc; [|done].
      by apply waiting_prefix.
Qed.

Section TimerFires.

Variables (g : Game) (t : Timer) (rest : list Timer) (newTile : Z).
Hypothesis Hinv : sessionInv g.
Hypothesis Hvalid : tilesValid g.
Hypothesis Hpick : pickEarliest (pending g) = Some (t, rest).

Lemma fired_timer_pending : t ∈ pending g.
Proof using Hpick. by destruct (pickEarliest_elem _ _ _ Hpick). Qed.

Lemma fired_rest_pending : rest ⊆ pending g.
Proof using Hpick. by destruct (pickEarliest_elem _ _ _ Hpick). Qed.

Lemma fired_prefix : userSequence g `prefix_of` sequence g.
Proof using Hinv Hpick.
  destruct (inv_prefix g Hinv) as [H|[_ H]]; [done|].
  pose proof fired_timer_pending as Ht.
  rewrite H in Ht. by apply elem_of_nil in Ht.
Qed.

Ltac fired_facts :=
  pose proof fired_timer_pending as Ht;
  pose proof fired_rest_pending as Hrest;
  pose proof fired_prefix as Hprefix.

Lemma sessionInv_StartTick d :
  callback t = StartTick d →
  sessionInv (runCallback (StartTick d) newTile (fired t rest g)).
Proof using Hinv Hpick.
  fired_facts.
  intros Hcb. cbn [runCallback].
  set (K := setSequence [newTile] (fired t rest g)).
  destruct (playSequence_fields [newTile] d K)
    as (S1 & S2 & S3 & _ & _ & _ & S7 & _).
  pose proof (playSequence_exact [newTile] d K) as S11.
  pose proof (playSequence_registered [newTile] d K) as S8.
  set (FT := flashTimers [newTile] 0 (length [newTile])
               (flashDelay (getDifficultySettings d))
               (pauseDelay (getDifficultySettings d)) (nextHandle K)
               (clock K)) in *.
  change (pending K) with rest in S11.
  change (sequenceTimeouts K) with (sequenceTimeouts g) in S8.
  change (userSequence K) with (userSequence g) in S3.
  change (clock K) with (Z.max (clock g) (due t)) in S7.
  assert (startTick t) as Hst by (by exists d).
  destruct (inv_start_quiet g Hinv t Ht Hst) as (Q1 & Q2 & Q3).
  destruct (flashDelay_bounds d) as [Hf Hp].
  split.
  - intros x. rewrite S11, S8. intros [Hx|Hx]%elem_of_app.
    + destruct (inv_registered g Hinv x (Hrest _ Hx)); [by left|].
      right. apply elem_of_app. by left.
    + right. apply elem_of_app. right. by apply list_elem_of_fmap_2.
  - intros t0. rewrite S11, S7. intros [Hx|Hx]%elem_of_app Hs0.
    + pose proof (inv_start_due g Hinv t0 (Hrest _ Hx) Hs0). lia.
    + destruct (flashTimers_callback _ _ _ _ _ _ _ _ Hx) as (? & ? & Hc).
      destruct Hs0 as [d' Hd']. congruence.
  - intros t0 x tile i len f. rewrite S11.
    intros [Ht0|Ht0]%elem_of_app Hs0; last first.
    { destruct (flashTimers_callback _ _ _ _ _ _ _ _ Ht0) as (? & ? & Hc).
      destruct Hs0 as [d' Hd']. congruence. }
    intros [Hx|Hx]%elem_of_app Hcb'.
    + by eapply (inv_start_flash g Hinv t0 x); eauto.
    + destruct (flashTimers_callback _ _ _ _ _ _ _ _ Hx) as (? & ? & Hc).
      rewrite Hc in Hcb'. injection Hcb' as _ _ _ <-.
      assert (0 <= flashDelay (getDifficultySettings d) +
                   pauseDelay (getDifficultySettings d)) as Hfp by lia.
      pose proof (flashTimers_elem_due _ _ _ _ _ _ _ Hfp Hx) as Hd.
      change (clock K) with (Z.max (clock g) (due t)) in Hd.
      pose proof (inv_start_due g Hinv t0 (Hrest _ Ht0) Hs0). lia.
  - intros t0 x i len. rewrite S11.
    intros [Ht0|Ht0]%elem_of_app Hs0; last first.
    { destruct (flashTimers_callback _ _ _ _ _ _ _ _ Ht0) as (? & ? & Hc).
      destruct Hs0 as [d' Hd']. congruence. }
    intros [Hx|Hx]%elem_of_app Hcb'.
    + by eapply (inv_start_clear g Hinv t0 x); eauto.
    + destruct (flashTimers_callback _ _ _ _ _ _ _ _ Hx) as (? & ? & Hc).
      congruence.
  - intros t0 _ _. split; [by rewrite S1|]. split; [by rewrite S3|].
    intros x s' d'. rewrite S11. intros [Hx|Hx]%elem_of_app.
    + by apply Q3, Hrest.
    + destruct (flashTimers_callback _ _ _ _ _ _ _ _ Hx) as (? & ? & Hc).
      congruence.
  - left. rewrite S3, Q2. apply prefix_nil.
Qed.

Lemma sessionInv_NextSequenceTick s d :
  callback t = NextSequenceTick s d →
  sessionInv (runCallback (NextSequenceTick s d) newTile (fired t rest g)).
Proof using Hinv Hpick.
  fired_facts.
  intros Hcb. cbn [runCallback]. unfold addToSequence.
  set (K := setUserSequence []
              (setSequence (s ++ [newTile]) (fired t rest g))).
  destruct (playSequence_fields (s ++ [newTile]) d K)
    as (S1 & S2 & S3 & _).
  pose proof (playSequence_exact (s ++ [newTile]) d K) as S11.
  pose proof (playSequence_registered (s ++ [newTile]) d K) as S8.
  change (pending K) with rest in S11.
  change (sequenceTimeouts K) with (sequenceTimeouts g) in S8.
  change (userSequence K) with (@nil Z) in S3.
  assert (∀ x, x ∈ pending g → ¬ startTick x) as Hno.
  { intros x Hx Hs.
    destruct (inv_start_quiet g Hinv x Hx Hs) as (_ & _ & Q3).
    by apply (Q3 t s d). }
  apply sessionInv_no_start.
  - intros x. rewrite S11. intros [Hx|Hx]%elem_of_app.
    + by apply Hno, Hrest.
    + destruct (flashTimers_callback _ _ _ _ _ _ _ _ Hx) as (? & ? & Hc).
      intros [d' Hd']. congruence.
  - intros x. rewrite S11, S8. intros [Hx|Hx]%elem_of_app.
    + destruct (inv_registered g Hinv x (Hrest _ Hx)) as [Hs|Hr].
      * by destruct (Hno x (Hrest _ Hx)).
      * apply elem_of_app. by left.
    + apply elem_of_app. right. by apply list_elem_of_fmap_2.
  - left. rewrite S3. apply prefix_nil.
Qed.

Lemma sessionInv_FlashTick tile i len f :
  callback t = FlashTick tile i len f →
  sessionInv
    (runCallback (FlashTick tile i len f) newTile (fired t rest g)).
Proof using Hinv Hvalid Hpick.
  fired_facts.
  intros Hcb.
  assert (validTile tile) as Htile.
  { destruct Hvalid as [_ Hp]. rewrite Forall_forall in Hp.
    specialize (Hp _ Ht). unfold timerValid in Hp. by rewrite Hcb in Hp. }
  destruct (FlashTick_fields tile i len f newTile (fired t rest g)
              (validTile_returns _ _ Htile))
    as (S1 & S2 & S3 & _ & _ & _ & _ & S8 & S9 & _ & S11 & _).
  change (pending (fired t rest g)) with rest in S11.
  change (sequenceTimeouts (fired t rest g))
    with (sequenceTimeouts g) in S8.
  change (clock (fired t rest g)) with (Z.max (clock g) (due t)) in S9, S11.
  change (state (fired t rest g)) with (state g) in S1.
  change (sequence (fired t rest g)) with (sequence g) in S2.
  change (userSequence (fired t rest g)) with (userSequence g) in S3.
  split.
  - intros x. rewrite S11, S8. intros [Hx|Hx]%elem_of_app.
    + destruct (inv_registered g Hinv x (Hrest _ Hx)); [by left|].
      right. apply elem_of_app. by left.
    + apply list_elem_of_singleton in Hx. subst x. right.
      apply elem_of_app. right. left.
  - intros t0. rewrite S11, S9. intros [Hx|Hx]%elem_of_app Hs0.
    + pose proof (inv_start_due g Hinv t0 (Hrest _ Hx) Hs0). lia.
    + apply list_elem_of_singleton in Hx. subst t0.
      destruct Hs0 as [d' Hd']. cbn in Hd'. congruence.
  - intros t0 x tile' i' len' f'. rewrite S11.
    intros [Ht0|Ht0]%elem_of_app Hs0; last first.
    { apply list_elem_of_singleton in Ht0. subst t0.
      destruct Hs0 as [d' Hd']. cbn in Hd'. congruence. }
    intros [Hx|Hx]%elem_of_app Hcb'.
    + by eapply (inv_start_flash g Hinv t0 x); eauto.
    + apply list_elem_of_singleton in Hx. subst x. cbn in Hcb'. congruence.
  - intros t0 x i' len'. rewrite S11.
    intros [Ht0|Ht0]%elem_of_app Hs0; last first.
    { apply list_elem_of_singleton in Ht0. subst t0.
      destruct Hs0 as [d' Hd']. cbn in Hd'. congruence. }
    intros [Hx|Hx]%elem_of_app Hcb'.
    + by eapply (inv_start_clear g Hinv t0 x); eauto.
    + apply list_elem_of_singleton in Hx. subst x. cbn.
      pose proof (inv_start_flash g Hinv t0 t tile i len f
                    (Hrest _ Ht0) Hs0 Ht Hcb). lia.
  - intros t0. rewrite S11. intros [Ht0|Ht0]%elem_of_app Hs0; last first.
    { apply list_elem_of_singleton in Ht0. subst t0.
      destruct Hs0 as [d' Hd']. cbn in Hd'. congruence. }
    destruct (inv_start_quiet g Hinv t0 (Hrest _ Ht0) Hs0) as (Q1 & Q2 & Q3).
    split; [congruence|]. split; [congruence|].
    intros x s' d'. intros [Hx|Hx]%elem_of_app.
    + by apply Q3, Hrest.
    + apply list_elem_of_singleton in Hx. by subst x.
  - left. by rewrite S3, S2.
Qed.

Lemma sessionInv_ClearTick i len :
  callback t = ClearTick i len →
  sessionInv (runCallback (ClearTick i len) newTile (fired t rest g)).
Proof using Hinv Hpick.
  fired_facts.
  intros Hcb.
  destruct (ClearTick_fields i len newTile (fired t rest g))
    as (S1 & S2 & S3 & _ & _ & _ & _ & S8 & S9 & _ & S11 & _).
  change (pending (fired t rest g)) with rest in S11.
  change (sequenceTimeouts (fired t rest g))
    with (sequenceTimeouts g) in S8.
  change (sequence (fired t rest g)) with (sequence g) in S2.
  change (userSequence (fired t rest g)) with (userSequence g) in S3.
  assert (∀ x, x ∈ pending g → ¬ startTick x) as Hno.
  { intros x Hx Hs.
    pose proof (inv_start_clear g Hinv x t i len Hx Hs Ht Hcb).
    pose proof (pickEarliest_min _ _ _ Hpick x Hx). lia. }
  apply sessionInv_no_start.
  - intros x. rewrite S11. intros Hx. by apply Hno, Hrest.
  - intros x. rewrite S11, S8. intros Hx.
    destruct (inv_registered g Hinv x (Hrest _ Hx)) as [Hs|Hr]; [|done].
    by destruct (Hno x (Hrest _ Hx)).
  - left. by rewrite S3, S2.
Qed.

Lemma sessionInv_InputFlashTick :
  sessionInv (runCallback InputFlashTick newTile (fired t rest g)).
Proof using Hinv Hpick.
  fired_facts.
  apply (sessionInv_shrink g); try done.
  - cbn. lia.
  - by left.
Qed.

Lemma sessionInv_runCallback :
  sessionInv (runCallback (callback t) newTile (fired t rest g)).
Proof using Hinv Hvalid Hpick.
  fired_facts.
  destruct (callback t) as [d|tile i len f|i len| |s d] eqn:Hcb.
  - by apply sessionInv_StartTick.
  - by apply sessionInv_FlashTick.
  - by apply sessionInv_ClearTick.
  - apply sessionInv_InputFlashTick.
  - by apply sessionInv_NextSequenceTick.
Qed.

End TimerFires.

Lemma sessionInv_step e g g' :
  onGrid e → tilesValid g →
  sessionInv g → step e g = Some g' → sessionInv g'.
Proof.
  intros Hgrid Hvalid Hinv Hstep. destruct e.
  - injection Hstep as <-. by apply sessionInv_startGame.
  - injection Hstep as <-. by apply sessionInv_stopGame.
  - injection Hstep as <-. by apply sessionInv_resetGame.
  - injection Hstep as <-.
    apply (sessionInv_shrink g); try done. apply (inv_prefix g Hinv).
  - injection Hstep as <-.
    apply sessionInv_handleTileClick; [by apply onGrid_returns | done].
  - apply step_TimerFires in Hstep as (t & rest & Hpick & Hr & ->).
    by apply sessionInv_runCallback.
  - unfold step in Hstep. case_decide as Hms; [|done].
    injection Hstep as <-.
    apply (sessionInv_shrink g); try done; [cbn; lia|].
    apply (inv_prefix g Hinv).
  - unfold step in Hstep. destruct (signedIn g); [|done].
    injection Hstep as <-.
    apply (sessionInv_shrink g); try done. apply (inv_prefix g Hinv).
  - apply step_SoundSettings in Hstep as ->.
    apply (sessionInv_shrink g); try done. apply (inv_prefix g Hinv).
  - apply step_InitAudio in Hstep as ->.
    apply (sessionInv_shrink g); try done. apply (inv_prefix g Hinv).
Qed.

Lemma reachableOnGrid_sessionInv g : reachableOnGrid g → sessionInv g.
Proof.
  apply reachableOnGrid_invariant; [apply sessionInv_initial|].
  intros e g1 g2 Hg Hv H1 H2. by eapply sessionInv_step.
Qed.

(** C5, as the code has it.  In every state reached by a session played on
    the grid (every submitted tile being one of the nine tiles, as the tiles
    and the keys of the page submit them) in which the session is
    WaitingForInput, the input buffer is the sequence cut at the length of
    the buffer.  The equality fails only in GameOver: the one submission
    that breaks it is the wrong tile that ends the game. *)
Theorem input_prefix_invariant (g : Game) :
  reachableOnGrid g →
  (state g = WaitingForInput →
   userSequence g = take (length (userSequence g)) (sequence g)) ∧
  (userSequence g ≠ take (length (userSequence g)) (sequence g) →
   state g = GameOver) ∧
  (state g = WaitingForInput →
   ∀ tileIndex,
     validTile tileIndex →
     sequence g !! length (userSequence g) ≠ Some tileIndex →
     state (handleTileClick tileIndex g) = GameOver ∧
     userSequence (handleTileClick tileIndex g) =
       userSequence g ++ [tileIndex] ∧
     userSequence (handleTileClick tileIndex g) ≠
       take (length (userSequence (handleTileClick tileIndex g)))
         (sequence (handleTileClick tileIndex g))).
Proof.
  intros Hreach. pose proof (reachableOnGrid_sessionInv g Hreach) as Hinv.
  assert (∀ u s : list Z, u `prefix_of` s → u = take (length u) s) as Htake.
  { intros u s [k ->]. by rewrite take_app_length. }
  split; [|split].
  - intros Hw. by apply Htake, waiting_prefix.
  - intros Hne. destruct (inv_prefix g Hinv) as [H|[H _]]; [|done].
    by destruct (Hne (Htake _ _ H)).
  - intros Hw tileIndex Hv Hx.
    rewrite (handleTileClick_wrong _ _ Hw (validTile_returns _ _ Hv) Hx).
    destruct (failed_fields tileIndex g) as (S1 & S2 & S3 & _).
    split; [done|]. split; [done|].
    rewrite S3, S2. intros Heq.
    destruct (waiting_prefix g Hinv Hw) as [k Hk].
    rewrite Hk in Heq, Hx. rewrite length_app in Heq. simpl in Heq.
    rewrite lookup_app_r in Hx by lia. rewrite Nat.sub_diag in Hx.
    rewrite take_app_ge in Heq by lia.
    apply app_inv_head in Heq.
    replace (length (userSequence g) + 1 - length (userSequence g))%nat
      with 1%nat in Heq by lia.
    destruct k as [|y k]; [done|]. simpl in Heq, Hx.
    rewrite take_0 in Heq. congruence.
Qed.

Ltac onGrid_events :=
  repeat (apply Forall_cons; split;
          [first [exact I | unfold onGrid, validTile; lia]|]);
  constructor.

(** The events [es], all on the grid, lead from the initial state of a
    player signed in or not ([b]) to the state at hand. *)
Ltac session_on_grid b es :=
  exists b, es; split; [unfold es; onGrid_events | vm_compute; reflexivity].

Lemma input_prefix_invariant_witness :
  userSequence (game_2_7_5 true) =
  take (length (userSequence (game_2_7_5 true))) (sequence (game_2_7_5 true)).
Proof.
  destruct (input_prefix_invariant (game_2_7_5 true)) as (H & _).
  - session_on_grid true session_2_7_5.
  - apply H. reflexivity.
Defined.

(** The claim as the specification words it, for every reachable state,
    fails once an index outside 0..8 has been submitted with the sound on:
    the handler throws after it has extended the input buffer, and the
    session is WaitingForInput with the input 2, 7, 9 for the sequence
    2, 7, 5. *)
Lemma input_prefix_counterexample :
  let g := handleTileClick 9 game_2_7_5_audible in
  run (session_2_7_5 ++ [InitAudio; TileClick 9]) (initial true) = Some g ∧
  reachable g ∧ state g = WaitingForInput ∧
  sequence g = [2; 7; 5] ∧ userSequence g = [2; 7; 9] ∧
  userSequence g ≠ take (length (userSequence g)) (sequence g).
Proof.
  intros g.
  assert (run (session_2_7_5 ++ [InitAudio; TileClick 9]) (initial true) =
          Some g) as Hrun by (vm_compute; reflexivity).
  split; [exact Hrun|]. split; [by eexists _, _|].
  repeat split; try reflexivity. vm_compute. discriminate.
Qed.

(** * Further properties of the game session *)

(** ** [cleanup] *)

(** X1. [cleanup] cancels exactly the pending timers whose handle is in
    [sequenceTimeouts], in place, empties the register and leaves every
    other cell, the clock and the logs alone; a second [cleanup] changes
    nothing more. *)
Theorem cleanup_cancels_registered (g : Game) :
  pending (cleanup g) =
    filter (λ t, handle t ∉ sequenceTimeouts g) (pending g) ∧
  (∀ t, t ∈ pending (cleanup g) ↔
        t ∈ pending g ∧ handle t ∉ sequenceTimeouts g) ∧
  sequenceTimeouts (cleanup g) = [] ∧
  state (cleanup g) = state g ∧ activeTile (cleanup g) = activeTile g ∧
  clock (cleanup g) = clock g ∧ nextHandle (cleanup g) = nextHandle g ∧
  presented (cleanup g) = presented g ∧ sameSession g (cleanup g) ∧
  cleanup (cleanup g) = cleanup g.
Proof.
  split; [by rewrite cleanup_spec|].
  split.
  { intros t. rewrite cleanup_spec. cbn. rewrite list_elem_of_filter. tauto. }
  rewrite cleanup_cleanup. rewrite cleanup_spec.
  repeat split; reflexivity.
Qed.

(** ** The timer of [startGame] is out of reach of [cleanup] *)

Lemma start_then_cleared_pending g :
  pending (stopGame (startGame g)) =
    unregistered g ++
    [{| handle := nextHandle g; due := clock g + 100;
        callback := StartTick (difficulty g) |}] ∧
  pending (resetGame (startGame g)) =
    unregistered g ++
    [{| handle := nextHandle g; due := clock g + 100;
        callback := StartTick (difficulty g) |}].
Proof.
  destruct (startGame_fields g)
    as (_ & _ & _ & _ & _ & _ & S7 & _ & _ & S10 & _).
  destruct (stopGame_fields (startGame g))
    as (_ & _ & _ & _ & _ & _ & _ & _ & _ & _ & T11 & _).
  destruct (resetGame_fields (startGame g))
    as (_ & _ & _ & _ & _ & _ & _ & _ & _ & R10 & _).
  rewrite T11, R10. unfold unregistered at 1 3. rewrite S7, S10.
  split; apply filter_Forall_id, Forall_forall; intros t _;
    apply not_elem_of_nil.
Qed.

(** X2. The timer set by [startGame] is not registered in
    [sequenceTimeouts]: [stopGame] or [resetGame] called within its 100 ms
    does not cancel it.  From a state with no pending timer, start followed
    by stop leaves the session in GameOver with that timer pending, and
    when it fires the session is in ShowingSequence with a new one-tile
    sequence; the same after reset, from Idle. *)
Theorem start_timer_survives_stop (g : Game) (newTile : Z) :
  validTile newTile → pending g = [] →
  ∃ g1 g2 g1' g2',
    run [StartGame; StopGame] g = Some g1 ∧ state g1 = GameOver ∧
    step (TimerFires newTile) g1 = Some g2 ∧
    state g2 = ShowingSequence ∧ sequence g2 = [newTile] ∧
    run [StartGame; ResetGame] g = Some g1' ∧ state g1' = Idle ∧
    step (TimerFires newTile) g1' = Some g2' ∧
    state g2' = ShowingSequence ∧ sequence g2' = [newTile].
Proof.
  intros Hv Hp.
  destruct (start_then_cleared_pending g) as [P1 P2].
  unfold unregistered in P1, P2. rewrite Hp in P1, P2.
  cbn [filter list_filter app] in P1, P2.
  set (T0 := {| handle := nextHandle g; due := clock g + 100;
                callback := StartTick (difficulty g) |}) in *.
  assert (∀ k, pending k = [T0] →
               step (TimerFires newTile) k =
               Some (runCallback (StartTick (difficulty g)) newTile
                       (fired T0 [] k))) as Hfire.
  { intros k Hk. apply (step_fire newTile T0 [] k); [|done].
    rewrite Hk. apply pickEarliest_head. constructor. }
  assert (∀ k,
    state (runCallback (StartTick (difficulty g)) newTile (fired T0 [] k)) =
      ShowingSequence ∧
    sequence (runCallback (StartTick (difficulty g)) newTile (fired T0 [] k)) =
      [newTile]) as Hafter.
  { intros k. cbn [runCallback].
    destruct (playSequence_fields [newTile] (difficulty g)
                (setSequence [newTile] (fired T0 [] k))) as (H1 & H2 & _).
    by rewrite H1, H2. }
  destruct (stopGame_fields (startGame g)) as (Hs & _).
  destruct (resetGame_fields (startGame g)) as (Hr & _).
  eexists _, _, _, _.
  split; [reflexivity|]. split; [exact Hs|].
  split; [apply (Hfire _ P1)|].
  split; [apply Hafter|]. split; [apply Hafter|].
  split; [reflexivity|]. split; [exact Hr|].
  split; [apply (Hfire _ P2)|].
  split; apply Hafter.
Qed.

Lemma start_timer_survives_stop_witness :
  ∃ g2,
    run [StartGame; StopGame; TimerFires 4] (initial true) = Some g2 ∧
    state g2 = ShowingSequence ∧ sequence g2 = [4].
Proof.
  destruct (start_timer_survives_stop (initial true) 4)
    as (g1 & g2 & _ & _ & R1 & _ & R2 & H1 & H2 & _).
  - unfold validTile. lia.
  - reflexivity.
  - exists g2. split; [|by split].
    change [StartGame; StopGame; TimerFires 4]
      with ([StartGame; StopGame] ++ [TimerFires 4]).
    rewrite run_app, R1. cbn [mbind option_bind run]. by rewrite R2.
Defined.

(** ** After the game is over *)

Lemma waiting_unregistered_nil g :
  sessionInv g → state g = WaitingForInput → unregistered g = [].
Proof.
  intros Hinv Hw. apply no_elem_nil. intros t Ht.
  destruct (unregistered_start g t Hinv Ht) as [Hin Hs].
  by destruct (waiting_no_start g t Hinv Hw Hin).
Qed.

Lemma step_TimerFires_none g newTile :
  pending g = [] → step (TimerFires newTile) g = None.
Proof. intros H. unfold step. by rewrite H. Qed.

Lemma step_Elapse_fields g ms g' :
  step (Elapse ms) g = Some g' →
  state g' = state g ∧ pending g' = pending g.
Proof.
  unfold step. case_decide; [|done]. intros [= <-]. by split.
Qed.

(** X3. In a session played on the grid that is WaitingForInput, a wrong
    tile (one of the nine) and [stopGame] both leave no timer pending and
    an empty register: nothing fires afterwards, and the session stays in
    GameOver while time passes. *)
Theorem game_over_is_quiet (g : Game) (tileIndex : Z) :
  reachableOnGrid g → state g = WaitingForInput → validTile tileIndex →
  sequence g !! length (userSequence g) ≠ Some tileIndex →
  let g1 := handleTileClick tileIndex g in
  let g2 := stopGame g in
  pending g1 = [] ∧ sequenceTimeouts g1 = [] ∧
  pending g2 = [] ∧ sequenceTimeouts g2 = [] ∧
  (∀ newTile, step (TimerFires newTile) g1 = None ∧
              step (TimerFires newTile) g2 = None) ∧
  (∀ ms g', step (Elapse ms) g1 = Some g' →
            state g' = GameOver ∧ pending g' = []).
Proof.
  intros Hreach Hw Hv Hx g1 g2. subst g1 g2.
  pose proof (reachableOnGrid_sessionInv g Hreach) as Hinv.
  rewrite (handleTileClick_wrong _ _ Hw (validTile_returns _ _ Hv) Hx).
  destruct (failed_fields tileIndex g)
    as (F1 & _ & _ & _ & _ & _ & _ & F8 & _ & _ & F11 & _).
  rewrite (click_cleanup_empty g _ _ Hinv Hw), filter_nil in F11.
  destruct (stopGame_fields g)
    as (_ & _ & _ & _ & _ & _ & _ & T8 & _ & _ & T11 & _).
  rewrite (waiting_unregistered_nil g Hinv Hw) in T11.
  split; [done|]. split; [done|]. split; [done|]. split; [done|].
  split.
  - intros newTile. split; by apply step_TimerFires_none.
  - intros ms g' [H1 H2]%step_Elapse_fields. split; congruence.
Qed.

Lemma game_over_is_quiet_witness :
  pending (handleTileClick 4 (game_2_7_5 true)) = [] ∧
  pending (stopGame (game_2_7_5 true)) = [].
Proof.
  destruct (game_over_is_quiet (game_2_7_5 true) 4)
    as (H1 & _ & H2 & _).
  - session_on_grid true session_2_7_5.
  - reflexivity.
  - unfold validTile. lia.
  - vm_compute. discriminate.
  - split; [exact H1 | exact H2].
Defined.

(** ** The tiles of the sequence *)

(** X4. Every tile of the sequence is one of the nine tiles 0..8 in every
    reachable state, whatever is clicked, and in a session played on the
    grid so is every tile of the input buffer while the session is
    WaitingForInput. *)
Theorem sequence_tiles_valid (g : Game) :
  (reachable g → Forall validTile (sequence g)) ∧
  (reachableOnGrid g → state g = WaitingForInput →
   Forall validTile (userSequence g)).
Proof.
  split.
  - intros Hreach. by destruct (reachable_tilesValid g Hreach) as [Hs _].
  - intros Hreach Hw.
    destruct (reachable_tilesValid g (reachableOnGrid_reachable g Hreach))
      as [Hs _].
    destruct (waiting_prefix g (reachableOnGrid_sessionInv g Hreach) Hw)
      as [k Hk].
    rewrite Hk in Hs. by apply Forall_app in Hs as [? _].
Qed.

Lemma sequence_tiles_valid_witness :
  Forall validTile (sequence (game_2_7_5 false)) ∧
  Forall validTile (userSequence (game_2_7_5 false)).
Proof.
  destruct (sequence_tiles_valid (game_2_7_5 false)) as [H1 H2].
  split.
  - apply H1. exists false, session_2_7_5. vm_compute. reflexivity.
  - apply H2; [session_on_grid false session_2_7_5 | reflexivity].
Defined.

(** ** The pause between two rounds *)

(** X5. Input is still accepted during the second that follows a completed
    round: the state remains WaitingForInput, the input buffer is full, and
    any tile of the grid clicked before the next reveal starts is compared
    with an element the sequence does not have, which ends the game.  The
    points of the completed round are kept. *)
Theorem click_between_rounds_ends_game (g : Game) (tileIndex next : Z) :
  completesRound (TileClick tileIndex) g → validTile next →
  let g1 := handleTileClick tileIndex g in
  state g1 = WaitingForInput ∧ userSequence g1 = userSequence g ++ [tileIndex] ∧
  sequence g1 !! length (userSequence g1) = None ∧
  state (handleTileClick next g1) = GameOver ∧
  score (handleTileClick next g1) = roundScore g ∧
  sequence (handleTileClick next g1) = sequence g.
Proof.
  intros (i & [= <-] & Hw & Hno & Hx & Hl) Hnext g1. subst g1.
  rewrite (handleTileClick_done _ _ Hw Hno Hx Hl).
  destruct (completed_fields tileIndex g) as (C1 & C2 & C3 & C4 & _).
  assert (sequence (completed tileIndex g)
            !! length (userSequence (completed tileIndex g)) = None) as Hnone.
  { rewrite C2, C3, Hl. apply lookup_ge_None. lia. }
  assert (state (completed tileIndex g) = WaitingForInput) as Hw'
    by congruence.
  rewrite (handleTileClick_wrong next _ Hw' (validTile_returns _ _ Hnext))
    by (rewrite Hnone; done).
  destruct (failed_fields next (completed tileIndex g))
    as (F1 & F2 & _ & F4 & _).
  split; [done|]. split; [done|]. split; [done|].
  split; [done|]. split; congruence.
Qed.

Lemma click_between_rounds_ends_game_witness :
  state (handleTileClick 5 (handleTileClick 5 (game_2_7_5 true))) = GameOver ∧
  score (handleTileClick 5 (handleTileClick 5 (game_2_7_5 true))) = 3.
Proof.
  destruct (click_between_rounds_ends_game (game_2_7_5 true) 5 5)
    as (_ & _ & _ & H1 & H2 & _).
  - exists 5. repeat split; reflexivity.
  - unfold validTile. lia.
  - split; [exact H1 | exact H2].
Defined.

(** ** The tile that stays lit *)

Lemma failed_activeTile tileIndex g :
  activeTile (failed tileIndex g) = Some tileIndex.
Proof.
  unfold failed. rewrite handleGameOver_spec, !cleanup_spec. reflexivity.
Qed.

Lemma completed_activeTile tileIndex g :
  activeTile (completed tileIndex g) = Some tileIndex.
Proof.
  unfold completed. rewrite cleanup_spec. unfold clicked, saveHighScore.
  destruct (decide (roundScore g > highScore g));
    [destruct (signedIn g) eqn:Hsi|]; cbn; rewrite ?Hsi; done.
Qed.

(** X6. A click on a tile of the grid lights it and sets a timer to put it
    out after [flashDelay].  When the click is not the last of the round the
    timer stays pending.  When the click is wrong or completes the round,
    the [cleanup] that follows in the same handler cancels that timer: in a
    session played on the grid the clicked tile is then left lit, with no
    timer pending that would put it out. *)
Theorem last_click_stays_lit (g : Game) (tileIndex : Z) :
  reachableOnGrid g → state g = WaitingForInput → validTile tileIndex →
  let g' := handleTileClick tileIndex g in
  activeTile g' = Some tileIndex ∧
  ((sequence g !! length (userSequence g) = Some tileIndex ∧
    length (userSequence g ++ [tileIndex]) ≠ length (sequence g) ∧
    {| handle := nextHandle g;
       due := clock g + flashDelay (getDifficultySettings (difficulty g));
       callback := InputFlashTick |} ∈ pending g') ∨
   ((sequence g !! length (userSequence g) ≠ Some tileIndex ∨
     length (userSequence g ++ [tileIndex]) = length (sequence g)) ∧
    ∀ t, t ∈ pending g' → callback t ≠ InputFlashTick)).
Proof.
  intros Hreach Hw Hv g'. subst g'.
  pose proof (reachableOnGrid_sessionInv g Hreach) as Hinv.
  destruct (handleTileClick_cases tileIndex g (validTile_returns _ _ Hv))
    as [[Hn _]|[(_ & Hx & ->)|[(_ & Hx & Hl & ->)|(_ & Hx & Hl & ->)]]].
  - done.
  - split; [apply failed_activeTile|]. right. split; [by left|].
    destruct (failed_fields tileIndex g)
      as (_ & _ & _ & _ & _ & _ & _ & _ & _ & _ & F11 & _).
    rewrite (click_cleanup_empty g _ _ Hinv Hw), filter_nil in F11.
    intros t. rewrite F11. by intros ?%elem_of_nil.
  - split; [reflexivity|]. left. split; [done|]. split; [done|].
    destruct (clicked_fields tileIndex g)
      as (_ & _ & _ & _ & _ & _ & _ & _ & _ & _ & C11 & _).
    rewrite C11. apply elem_of_app. right. left.
  - split; [apply completed_activeTile|]. right. split; [by right|].
    destruct (completed_fields tileIndex g)
      as (_ & _ & _ & _ & _ & _ & _ & _ & _ & _ & C11).
    rewrite (click_cleanup_empty g _ _ Hinv Hw) in C11.
    intros t. rewrite C11. intros Ht.
    apply list_elem_of_singleton in Ht. by subst t.
Qed.

Lemma last_click_stays_lit_witness :
  activeTile (handleTileClick 4 (game_2_7_5 true)) = Some 4 ∧
  pending (handleTileClick 4 (game_2_7_5 true)) = [].
Proof.
  destruct (last_click_stays_lit (game_2_7_5 true) 4) as (H & _).
  - session_on_grid true session_2_7_5.
  - reflexivity.
  - unfold validTile. lia.
  - split; [exact H | reflexivity].
Defined.

(** ** How the sequence grows *)

(** While the timer of [addToSequence] is pending it is the only timer, the
    sequence it holds is the current one, and the round is complete. *)
Definition nextRoundInv (g : Game) : Prop :=
  ∀ t s d,
    t ∈ pending g → callback t = NextSequenceTick s d →
    pending g = [t] ∧ s = sequence g ∧ userSequence g = sequence g ∧
    state g = WaitingForInput.

Lemma nextRoundInv_no_next g :
  (∀ t s d, t ∈ pending g → callback t ≠ NextSequenceTick s d) →
  nextRoundInv g.
Proof. intros H t s d Ht Hcb. by destruct (H t s d Ht). Qed.

Lemma nextRoundInv_same g g' :
  nextRoundInv g → pending g' = pending g → sequence g' = sequence g →
  userSequence g' = userSequence g → state g' = state g →
  nextRoundInv g'.
Proof.
  intros H Hp Hs Hu Hst t s d. rewrite Hp, Hs, Hu, Hst. apply H.
Qed.

Lemma startTick_not_next t s d :
  startTick t → callback t ≠ NextSequenceTick s d.
Proof. intros [d' Hd]. congruence. Qed.

Lemma prefix_full (u s : list Z) :
  u `prefix_of` s → length u = length s → u = s.
Proof.
  intros [k ->] Hl. rewrite length_app in Hl.
  destruct k; [by rewrite app_nil_r | simpl in Hl; lia].
Qed.

Lemma nextRoundInv_handleTileClick tileIndex g :
  playTileSound_throws tileIndex g = false →
  sessionInv g → nextRoundInv g → nextRoundInv (handleTileClick tileIndex g).
Proof.
  intros Hno Hinv Hn.
  destruct (handleTileClick_cases tileIndex g Hno)
    as [[_ ->]|[(Hw & _ & ->)|[(Hw & Hx & Hl & ->)|(Hw & Hx & Hl & ->)]]].
  - done.
  - destruct (failed_fields tileIndex g)
      as (_ & _ & _ & _ & _ & _ & _ & _ & _ & _ & F11 & _).
    rewrite (click_cleanup_empty g _ _ Hinv Hw), filter_nil in F11.
    apply nextRoundInv_no_next. intros t s d. rewrite F11.
    by intros ?%elem_of_nil.
  - destruct (clicked_fields tileIndex g)
      as (_ & _ & _ & _ & _ & _ & _ & _ & _ & _ & C11 & _).
    apply nextRoundInv_no_next. intros t s d. rewrite C11.
    intros [Ht|Ht]%elem_of_app Hcb.
    + destruct (Hn t s d Ht Hcb) as (_ & _ & Hu & _).
      rewrite Hu in Hx. apply lookup_lt_Some in Hx. lia.
    + apply list_elem_of_singleton in Ht. by subst t.
  - destruct (completed_fields tileIndex g)
      as (C1 & C2 & C3 & _ & _ & _ & _ & _ & _ & _ & C11).
    rewrite (click_cleanup_empty g _ _ Hinv Hw) in C11.
    intros t s d. rewrite C11, C1, C2, C3. intros Ht Hcb.
    apply list_elem_of_singleton in Ht. subst t. cbn in Hcb.
    injection Hcb as <- _.
    split; [done|]. split; [done|]. split; [|done].
    apply prefix_full; [|done].
    apply prefix_snoc; [by apply waiting_prefix | done].
Qed.

Lemma nextRoundInv_step e g g' :
  onGrid e → tilesValid g →
  sessionInv g → nextRoundInv g → step e g = Some g' → nextRoundInv g'.
Proof.
  intros Hgrid Hvalid Hinv Hn Hstep. destruct e.
  - injection Hstep as <-. apply nextRoundInv_no_next.
    destruct (startGame_fields g)
      as (_ & _ & _ & _ & _ & _ & _ & _ & _ & S10 & _).
    intros t s d. rewrite S10. intros [Ht|Ht]%elem_of_app.
    + destruct (unregistered_start g t Hinv Ht) as [_ Hs].
      by apply startTick_not_next.
    + apply list_elem_of_singleton in Ht. by subst t.
  - injection Hstep as <-. apply nextRoundInv_no_next.
    destruct (stopGame_fields g)
      as (_ & _ & _ & _ & _ & _ & _ & _ & _ & _ & S11 & _).
    intros t s d. rewrite S11. intros Ht.
    destruct (unregistered_start g t Hinv Ht) as [_ Hs].
    by apply startTick_not_next.
  - injection Hstep as <-. apply nextRoundInv_no_next.
    destruct (resetGame_fields g)
      as (_ & _ & _ & _ & _ & _ & _ & _ & _ & S10 & _).
    intros t s d. rewrite S10. intros Ht.
    destruct (unregistered_start g t Hinv Ht) as [_ Hs].
    by apply startTick_not_next.
  - injection Hstep as <-. by apply (nextRoundInv_same g).
  - injection Hstep as <-.
    apply nextRoundInv_handleTileClick; [by apply onGrid_returns|done|done].
  - apply step_TimerFires in Hstep as (t & rest & Hpick & Hr & ->).
    destruct (pickEarliest_elem _ _ _ Hpick) as [Ht Hrest].
    (* a pending timer of [addToSequence] is alone, so it is the one fired *)
    assert (∀ x s d, x ∈ rest → callback x = NextSequenceTick s d → False)
      as Hrest_no.
    { intros x s d Hx Hcb.
      destruct (Hn x s d (Hrest _ Hx) Hcb) as (Hp & _).
      rewrite Hp in Hpick. simpl in Hpick. simplify_eq.
      by apply elem_of_nil in Hx. }
    apply nextRoundInv_no_next. intros x s d Hx Hcb.
    destruct (callback t) as [d0|tile i len f|i len| |s0 d0] eqn:Hcbt.
    + cbn [runCallback] in Hx. rewrite playSequence_exact in Hx.
      apply elem_of_app in Hx as [Hx|Hx]; [by eapply Hrest_no|].
      destruct (flashTimers_callback _ _ _ _ _ _ _ _ Hx) as (? & ? & Hc).
      congruence.
    + assert (validTile tile) as Htile.
      { destruct Hvalid as [_ Hp]. rewrite Forall_forall in Hp.
        specialize (Hp _ Ht). unfold timerValid in Hp.
        by rewrite Hcbt in Hp. }
      destruct (FlashTick_fields tile i len f newTile (fired t rest g)
                  (validTile_returns _ _ Htile))
        as (_&_&_&_&_&_&_&_&_&_& F11 &_).
      rewrite F11 in Hx.
      apply elem_of_app in Hx as [Hx|Hx]; [by eapply Hrest_no|].
      apply list_elem_of_singleton in Hx. subst x. discriminate Hcb.
    + destruct (ClearTick_fields i len newTile (fired t rest g))
        as (_&_&_&_&_&_&_&_&_&_& F11 &_).
      rewrite F11 in Hx. by eapply Hrest_no.
    + by eapply Hrest_no.
    + cbn [runCallback] in Hx.
      unfold addToSequence in Hx. rewrite playSequence_exact in Hx.
      apply elem_of_app in Hx as [Hx|Hx]; [by eapply Hrest_no|].
      destruct (flashTimers_callback _ _ _ _ _ _ _ _ Hx) as (? & ? & Hc).
      congruence.
  - unfold step in Hstep. case_decide; [|done].
    injection Hstep as <-. by apply (nextRoundInv_same g).
  - unfold step in Hstep. destruct (signedIn g); [|done].
    injection Hstep as <-. by apply (nextRoundInv_same g).
  - apply step_SoundSettings in Hstep as ->. by apply (nextRoundInv_same g).
  - apply step_InitAudio in Hstep as ->. by apply (nextRoundInv_same g).
Qed.

Lemma reachableOnGrid_nextRoundInv g :
  reachableOnGrid g → sessionInv g ∧ nextRoundInv g.
Proof.
  apply (reachableOnGrid_invariant (λ g, sessionInv g ∧ nextRoundInv g)).
  - intros b. split; [apply sessionInv_initial|].
    intros t s d Ht. by apply elem_of_nil in Ht.
  - intros e g1 g2 Hg Hv [H1 H2] Hs. split.
    + by eapply sessionInv_step.
    + by eapply nextRoundInv_step.
Qed.

(** ** The reveal pass of a session *)

(** Two completed rounds on Easy, with the tiles 3 and 1: the timer of the
    third round is pending. *)
Definition session_3_1 : list Event :=
  [StartGame; TimerFires 3; TimerFires 0; TimerFires 0; TileClick 3;
   TimerFires 1; TimerFires 0; TimerFires 0; TimerFires 0; TimerFires 0;
   TileClick 3; TileClick 1].

Definition game_3_1 : Game :=
  Eval vm_compute in default (initial true) (run session_3_1 (initial true)).

(** C8, as the code has it.  A reveal pass of a session played on the grid
    starts when the timer of [startGame] fires, no other timer pending, or
    when the timer set by a completed round fires, which is always the only
    one pending.  The first shows the one new tile; the second shows the
    current sequence with the new tile appended.  The pass lights the tiles
    of that whole sequence in order, from its first element: tile [i] goes on
    at [i * (flashDelay + pauseDelay)] after the start of the pass and off
    [flashDelay] later, so that [pauseDelay] passes before the next tile goes
    on.  The state is ShowingSequence until the last tile goes off; at that
    moment, [flashDelay] after the last tile went on and without a further
    pause, it becomes WaitingForInput. *)
Theorem reveal_pass (g g0 : Game) (tm : Timer) (d : Difficulty) (newTile : Z) :
  reachableOnGrid g → tm ∈ pending g →
  (callback tm = StartTick d ∧ pending g = [tm]) ∨
  (∃ s, callback tm = NextSequenceTick s d) →
  step (TimerFires newTile) g = Some g0 →
  let f := flashDelay (getDifficultySettings d) in
  let p := pauseDelay (getDifficultySettings d) in
  let t0 := Z.max (clock g) (due tm) in
  pending g = [tm] ∧
  (callback tm = StartTick d → sequence g0 = [newTile]) ∧
  (∀ s, callback tm = NextSequenceTick s d →
        s = sequence g ∧ sequence g0 = sequence g ++ [newTile]) ∧
  ∃ g',
    run (revealEvents (sequence g0)) g0 = Some g' ∧
    (∀ k, (k < length (revealEvents (sequence g0)))%nat →
          ∃ gk, run (take k (revealEvents (sequence g0))) g0 = Some gk ∧
                state gk = ShowingSequence) ∧
    state g' = WaitingForInput ∧
    presented g' = presented g ++ revealLog (sequence g0) 0 f p t0 ∧
    activated (presented g') = activated (presented g) ++ sequence g0 ∧
    clock g' = t0 + (Z.of_nat (length (sequence g0)) - 1) * (f + p) + f ∧
    pending g' = [] ∧ sequence g' = sequence g0.
Proof.
  intros Hreach Hin Hcb Hstep f p t0.
  destruct (reachableOnGrid_nextRoundInv g Hreach) as [_ Hn].
  destruct (reachable_tilesValid g (reachableOnGrid_reachable g Hreach))
    as [Hseq _].
  assert (pending g = [tm]) as Hpend.
  { destruct Hcb as [[_ H]|[s Hs]]; [done|].
    by destruct (Hn tm s d Hin Hs) as (H & _). }
  split; [done|].
  apply step_TimerFires in Hstep as (t & rest & Hpick & Hv & ->).
  rewrite Hpend in Hpick. injection Hpick as <- <-.
  set (g1 := fired tm [] g).
  destruct (fired_fields tm [] g)
    as (_ & F2 & _&_&_&_&_&_& F9 & _ & F11 & _&_&_& F15).
  fold g1 in F2, F9, F11, F15.
  assert (∀ s gs,
    s ≠ [] → Forall validTile s → sequence gs = s → pending gs = [] →
    presented gs = presented g → clock gs = t0 →
    let g0 := playSequence s d gs in
    ∃ g',
      run (revealEvents (sequence g0)) g0 = Some g' ∧
      (∀ k, (k < length (revealEvents (sequence g0)))%nat →
            ∃ gk, run (take k (revealEvents (sequence g0))) g0 = Some gk ∧
                  state gk = ShowingSequence) ∧
      state g' = WaitingForInput ∧
      presented g' = presented g ++ revealLog (sequence g0) 0 f p t0 ∧
      activated (presented g') = activated (presented g) ++ sequence g0 ∧
      clock g' = t0 + (Z.of_nat (length (sequence g0)) - 1) * (f + p) + f ∧
      pending g' = [] ∧ sequence g' = sequence g0) as Hpass.
  { intros s gs Hs Hvs Hss Hps Hlog Hclock gp.
    destruct (playSequence_fields s d gs) as (_ & P2 & _).
    fold gp in P2. rewrite P2, Hss.
    destruct (playSequence_reveals s d gs Hs Hvs Hps)
      as (g' & R1 & R2 & R3 & R4 & R5 & R6 & R7 & R8 & _).
    rewrite Hlog, Hclock in *.
    exists g'. repeat split; try done. by rewrite R8. }
  destruct Hcb as [[Hcb _]|[s Hcb]]; rewrite Hcb; cbn [runCallback].
  - destruct (playSequence_fields [newTile] d (setSequence [newTile] g1))
      as (_ & P2 & _).
    split; [done|]. split; [done|].
    apply (Hpass [newTile]); try done. by apply Forall_singleton.
  - destruct (Hn tm s d Hin Hcb) as (_ & -> & _).
    unfold addToSequence.
    destruct (playSequence_fields (sequence g ++ [newTile]) d
                (setUserSequence []
                   (setSequence (sequence g ++ [newTile]) g1)))
      as (_ & P2 & _).
    split; [done|]. split; [by intros s' [= <-]|].
    apply (Hpass (sequence g ++ [newTile])); try done.
    + by destruct (sequence g).
    + apply Forall_app. split; [done | by apply Forall_singleton].
Qed.

Lemma reveal_pass_witness :
  ∃ g0 g',
    step (TimerFires 4) game_3_1 = Some g0 ∧ sequence g0 = [3; 1; 4] ∧
    run (revealEvents [3; 1; 4]) g0 = Some g' ∧
    state g' = WaitingForInput ∧
    presented g' =
      presented game_3_1 ++
      [(3700, TileOn 3); (3700, TileSound 3); (4100, TileOff);
       (4500, TileOn 1); (4500, TileSound 1); (4900, TileOff);
       (5300, TileOn 4); (5300, TileSound 4); (5700, TileOff)] ∧
    activated (presented g') = activated (presented game_3_1) ++ [3; 1; 4] ∧
    clock g' = 5700.
Proof.
  destruct (step (TimerFires 4) game_3_1) as [g0|] eqn:E;
    [|vm_compute in E; discriminate E].
  destruct (reveal_pass game_3_1 g0
              {| handle := 11; due := 3700;
                 callback := NextSequenceTick [3; 1] easy |} easy 4)
    as (_ & _ & Hs & g' & R & _ & Rs & Rlog & Ract & Rc & _).
  - exists true, session_3_1.
    split; [unfold session_3_1; onGrid_events | vm_compute; reflexivity].
  - vm_compute. left.
  - right. exists [3; 1]. reflexivity.
  - exact E.
  - destruct (Hs [3; 1] eq_refl) as [_ Hseq].
    change (sequence game_3_1 ++ [4]) with [3; 1; 4] in Hseq.
    rewrite Hseq in R, Rlog, Ract, Rc.
    exists g0, g'. split; [reflexivity|]. split; [exact Hseq|].
    split; [exact R|]. split; [exact Rs|].
    split; [exact Rlog|]. split; [exact Ract | exact Rc].
Defined.

(** X7. In a session played on the grid one event changes the sequence in
    one of three ways only: [startGame] and [resetGame] empty it, the timer
    of [startGame] replaces it by a single new tile, and the timer set by a
    completed round appends exactly one new tile to the current sequence
    (never to an outdated copy) and empties the input buffer.  Every other
    event, whatever the tile of a click, leaves the sequence as it is. *)
Theorem sequence_grows_by_one (e : Event) (g g' : Game) :
  reachableOnGrid g → step e g = Some g' →
  sequence g' = sequence g ∨
  ((e = StartGame ∨ e = ResetGame) ∧ sequence g' = []) ∨
  (∃ newTile, e = TimerFires newTile ∧ validTile newTile ∧
     state g' = ShowingSequence ∧
     (sequence g' = [newTile] ∨
      (sequence g' = sequence g ++ [newTile] ∧
       userSequence g = sequence g ∧ userSequence g' = []))).
Proof.
  intros Hreach Hstep.
  destruct (reachableOnGrid_nextRoundInv g Hreach) as [Hinv Hn].
  destruct e.
  - injection Hstep as <-. right. left. split; [by left|].
    by destruct (startGame_fields g) as (_ & ? & _).
  - injection Hstep as <-. left.
    by destruct (stopGame_fields g) as (_ & ? & _).
  - injection Hstep as <-. right. left. split; [by right|].
    by destruct (resetGame_fields g) as (_ & ? & _).
  - injection Hstep as <-. by left.
  - injection Hstep as <-. left.
    destruct (playTileSound_throws tileIndex g) eqn:Hthrow.
    { destruct (handleTileClick_throw_cases tileIndex g Hthrow)
        as [[_ ->]|[_ ->]]; [done|].
      by destruct (thrown_fields tileIndex g) as (_ & ? & _). }
    destruct (handleTileClick_cases tileIndex g Hthrow)
      as [[_ ->]|[(_ & _ & ->)|[(_ & _ & _ & ->)|(_ & _ & _ & ->)]]].
    + done.
    + by destruct (failed_fields tileIndex g) as (_ & ? & _).
    + by destruct (clicked_fields tileIndex g) as (_ & ? & _).
    + by destruct (completed_fields tileIndex g) as (_ & ? & _).
  - apply step_TimerFires in Hstep as (t & rest & Hpick & Hr & ->).
    destruct (pickEarliest_elem _ _ _ Hpick) as [Ht Hrest].
    destruct (callback t) as [d0|tile i len f|i len| |s0 d0] eqn:Hcb.
    + right. right. exists newTile. cbn [runCallback].
      destruct (playSequence_fields [newTile] d0
                  (setSequence [newTile] (fired t rest g)))
        as (H1 & H2 & _).
      split; [done|]. split; [done|]. split; [done|]. left. by rewrite H2.
    + left. by destruct (FlashTick_frame tile i len f newTile
                           (fired t rest g)) as (_ & ? & _).
    + left. by destruct (ClearTick_fields i len newTile
                           (fired t rest g)) as (_ & ? & _).
    + by left.
    + right. right. exists newTile. cbn [runCallback]. unfold addToSequence.
      destruct (playSequence_fields (s0 ++ [newTile]) d0
                  (setUserSequence []
                     (setSequence (s0 ++ [newTile]) (fired t rest g))))
        as (H1 & H2 & H3 & _).
      destruct (Hn t s0 d0 Ht Hcb) as (_ & -> & Hu & _).
      split; [done|]. split; [done|]. split; [done|]. right.
      rewrite H2, H3. by repeat split.
  - unfold step in Hstep. case_decide; [|done].
    injection Hstep as <-. by left.
  - unfold step in Hstep. destruct (signedIn g); [|done].
    injection Hstep as <-. by left.
  - apply step_SoundSettings in Hstep as ->. by left.
  - apply step_InitAudio in Hstep as ->. by left.
Qed.

Lemma sequence_grows_by_one_witness :
  ∃ g',
    step (TimerFires 4) (handleTileClick 5 (game_2_7_5 true)) = Some g' ∧
    sequence g' = [2; 7; 5; 4].
Proof.
  destruct (step (TimerFires 4) (handleTileClick 5 (game_2_7_5 true)))
    as [g'|] eqn:E; [|vm_compute in E; discriminate E].
  exists g'. split; [reflexivity|].
  destruct (sequence_grows_by_one (TimerFires 4)
              (handleTileClick 5 (game_2_7_5 true)) g')
    as [H|[[[H|H] _]|(t & [= <-] & _ & _ & [H|(H & _)])]].
  - exists true, (session_2_7_5 ++ [TileClick 5]).
    split; [unfold session_2_7_5; cbn [app]; onGrid_events|].
    vm_compute. reflexivity.
  - exact E.
  - vm_compute in E. injection E as <-. vm_compute in H. discriminate H.
  - discriminate H.
  - discriminate H.
  - vm_compute in E. injection E as <-. vm_compute in H. discriminate H.
  - rewrite H. reflexivity.
Defined.

(** ** Score and high score *)

Lemma step_signedIn e g g' : step e g = Some g' → signedIn g' = signedIn g.
Proof.
  intros Hstep. destruct e.
  - injection Hstep as <-.
    by destruct (startGame_fields g) as (_&_&_&_&_&_&_&_&_&_& ? &_).
  - injection Hstep as <-.
    by destruct (stopGame_fields g) as (_&_&_&_&_&_&_&_&_&_&_& ? &_).
  - injection Hstep as <-.
    by destruct (resetGame_fields g) as (_&_&_&_&_&_&_&_&_&_& ? &_).
  - by injection Hstep as <-.
  - injection Hstep as <-.
    destruct (playTileSound_throws tileIndex g) eqn:Hthrow.
    { destruct (handleTileClick_throw_cases tileIndex g Hthrow)
        as [[_ ->]|[_ ->]]; [done|].
      by destruct (thrown_fields tileIndex g)
        as (_&_&_&_&_&_&_&_&_&_&_& ? &_). }
    destruct (handleTileClick_cases tileIndex g Hthrow)
      as [[_ ->]|[(_ & _ & ->)|[(_ & _ & _ & ->)|(_ & _ & _ & ->)]]].
    + done.
    + by destruct (failed_fields tileIndex g)
        as (_&_&_&_&_&_&_&_&_&_&_& ? &_).
    + by destruct (clicked_fields tileIndex g)
        as (_&_&_&_&_&_&_&_&_&_&_& ? &_).
    + by destruct (completed_fields tileIndex g) as (_&_&_&_&_&_& ? &_).
  - apply step_TimerFires in Hstep as (t & rest & Hpick & Hr & ->).
    destruct (callback t) as [d0|tile i len f|i len| |s0 d0];
      cbn [runCallback].
    + by destruct (playSequence_fields [newTile] d0
                     (setSequence [newTile] (fired t rest g)))
        as (_&_&_&_&_&_&_& ? &_).
    + by destruct (FlashTick_frame tile i len f newTile (fired t rest g))
        as (_&_&_&_&_&_&_&_&_&_&_& ? &_).
    + by destruct (ClearTick_fields i len newTile (fired t rest g))
        as (_&_&_&_&_&_&_&_&_&_&_& ? &_).
    + done.
    + unfold addToSequence.
      by destruct (playSequence_fields (s0 ++ [newTile]) d0
                     (setUserSequence []
                        (setSequence (s0 ++ [newTile]) (fired t rest g))))
        as (_&_&_&_&_&_&_& ? &_).
  - unfold step in Hstep. case_decide; [|done]. by injection Hstep as <-.
  - unfold step in Hstep. destruct (signedIn g) eqn:E; [|done].
    by injection Hstep as <-.
  - by apply step_SoundSettings in Hstep as ->.
  - by apply step_InitAudio in Hstep as ->.
Qed.

(** What one event does to the score: nothing, a reset to 0, or the points
    of a completed round. *)
Lemma step_score e g g' :
  step e g = Some g' →
  score g' = score g ∨
  ((e = StartGame ∨ e = ResetGame) ∧ score g' = 0) ∨
  (completesRound e g ∧ score g' = roundScore g).
Proof.
  intros Hstep. destruct e.
  - injection Hstep as <-. right. left. split; [by left|].
    by destruct (startGame_fields g) as (_&_&_& ? &_).
  - injection Hstep as <-. left.
    by destruct (stopGame_fields g) as (_&_&_& ? &_).
  - injection Hstep as <-. right. left. split; [by right|].
    by destruct (resetGame_fields g) as (_&_&_& ? &_).
  - injection Hstep as <-. by left.
  - injection Hstep as <-.
    destruct (playTileSound_throws tileIndex g) eqn:Hthrow.
    { left. destruct (handleTileClick_throw_cases tileIndex g Hthrow)
        as [[_ ->]|[_ ->]]; [done|].
      by destruct (thrown_fields tileIndex g) as (_&_&_& ? &_). }
    destruct (handleTileClick_cases tileIndex g Hthrow)
      as [[_ ->]|[(_ & _ & ->)|[(_ & _ & _ & ->)|(Hw & Hx & Hl & ->)]]].
    + by left.
    + left. by destruct (failed_fields tileIndex g) as (_&_&_& ? &_).
    + left. by destruct (clicked_fields tileIndex g) as (_&_&_& ? &_).
    + right. right. split; [by exists tileIndex|].
      by destruct (completed_fields tileIndex g) as (_&_&_& ? &_).
  - apply step_TimerFires in Hstep as (t & rest & Hpick & Hr & ->). left.
    by destruct (runCallback_highScore (callback t) newTile (fired t rest g))
      as (_ & _ & ?).
  - unfold step in Hstep. case_decide; [|done].
    injection Hstep as <-. by left.
  - unfold step in Hstep. destruct (signedIn g); [|done].
    injection Hstep as <-. by left.
  - apply step_SoundSettings in Hstep as ->. by left.
  - apply step_InitAudio in Hstep as ->. by left.
Qed.

Lemma roundPoints_bounds g :
  1 <= roundScore g - score g <= 18.
Proof.
  unfold roundScore. rewrite calculateMultiplier_settings.
  unfold spec_lengthMultiplier.
  destruct (difficulty g); cbn; repeat case_decide; lia.
Qed.

(** The score never exceeds the high score shown, and is never negative. *)
Definition scoreBelowHigh (g : Game) : Prop := 0 <= score g <= highScore g.

Lemma scoreBelowHigh_step e g g' :
  (∀ v, e ≠ HighScoreFetched v) →
  scoreBelowHigh g → step e g = Some g' → scoreBelowHigh g'.
Proof.
  intros Hne [H0 Hh] Hstep. unfold scoreBelowHigh.
  pose proof (roundPoints_bounds g) as Hb.
  destruct (step_highScore _ _ _ Hstep)
    as [(_ & Hgt & Heq & _)|(Hn & _ & [[v ->]|Hsame])].
  - destruct (step_score _ _ _ Hstep) as [Hs|[[_ Hs]|[_ Hs]]]; lia.
  - by destruct (Hne v).
  - destruct (step_score _ _ _ Hstep) as [Hs|[[_ Hs]|[Hc Hs]]]; [lia|lia|].
    assert (¬ score g' > highScore g) by tauto. lia.
Qed.

(** X8. As long as no fetched high score arrives, the high score shown is
    never below the score, and the score is never negative: a completed
    round that beats the high score raises it to the new score in the same
    handler.  For a player who is not signed in the high score is never
    fetched, so this holds in every state of the session. *)
Theorem score_never_above_highScore (es : list Event) (b : bool) (g : Game) :
  run es (initial b) = Some g →
  Forall (λ e, ∀ v, e ≠ HighScoreFetched v) es ∨ b = false →
  0 <= score g <= highScore g.
Proof.
  intros Hrun Hes.
  assert (∀ es g0 g1,
    signedIn g0 = b → scoreBelowHigh g0 → run es g0 = Some g1 →
    Forall (λ e, ∀ v, e ≠ HighScoreFetched v) es ∨ b = false →
    scoreBelowHigh g1) as Hgen.
  { clear. intros es. induction es as [|e es IH]; intros g0 g1 Hb H0 Hrun Hes.
    - simpl in Hrun. by simplify_eq.
    - simpl in Hrun. destruct (step e g0) as [g0'|] eqn:He; [|done].
      apply (IH g0' g1); [| |done|].
      + by rewrite (step_signedIn _ _ _ He).
      + apply (scoreBelowHigh_step e g0); [|done|done].
        intros v ->. destruct Hes as [Hes| ->].
        * apply Forall_cons in Hes as [Hes _]. by destruct (Hes v).
        * unfold step in He. by rewrite Hb in He.
      + destruct Hes as [Hes|Hes]; [|by right].
        left. by apply Forall_cons in Hes as [_ ?]. }
  apply (Hgen es (initial b) g); try done; unfold scoreBelowHigh; cbn; lia.
Qed.

Lemma score_never_above_highScore_witness :
  0 <= score (game_2_7_5 false) <= highScore (game_2_7_5 false).
Proof.
  apply (score_never_above_highScore session_2_7_5 false).
  - vm_compute. reflexivity.
  - by right.
Defined.

(** X9. Only three things change the score: [startGame] and [resetGame] set
    it to 0, and a click that completes the round adds the base multiplier
    times the length bonus, which is between 1 and 18 points.  A wrong
    tile, [stopGame], [setDifficulty], timers and the passing of time leave
    it unchanged. *)
Theorem score_changes (e : Event) (g g' : Game) :
  step e g = Some g' →
  (score g' = score g ∧ ¬ completesRound e g) ∨
  ((e = StartGame ∨ e = ResetGame) ∧ score g' = 0) ∨
  (completesRound e g ∧
   score g' =
     score g +
     baseMultiplier (getDifficultySettings (difficulty g)) *
     spec_lengthMultiplier (Z.of_nat (length (sequence g))) ∧
   1 <= score g' - score g <= 18).
Proof.
  intros Hstep. pose proof (roundPoints_bounds g) as Hb.
  destruct (step_score _ _ _ Hstep) as [Hs|[Hs|[Hc Hs]]].
  - left. split; [done|]. intros Hc.
    destruct Hc as (i & -> & Hw & Hno & Hx & Hl). injection Hstep as <-.
    rewrite (handleTileClick_done _ _ Hw Hno Hx Hl) in Hs.
    destruct (completed_fields i g) as (_&_&_& Hsc &_). lia.
  - right. by left.
  - right. right. split; [done|]. split; [|lia].
    rewrite Hs. unfold roundScore. by rewrite calculateMultiplier_settings.
Qed.

Lemma score_changes_witness :
  score (handleTileClick 5 (game_2_7_5 true)) = 2 + 1 * 1.
Proof.
  destruct (score_changes (TileClick 5) (game_2_7_5 true)
              (handleTileClick 5 (game_2_7_5 true)) eq_refl)
    as [[_ Hn]|[[[H|H] _]|(_ & H & _)]].
  - exfalso. apply Hn. exists 5. repeat split; reflexivity.
  - discriminate H.
  - discriminate H.
  - exact H.
Defined.

(** ** What is written to the database *)

Lemma runCallback_games cb newTile g :
  games (runCallback cb newTile g) = games g.
Proof.
  destruct cb as [d0|tile i len f|i len| |s0 d0].
  - cbn [runCallback].
    by destruct (playSequence_fields [newTile] d0 (setSequence [newTile] g))
      as (_&_&_&_&_&_&_&_& ? &_).
  - by destruct (FlashTick_frame tile i len f newTile g)
      as (_&_&_&_&_&_&_&_&_&_&_&_& ? &_).
  - by destruct (ClearTick_fields i len newTile g)
      as (_&_&_&_&_&_&_&_&_&_&_&_& ? &_).
  - done.
  - cbn [runCallback]. unfold addToSequence.
    by destruct (playSequence_fields (s0 ++ [newTile]) d0
                   (setUserSequence [] (setSequence (s0 ++ [newTile]) g)))
      as (_&_&_&_&_&_&_&_& ? &_).
Qed.

(** One event writes at most one row to [games], and only for a signed-in
    player. *)
Lemma step_games e g g' :
  step e g = Some g' →
  games g' = games g ∨
  (signedIn g = true ∧ games g' = games g ++ [gameOverRow g]).
Proof.
  intros Hstep.
  assert (∀ k, games k = games g ++
                 (if signedIn g then [gameOverRow g] else []) →
          games k = games g ∨
          (signedIn g = true ∧ games k = games g ++ [gameOverRow g])) as Hrow.
  { intros k Hk. destruct (signedIn g); [by right|].
    left. by rewrite Hk, app_nil_r. }
  destruct e.
  - injection Hstep as <-. left.
    by destruct (startGame_fields g) as (_&_&_&_&_&_&_&_&_&_&_& ? &_).
  - injection Hstep as <-. apply Hrow.
    by destruct (stopGame_fields g) as (_&_&_&_&_&_&_&_&_&_&_&_& ? &_).
  - injection Hstep as <-. left.
    by destruct (resetGame_fields g) as (_&_&_&_&_&_&_&_&_&_&_& ? &_).
  - injection Hstep as <-. by left.
  - injection Hstep as <-.
    destruct (playTileSound_throws tileIndex g) eqn:Hthrow.
    { left. destruct (handleTileClick_throw_cases tileIndex g Hthrow)
        as [[_ ->]|[_ ->]]; [done|].
      by destruct (thrown_fields tileIndex g)
        as (_&_&_&_&_&_&_&_&_&_&_&_& ? &_). }
    destruct (handleTileClick_cases tileIndex g Hthrow)
      as [[_ ->]|[(_ & _ & ->)|[(_ & _ & _ & ->)|(_ & _ & _ & ->)]]].
    + by left.
    + apply Hrow.
      by destruct (failed_fields tileIndex g)
        as (_&_&_&_&_&_&_&_&_&_&_&_& ? &_).
    + left. by destruct (clicked_fields tileIndex g)
        as (_&_&_&_&_&_&_&_&_&_&_&_& ? &_).
    + left. by destruct (completed_fields tileIndex g)
        as (_&_&_&_&_&_&_& ? &_).
  - apply step_TimerFires in Hstep as (t & rest & Hpick & Hr & ->).
    left. by rewrite runCallback_games.
  - unfold step in Hstep. case_decide; [|done].
    injection Hstep as <-. by left.
  - unfold step in Hstep. destruct (signedIn g); [|done].
    injection Hstep as <-. by left.
  - apply step_SoundSettings in Hstep as ->. by left.
  - apply step_InitAudio in Hstep as ->. by left.
Qed.

(** X10. A session of a player who is not signed in never writes: in every
    state reachable without a signed-in user, the [games] and [high_scores]
    logs are empty, whatever is played, stopped or lost. *)
Theorem anonymous_never_writes (es : list Event) (g : Game) :
  run es (initial false) = Some g →
  signedIn g = false ∧ games g = [] ∧ high_scores g = [].
Proof.
  apply (run_invariant
    (λ g, signedIn g = false ∧ games g = [] ∧ high_scores g = [])).
  - intros e g0 g1 (Hsi & Hg & Hh) Hstep.
    split; [by rewrite (step_signedIn _ _ _ Hstep)|]. split.
    + destruct (step_games _ _ _ Hstep) as [H|[H _]]; congruence.
    + destruct (step_highScore _ _ _ Hstep)
        as [(_ & _ & _ & Hw)|(_ & Hw & _)]; rewrite Hw, ?Hsi, Hh; done.
  - done.
Qed.

Lemma anonymous_never_writes_witness :
  games (handleTileClick 4 (game_2_7_5 false)) = [] ∧
  high_scores (handleTileClick 4 (game_2_7_5 false)) = [].
Proof.
  destruct (anonymous_never_writes (session_2_7_5 ++ [TileClick 4])
              (handleTileClick 4 (game_2_7_5 false))) as (_ & H1 & H2).
  - vm_compute. reflexivity.
  - split; [exact H1 | exact H2].
Defined.

(** [lo < x1 < x2 < ...] *)
Fixpoint ascendingFrom (lo : Z) (l : list Z) : Prop :=
  match l with
  | [] => True
  | x :: l' => lo < x ∧ ascendingFrom x l'
  end.

Lemma ascendingFrom_lower lo lo' l :
  lo' <= lo → ascendingFrom lo l → ascendingFrom lo' l.
Proof. destruct l; [done|]. simpl. intros ? [? ?]. split; [lia|done]. Qed.

Lemma run_highScore_writes es :
  ∀ g g',
    run es g = Some g' →
    Forall (λ e, ∀ v, e ≠ HighScoreFetched v) es →
    ∃ new,
      high_scores g' = high_scores g ++ new ∧
      ascendingFrom (highScore g) (map hs_score new) ∧
      highScore g <= highScore g' ∧
      Forall (λ r, hs_score r <= highScore g') new.
Proof.
  induction es as [|e es IH]; intros g g' Hrun Hnf.
  - simpl in Hrun. simplify_eq. exists []. rewrite app_nil_r.
    repeat split; [lia | constructor].
  - simpl in Hrun. destruct (step e g) as [g1|] eqn:He; [|done].
    apply Forall_cons in Hnf as [Hne Hnf].
    destruct (IH g1 g' Hrun Hnf) as (new & Hw & Hasc & Hle & Hall).
    destruct (step_highScore _ _ _ He)
      as [(_ & Hgt & Heq & Hw1)|(_ & Hw1 & [[v ->]|Hsame])].
    + destruct (signedIn g).
      * exists ({| hs_score := score g1; hs_difficulty := difficulty g |}
                :: new).
        rewrite Hw, Hw1, <- app_assoc. split; [done|].
        split; [simpl; split; [lia | by rewrite <- Heq]|].
        split; [lia|]. constructor; [cbn; lia | done].
      * exists new. rewrite Hw, Hw1, app_nil_r. split; [done|].
        split; [apply (ascendingFrom_lower (highScore g1)); [lia|done]|].
        split; [lia | done].
    + by destruct (Hne v).
    + exists new. rewrite Hw, Hw1. split; [done|].
      split; [by rewrite <- Hsame|]. split; [lia | done].
Qed.

(** X11. In a run without a newly fetched high score, the scores written to
    [high_scores] are strictly increasing, each above the high score known
    before it, and none exceeds the high score shown at the end: a later
    write never lowers the stored high score. *)
Theorem highScore_writes_increase (es : list Event) (g g' : Game) :
  run es g = Some g' →
  Forall (λ e, ∀ v, e ≠ HighScoreFetched v) es →
  ∃ new,
    high_scores g' = high_scores g ++ new ∧
    ascendingFrom (highScore g) (map hs_score new) ∧
    Forall (λ r, hs_score r <= highScore g') new.
Proof.
  intros Hrun Hnf.
  destruct (run_highScore_writes es g g' Hrun Hnf) as (new & ? & ? & _ & ?).
  by exists new.
Qed.

Lemma highScore_writes_increase_witness :
  ∃ new,
    high_scores (game_2_7_5 true) = [] ++ new ∧
    ascendingFrom 0 (map hs_score new).
Proof.
  destruct (highScore_writes_increase session_2_7_5 (initial true)
              (game_2_7_5 true)) as (new & H1 & H2 & _).
  - vm_compute. reflexivity.
  - repeat constructor; intros v; discriminate.
  - exists new. split; [exact H1 | exact H2].
Defined.

(** * The page around the session: grid, keyboard and buttons *)

From stdpp Require Import strings.

Local Open Scope Z_scope.

(** ** Definitions *)

(** The control settings of [ControlsContext]. *)
Record ControlSettings := {
  keyboardEnabled : bool;
  touchVibration : bool;
  autoZoom : bool
}.

Section Page.

(** [parseInt] is JavaScript's; [None] stands for a result that is not a
    finite number ([NaN]), for which every comparison below is false. *)
Variable parseInt : string → option Z.

Variable settings : ControlSettings.

(** [handleKeyPress] of [ControlsContext]: the tile of a key, or null. *)
Definition handleKeyPress (key : string) : option Z :=
  if negb (keyboardEnabled settings) then None
  else
    match parseInt key with
    | Some numKey =>
        if decide (numKey >= 1 ∧ numKey <= 9) then Some (numKey - 1)
        else None
    | None => None
    end.

(** The tiles [GameGrid] renders:
    [Array.from({ length: gridSize * gridSize }, (_, i) => i)]. *)
Definition GameGrid_tiles : list Z := map Z.of_nat (seq 0 (3 * 3)).

(** The [keydown] listener of [GameGrid]. *)
Definition GameGrid_handleKeyDown (key : string) (g : Game) : Game :=
  match handleKeyPress key with
  | Some tileIndex => handleTileClick tileIndex g
  | None => g
  end.

(** [handleClick] of a [Tile]: the controls' [handleTileClick] (which only
    makes the device vibrate, not modelled), then [playTileSound], then the
    [onClick] given by the grid, which is the game's [handleTileClick].
    [index] is the index of a rendered tile, one of [GameGrid_tiles], for
    which no call of [playTileSound] throws. *)
Definition Tile_handleClick (index : Z) (g : Game) : Game :=
  handleTileClick index (playTileSound index g).

(** The button of [GameControls]:
    [onClick={state === GameState.Idle ? startGame : stopGame}],
    [disabled={state === GameState.ShowingSequence}]. *)
Definition GameControls_click (g : Game) : Game :=
  if decide (state g = ShowingSequence) then g
  else if decide (state g = Idle) then startGame g
  else stopGame g.

(** What the player can do on the page, and what happens by itself.  The
    game-over dialog, with its buttons Play Again ([startGame]) and OK
    ([resetGame]), is rendered only in GameOver. *)
Inductive PageEvent :=
| ClickDifficulty (level : Difficulty)
| ClickTile (index : Z)
| KeyDown (key : string)
| ClickMainButton
| ClickPlayAgain
| ClickOK
| PageTimer (newTile : Z)
| PageElapse (ms : Z)
| PageHighScoreFetched (value : Z)
| PageSoundSettings (sfxEnabled : bool)
| PageInitAudio.

Definition pageStep (e : PageEvent) (g : Game) : option Game :=
  match e with
  | ClickDifficulty level => Some (DifficultySelector_click level g)
  | ClickTile index =>
      if decide (index ∈ GameGrid_tiles) then Some (Tile_handleClick index g)
      else None
  | KeyDown key => Some (GameGrid_handleKeyDown key g)
  | ClickMainButton => Some (GameControls_click g)
  | ClickPlayAgain =>
      if decide (state g = GameOver) then Some (startGame g) else None
  | ClickOK =>
      if decide (state g = GameOver) then Some (resetGame g) else None
  | PageTimer newTile => step (TimerFires newTile) g
  | PageElapse ms => step (Elapse ms) g
  | PageHighScoreFetched value => step (HighScoreFetched value) g
  | PageSoundSettings sfxEnabled => step (SoundSettings sfxEnabled) g
  | PageInitAudio => step InitAudio g
  end.

Fixpoint pageRun (es : list PageEvent) (g : Game) : option Game :=
  match es with
  | [] => Some g
  | e :: es' =>
      match pageStep e g with
      | Some g' => pageRun es' g'
      | None => None
      end
  end.

Definition pageReachable (g : Game) : Prop :=
  ∃ signedIn es, pageRun es (initial signedIn) = Some g.

(** ** Keys and tiles *)

Lemma GameGrid_tiles_valid index : index ∈ GameGrid_tiles ↔ validTile index.
Proof.
  unfold GameGrid_tiles, validTile. cbn.
  rewrite !elem_of_cons, elem_of_nil. lia.
Qed.

Lemma handleKeyPress_Some key tileIndex :
  handleKeyPress key = Some tileIndex ↔
  keyboardEnabled settings = true ∧ parseInt key = Some (tileIndex + 1) ∧
  validTile tileIndex.
Proof.
  unfold handleKeyPress, validTile.
  destruct (keyboardEnabled settings); cbn; [|split; [done | by intros [? _]]].
  destruct (parseInt key) as [n|]; [|split; [done | by intros (_ & ? & _)]].
  case_decide as Hn; split.
  - intros [= <-]. split; [done|]. split; [f_equal; lia | lia].
  - intros (_ & [= ->] & ?). f_equal. lia.
  - done.
  - intros (_ & [= ->] & ?). lia.
Qed.

(** X12. The keyboard can only submit one of the nine tiles: the result of
    [handleKeyPress] is null when the keyboard is disabled or when
    [parseInt] of the key is not a number from 1 to 9, and otherwise that
    number minus one, which lies in 0..8.  So a key press either leaves the
    session as it is or is a click on a tile of the grid. *)
Theorem keyboard_submits_grid_tiles (key : string) (g : Game) :
  (∀ tileIndex,
     handleKeyPress key = Some tileIndex ↔
     keyboardEnabled settings = true ∧ parseInt key = Some (tileIndex + 1) ∧
     0 <= tileIndex < 9) ∧
  (handleKeyPress key = None ∧ GameGrid_handleKeyDown key g = g ∨
   ∃ tileIndex,
     tileIndex ∈ GameGrid_tiles ∧ handleKeyPress key = Some tileIndex ∧
     GameGrid_handleKeyDown key g = handleTileClick tileIndex g).
Proof.
  split; [intros; apply handleKeyPress_Some|].
  unfold GameGrid_handleKeyDown.
  destruct (handleKeyPress key) as [i|] eqn:E; [right | by left].
  exists i. split; [|done].
  apply GameGrid_tiles_valid. by apply handleKeyPress_Some in E as (_&_&?).
Qed.

(** ** A click on a tile of the grid *)

(** The screen log after a click in WaitingForInput. *)
Lemma clicked_presented tileIndex g :
  presented (clicked tileIndex g) =
  presented g ++ [(clock g, TileOn tileIndex); (clock g, TileSound tileIndex)].
Proof. unfold clicked. cbn. by rewrite <- app_assoc. Qed.

Lemma failed_presented tileIndex g :
  presented (failed tileIndex g) = presented (clicked tileIndex g).
Proof.
  unfold failed. rewrite handleGameOver_spec, !cleanup_spec. reflexivity.
Qed.

Lemma completed_presented tileIndex g :
  presented (completed tileIndex g) = presented (clicked tileIndex g).
Proof.
  unfold completed. rewrite cleanup_spec. unfold saveHighScore.
  destruct (decide (roundScore g > highScore g));
    [destruct (signedIn _) eqn:Hsi|]; reflexivity.
Qed.

Lemma handleTileClick_presented tileIndex g :
  presented (handleTileClick tileIndex g) =
  presented g ++
  (if decide (state g = WaitingForInput) then
     [(clock g, TileOn tileIndex); (clock g, TileSound tileIndex)]
   else []).
Proof.
  destruct (playTileSound_throws tileIndex g) eqn:Hthrow.
  { destruct (handleTileClick_throw_cases tileIndex g Hthrow)
      as [[Hn ->]|[Hw ->]].
    - rewrite decide_False by done. by rewrite app_nil_r.
    - rewrite decide_True by done.
      by destruct (thrown_fields tileIndex g)
        as (_&_&_&_&_&_&_&_&_&_&_&_&_&_& ? &_). }
  destruct (handleTileClick_cases tileIndex g Hthrow)
    as [[Hn ->]|[(Hw & _ & ->)|[(Hw & _ & _ & ->)|(Hw & _ & _ & ->)]]].
  - rewrite decide_False by done. by rewrite app_nil_r.
  - rewrite decide_True by done.
    by rewrite failed_presented, clicked_presented.
  - rewrite decide_True by done. by rewrite clicked_presented.
  - rewrite decide_True by done.
    by rewrite completed_presented, clicked_presented.
Qed.





(** ** The main button *)

(** X14. The button under the grid starts a game only in Idle.  It is
    disabled in ShowingSequence; in WaitingForInput (label Stop Game) and
    in GameOver (label Play Again) it calls [stopGame]: the session is then
    in GameOver with the same score and sequence, no timer is started, and
    for a signed-in player a row of the game is written, once more when the
    game was over already. *)
Theorem main_button_never_restarts (g : Game) :
  (state g = ShowingSequence → GameControls_click g = g) ∧
  (state g = Idle → GameControls_click g = startGame g) ∧
  (state g = WaitingForInput ∨ state g = GameOver →
   GameControls_click g = stopGame g ∧
   state (GameControls_click g) = GameOver ∧
   score (GameControls_click g) = score g ∧
   sequence (GameControls_click g) = sequence g ∧
   pending (GameControls_click g) ⊆ pending g ∧
   games (GameControls_click g) =
     games g ++ (if signedIn g then [gameOverRow g] else [])).
Proof.
  unfold GameControls_click. split; [|split].
  - intros H. by rewrite decide_True.
  - intros H. rewrite decide_False by congruence. by rewrite decide_True.
  - intros H.
    rewrite decide_False by (destruct H; congruence).
    rewrite decide_False by (destruct H; congruence).
    destruct (stopGame_fields g)
      as (S1 & S2 & _ & S4 & _ & _ & _ & _ & _ & _ & S11 & _ & S13 & _).
    split; [done|]. split; [done|]. split; [done|]. split; [done|].
    split; [|done]. rewrite S11. apply list_subseteq_filter.
Qed.

(** ** The game-over screen *)

Lemma sessionInv_playTileSound index g :
  sessionInv g → sessionInv (playTileSound index g).
Proof.
  intros Hinv. apply (sessionInv_shrink g); try done. apply (inv_prefix g Hinv).
Qed.

(** On the page, GameOver is entered from WaitingForInput only, where no
    timer of [startGame] is pending: nothing is left pending. *)
Definition pageInv (g : Game) : Prop :=
  sessionInv g ∧ tilesValid g ∧ (state g = GameOver → pending g = []).

Lemma tilesValid_playTileSound index g :
  tilesValid g → tilesValid (playTileSound index g).
Proof. done. Qed.

Lemma pageInv_handleTileClick index g :
  validTile index → pageInv g → pageInv (handleTileClick index g).
Proof.
  intros Hv (Hinv & Hvalid & Hover).
  pose proof (validTile_returns index g Hv) as Hno.
  split; [by apply sessionInv_handleTileClick|].
  split; [by apply tilesValid_handleTileClick|].
  destruct (handleTileClick_cases index g Hno)
    as [[_ ->]|[(Hw & _ & ->)|[(Hw & _ & _ & ->)|(Hw & _ & _ & ->)]]].
  - done.
  - intros _.
    destruct (failed_fields index g) as (_&_&_&_&_&_&_&_&_&_& F11 &_).
    by rewrite F11, (click_cleanup_empty g _ _ Hinv Hw), filter_nil.
  - destruct (clicked_fields index g) as (C1 & _). congruence.
  - destruct (completed_fields index g) as (C1 & _). congruence.
Qed.

Lemma pageInv_stopGame g :
  pageInv g → state g = WaitingForInput ∨ state g = GameOver →
  pageInv (stopGame g).
Proof.
  intros (Hinv & Hvalid & Hover) Hs. split; [by apply sessionInv_stopGame|].
  split; [by apply tilesValid_stopGame|].
  intros _.
  destruct (stopGame_fields g) as (_&_&_&_&_&_&_&_&_&_& S11 &_).
  rewrite S11. destruct Hs as [Hw|Hg].
  - by apply waiting_unregistered_nil.
  - unfold unregistered. by rewrite (Hover Hg).
Qed.

Lemma pageInv_step e g g' : pageInv g → pageStep e g = Some g' → pageInv g'.
Proof.
  intros (Hinv & Hvalid & Hover) Hstep. destruct e; cbn [pageStep] in Hstep.
  - injection Hstep as <-. unfold DifficultySelector_click.
    case_decide; [done|].
    split; [|done].
    apply (sessionInv_shrink g); try done. apply (inv_prefix g Hinv).
  - case_decide as Hin; [|done]. injection Hstep as <-.
    apply GameGrid_tiles_valid in Hin.
    apply pageInv_handleTileClick; [done|]. split; [|done].
    by apply sessionInv_playTileSound.
  - injection Hstep as <-. unfold GameGrid_handleKeyDown.
    destruct (handleKeyPress key) as [i|] eqn:E; [|done].
    apply pageInv_handleTileClick; [|done].
    by apply handleKeyPress_Some in E as (_ & _ & ?).
  - injection Hstep as <-. unfold GameControls_click.
    case_decide as H1; [done|]. case_decide as H2.
    + split; [by apply sessionInv_startGame|].
      split; [by apply tilesValid_startGame|].
      destruct (startGame_fields g) as (S1 & _). congruence.
    + apply pageInv_stopGame; [done|]. destruct (state g); tauto.
  - case_decide; [|done]. injection Hstep as <-.
    split; [by apply sessionInv_startGame|].
    split; [by apply tilesValid_startGame|].
    destruct (startGame_fields g) as (S1 & _). congruence.
  - case_decide; [|done]. injection Hstep as <-.
    split; [by apply sessionInv_resetGame|].
    split; [by apply tilesValid_resetGame|].
    destruct (resetGame_fields g) as (S1 & _). congruence.
  - split; [by eapply (sessionInv_step (TimerFires newTile))|].
    split; [by eapply tilesValid_step|].
    intros Hg. apply step_TimerFires in Hstep as (t & rest & Hpick & _ & ->).
    destruct (fired_fields t rest g) as (Hf & _).
    destruct (runCallback_state (callback t) newTile (fired t rest g))
      as [H|[H|H]]; try congruence.
    rewrite Hover in Hpick by congruence. done.
  - split; [by eapply (sessionInv_step (Elapse ms))|].
    split; [by eapply tilesValid_step|].
    apply step_Elapse_fields in Hstep as [-> ->]. done.
  - split; [by eapply (sessionInv_step (HighScoreFetched value))|].
    split; [by eapply tilesValid_step|].
    unfold step in Hstep. destruct (signedIn g); [|done].
    by injection Hstep as <-.
  - split; [by eapply (sessionInv_step (SoundSettings _))|].
    split; [by eapply tilesValid_step|].
    by apply step_SoundSettings in Hstep as ->.
  - split; [by eapply (sessionInv_step InitAudio)|].
    split; [by eapply tilesValid_step|].
    by apply step_InitAudio in Hstep as ->.
Qed.

Lemma pageRun_invariant (P : Game → Prop) :
  (∀ e g g', P g → pageStep e g = Some g' → P g') →
  ∀ es g g', P g → pageRun es g = Some g' → P g'.
Proof.
  intros Hstep es. induction es as [|e es IH]; intros g g' HP Hrun.
  - simpl in Hrun. by simplify_eq.
  - simpl in Hrun. destruct (pageStep e g) as [g1|] eqn:He; [|done].
    eapply IH; [|done]. by eapply Hstep.
Qed.

Lemma pageReachable_pageInv g : pageReachable g → pageInv g.
Proof.
  intros (b & es & Hrun).
  apply (pageRun_invariant pageInv pageInv_step es (initial b)); [|done].
  split; [apply sessionInv_initial|]. split; [apply tilesValid_initial | done].
Qed.

(** X15. On the page the game-over screen is stable: whatever the player
    did with the grid, the keyboard and the buttons, once the session is in
    GameOver no timer is pending, so nothing happens by itself until a
    button is pressed.  (Calling [stopGame] right after [startGame], which
    the page never does, would leave the start timer running.) *)
Theorem game_over_screen_is_stable (g : Game) :
  pageReachable g → state g = GameOver →
  pending g = [] ∧
  (∀ newTile, pageStep (PageTimer newTile) g = None) ∧
  (∀ ms g', pageStep (PageElapse ms) g = Some g' →
            state g' = GameOver ∧ pending g' = []).
Proof.
  intros Hreach Hg.
  destruct (pageReachable_pageInv g Hreach) as (_ & _ & Hover).
  specialize (Hover Hg). split; [done|]. split.
  - intros newTile. by apply step_TimerFires_none.
  - intros ms g' [H1 H2]%step_Elapse_fields. split; congruence.
Qed.

(** ** What the page lights and sounds *)

(** An entry of the screen log that names one of the nine tiles. *)
Definition entryValid (x : Z * Presentation) : Prop :=
  match snd x with
  | TileOn t => validTile t
  | TileSound t => validTile t
  | TileOff => True
  end.

Definition shownInv (g : Game) : Prop :=
  Forall entryValid (presented g) ∧ Forall validTile (sequence g) ∧
  Forall timerValid (pending g).

Lemma startGame_presented g :
  presented (startGame g) = presented g ++ [(clock g, TileOff)].
Proof. unfold startGame. rewrite cleanup_spec. reflexivity. Qed.

Lemma resetGame_presented g :
  presented (resetGame g) = presented g ++ [(clock g, TileOff)].
Proof. unfold resetGame. rewrite cleanup_spec. reflexivity. Qed.

Lemma shownInv_startGame g : shownInv g → shownInv (startGame g).
Proof.
  intros (H1 & H2 & H3).
  destruct (startGame_fields g) as (_ & S2 & _&_&_&_&_&_&_& S10 &_).
  split; [|split].
  - rewrite startGame_presented. apply Forall_app. split; [done|].
    by repeat constructor.
  - rewrite S2. constructor.
  - rewrite S10. apply Forall_app. split.
    + eapply Forall_subseteq; [apply unregistered_subseteq | done].
    + by repeat constructor.
Qed.

Lemma shownInv_stopGame g : shownInv g → shownInv (stopGame g).
Proof.
  intros (H1 & H2 & H3).
  destruct (stopGame_fields g)
    as (_ & S2 & _&_&_&_&_&_&_&_& S11 &_&_&_& S15).
  split; [|split].
  - by rewrite S15.
  - by rewrite S2.
  - rewrite S11. eapply Forall_subseteq; [apply unregistered_subseteq | done].
Qed.

Lemma shownInv_resetGame g : shownInv g → shownInv (resetGame g).
Proof.
  intros (H1 & H2 & H3).
  destruct (resetGame_fields g) as (_ & S2 & _&_&_&_&_&_&_& S10 &_).
  split; [|split].
  - rewrite resetGame_presented. apply Forall_app. split; [done|].
    by repeat constructor.
  - rewrite S2. constructor.
  - rewrite S10. eapply Forall_subseteq; [apply unregistered_subseteq | done].
Qed.

Lemma shownInv_playTileSound index g :
  validTile index → shownInv g → shownInv (playTileSound index g).
Proof.
  intros Hv (H1 & H2 & H3). split; [|by split].
  cbn [presented playTileSound]. apply Forall_app. split; [done|].
  constructor; [exact Hv | constructor].
Qed.

Lemma shownInv_handleTileClick index g :
  validTile index → shownInv g → shownInv (handleTileClick index g).
Proof.
  intros Hv (H1 & H2 & H3).
  pose proof (validTile_returns index g Hv) as Hno. split; [|split].
  - rewrite handleTileClick_presented. apply Forall_app. split; [done|].
    case_decide; [|constructor].
    constructor; [exact Hv|]. constructor; [exact Hv | constructor].
  - destruct (handleTileClick_cases index g Hno)
      as [[_ ->]|[(_ & _ & ->)|[(_ & _ & _ & ->)|(_ & _ & _ & ->)]]].
    + done.
    + by destruct (failed_fields index g) as (_ & -> & _).
    + by destruct (clicked_fields index g) as (_ & -> & _).
    + by destruct (completed_fields index g) as (_ & -> & _).
  - destruct (handleTileClick_cases index g Hno)
      as [[_ ->]|[(_ & _ & ->)|[(_ & _ & _ & ->)|(_ & _ & _ & ->)]]].
    + done.
    + destruct (failed_fields index g) as (_&_&_&_&_&_&_&_&_&_& -> &_).
      do 2 through_filter. apply Forall_app. split; [done|].
      by repeat constructor.
    + destruct (clicked_fields index g) as (_&_&_&_&_&_&_&_&_&_& -> &_).
      apply Forall_app. split; [done|]. by repeat constructor.
    + destruct (completed_fields index g) as (_&_&_&_&_&_&_&_&_&_& ->).
      apply Forall_app. split.
      * through_filter. apply Forall_app. split; [done|].
        by repeat constructor.
      * constructor; [exact H2 | constructor].
Qed.

Lemma shownInv_runCallback t rest newTile g :
  shownInv g → t ∈ pending g → rest ⊆ pending g → validTile newTile →
  shownInv (runCallback (callback t) newTile (fired t rest g)).
Proof.
  intros (H1 & H2 & H3) Ht Hrest Hv.
  pose proof (Forall_subseteq _ _ _ Hrest H3) as Hrest'.
  rewrite Forall_forall in H3. specialize (H3 _ Ht). unfold timerValid in H3.
  destruct (callback t) as [d|tile i len f|i len| |s d] eqn:Hcb.
  - cbn [runCallback].
    destruct (playSequence_fields [newTile] d
                (setSequence [newTile] (fired t rest g)))
      as (_ & S2 & _&_&_&_&_&_&_&_& S11 & _).
    pose proof (playSequence_exact [newTile] d
                  (setSequence [newTile] (fired t rest g))) as S12.
    split; [by rewrite S11|]. split.
    + rewrite S2. by apply Forall_singleton.
    + rewrite S12. apply Forall_app. split; [done|].
      apply flashTimers_valid. by apply Forall_singleton.
  - destruct (FlashTick_fields tile i len f newTile (fired t rest g)
                (validTile_returns _ _ H3))
      as (_ & S2 &_&_&_&_&_&_&_&_& S11 &_&_&_& S15).
    split; [|split].
    + rewrite S15. apply Forall_app. split; [done|].
      constructor; [exact H3|]. by apply Forall_singleton.
    + by rewrite S2.
    + rewrite S11. apply Forall_app. split; [done|].
      by apply Forall_singleton.
  - destruct (ClearTick_fields i len newTile (fired t rest g))
      as (_ & S2 &_&_&_&_&_&_&_&_& S11 &_&_&_& S15).
    split; [|split].
    + rewrite S15. apply Forall_app. split; [done|].
      by apply Forall_singleton.
    + by rewrite S2.
    + by rewrite S11.
  - split; [|by split].
    cbn [runCallback presented setActiveTile fired withClock withPending].
    apply Forall_app. split; [done|]. by apply Forall_singleton.
  - cbn [runCallback]. unfold addToSequence.
    assert (Forall validTile (s ++ [newTile])) as Hs.
    { apply Forall_app. split; [done|]. by apply Forall_singleton. }
    destruct (playSequence_fields (s ++ [newTile]) d
                (setUserSequence []
                   (setSequence (s ++ [newTile]) (fired t rest g))))
      as (_ & S2 & _&_&_&_&_&_&_&_& S11 & _).
    pose proof (playSequence_exact (s ++ [newTile]) d
                  (setUserSequence []
                     (setSequence (s ++ [newTile]) (fired t rest g)))) as S12.
    split; [by rewrite S11|]. split.
    + by rewrite S2.
    + rewrite S12. apply Forall_app. split; [done|].
      by apply flashTimers_valid.
Qed.

Lemma shownInv_pageStep e g g' :
  shownInv g → pageStep e g = Some g' → shownInv g'.
Proof.
  intros Hinv Hstep. destruct e; cbn [pageStep] in Hstep.
  - injection Hstep as <-. unfold DifficultySelector_click.
    by case_decide.
  - case_decide as Hin; [|done]. injection Hstep as <-.
    apply GameGrid_tiles_valid in Hin.
    by apply shownInv_handleTileClick, shownInv_playTileSound.
  - injection Hstep as <-. unfold GameGrid_handleKeyDown.
    destruct (handleKeyPress key) as [i|] eqn:E; [|done].
    apply shownInv_handleTileClick; [|done].
    by apply handleKeyPress_Some in E as (_ & _ & ?).
  - injection Hstep as <-. unfold GameControls_click.
    case_decide; [done|]. case_decide.
    + by apply shownInv_startGame.
    + by apply shownInv_stopGame.
  - case_decide; [|done]. injection Hstep as <-. by apply shownInv_startGame.
  - case_decide; [|done]. injection Hstep as <-. by apply shownInv_resetGame.
  - apply step_TimerFires in Hstep as (t & rest & Hpick & Hr & ->).
    destruct (pickEarliest_elem _ _ _ Hpick).
    by apply shownInv_runCallback.
  - unfold step in Hstep. case_decide; [|done]. by injection Hstep as <-.
  - unfold step in Hstep. destruct (signedIn g); [|done].
    by injection Hstep as <-.
  - by apply step_SoundSettings in Hstep as ->.
  - by apply step_InitAudio in Hstep as ->.
Qed.

(** X16. On the page every tile that is lit or sounded is one of the nine
    tiles 0..8 of the grid: the grid and the keyboard submit such tiles
    only, and the reveal passes show tiles of the sequence. *)
Theorem page_shows_grid_tiles (g : Game) :
  pageReachable g →
  ∀ time entry,
    (time, entry) ∈ presented g →
    ∀ tileIndex,
      entry = TileOn tileIndex ∨ entry = TileSound tileIndex →
      0 <= tileIndex < 9.
Proof.
  intros (b & es & Hrun).
  assert (shownInv g) as (H & _).
  { apply (pageRun_invariant shownInv shownInv_pageStep es (initial b));
      [|done].
    repeat split; constructor. }
  intros time entry Hin tileIndex He.
  rewrite Forall_forall in H. specialize (H _ Hin). unfold entryValid in H.
  cbn in H. by destruct He as [-> | ->].
Qed.

End Page.

(** A stand-in for [parseInt] on the keys used in the examples. *)
Definition exampleParseInt (key : string) : option Z :=
  if decide (key = "5"%string) then Some 5
  else if decide (key = "3"%string) then Some 3
  else None.

Definition exampleSettings : ControlSettings :=
  {| keyboardEnabled := true; touchVibration := true; autoZoom := true |}.

(** A game on the page lost at the first tile: the sequence is 2 and the
    player presses the key of tile 4. *)
Definition page_lost_game : list PageEvent :=
  [ClickMainButton; PageTimer 2; PageTimer 0; PageTimer 0;
   KeyDown "5"%string].


Lemma main_button_never_restarts_witness :
  state (game_2_7_5 true) = WaitingForInput ∧
  state (GameControls_click (game_2_7_5 true)) = GameOver.
Proof.
  split; [reflexivity|].
  destruct (main_button_never_restarts (game_2_7_5 true)) as (_ & _ & H).
  destruct H as (_ & H & _); [left; reflexivity | exact H].
Defined.

Lemma game_over_screen_is_stable_witness :
  ∃ g,
    pageRun exampleParseInt exampleSettings page_lost_game (initial true) =
      Some g ∧
    state g = GameOver ∧ pending g = [].
Proof.
  destruct (pageRun exampleParseInt exampleSettings page_lost_game
              (initial true)) as [g|] eqn:E;
    [|vm_compute in E; discriminate E].
  exists g. split; [reflexivity|].
  assert (state g = GameOver) as Hg
    by (vm_compute in E; injection E as <-; reflexivity).
  split; [exact Hg|].
  apply (game_over_screen_is_stable exampleParseInt exampleSettings g).
  - exists true, page_lost_game. exact E.
  - exact Hg.
Defined.

Lemma page_shows_grid_tiles_witness :
  ∃ g,
    pageRun exampleParseInt exampleSettings page_lost_game (initial true) =
      Some g ∧
    (clock g, TileSound 4) ∈ presented g ∧ 0 <= 4 < 9.
Proof.
  destruct (pageRun exampleParseInt exampleSettings page_lost_game
              (initial true)) as [g|] eqn:E;
    [|vm_compute in E; discriminate E].
  exists g. split; [reflexivity|].
  assert ((clock g, TileSound 4) ∈ presented g) as Hin.
  { vm_compute in E. injection E as <-. cbn.
    rewrite !elem_of_cons. tauto. }
  split; [exact Hin|].
  apply (page_shows_grid_tiles exampleParseInt exampleSettings g
           ltac:(by exists true, page_lost_game) (clock g) (TileSound 4) Hin).
  by right.
Defined.

(** * The statistics of a player

    The stats route of the server and the stats page compute figures from
    the rows of the [games] table of one player.  The rows are those the
    session writes ([GameRow]); a JavaScript object used as a counter is the
    list of its entries in insertion order, which is the order of
    [Object.keys] and [Object.entries] for the keys used here. *)

(** ** The streak of rising scores *)

(** The [for] loop of the route from index [i] on: [previous] is
    [sortedGames[i-1]] and [rest] holds [sortedGames[i]] and the rows after
    it. *)
Fixpoint maxStreak_for (previous : GameRow) (rest : list GameRow)
    (currentStreak maxStreak : Z) : Z :=
  match rest with
  | [] => maxStreak
  | game :: rest' =>
      if decide (row_score game > row_score previous) then
        maxStreak_for game rest' (currentStreak + 1)
          (Z.max maxStreak (currentStreak + 1))
      else maxStreak_for game rest' 0 maxStreak
  end.

(** [maxStreak] of the route, on the rows sorted by date. *)
Definition maxStreak (sortedGames : list GameRow) : Z :=
  match sortedGames with
  | [] => 0
  | first :: rest => maxStreak_for first rest 0 0
  end.

(** Consecutive games, each with a higher score than the one before. *)
Fixpoint rising (l : list GameRow) : Prop :=
  match l with
  | a :: (b :: _) as rest => row_score a < row_score b ∧ rising rest
  | _ => True
  end.

(** [seg] is a run of consecutive rows of [l]. *)
Definition segment (seg l : list GameRow) : Prop :=
  ∃ before after, l = before ++ seg ++ after.

Lemma rising_snoc l x :
  rising (l ++ [x]) ↔
  rising l ∧ ∀ y, last l = Some y → row_score y < row_score x.
Proof.
  induction l as [|a [|b l] IH].
  - cbn. split; [|done]. intros _. split; [done|]. by intros y [=].
  - cbn. split.
    + intros [H _]. split; [done|]. by intros y [= <-].
    + intros [_ H]. split; [|done]. by apply H.
  - change (rising ((a :: b :: l) ++ [x]))
      with (row_score a < row_score b ∧ rising ((b :: l) ++ [x])).
    change (rising (a :: b :: l))
      with (row_score a < row_score b ∧ rising (b :: l)).
    change (last (a :: b :: l)) with (last (b :: l)).
    rewrite IH. tauto.
Qed.

Lemma suffix_last (seg l : list GameRow) y :
  seg `suffix_of` l → last seg = Some y → last l = Some y.
Proof. intros [k ->] H. by rewrite last_app, H. Qed.

Lemma segment_snoc seg l x :
  segment seg (l ++ [x]) → segment seg l ∨ seg `suffix_of` (l ++ [x]).
Proof.
  intros (before & after & H).
  destruct after as [|a after _] using rev_ind.
  - right. exists before. by rewrite app_nil_r in H.
  - left. exists before, after.
    rewrite !app_assoc in H. apply app_inj_tail in H as [H _].
    by rewrite <- app_assoc in H.
Qed.

Lemma segment_app_l seg l k : segment seg l → segment seg (l ++ k).
Proof.
  intros (before & after & ->). exists before, (after ++ k).
  by rewrite <- !app_assoc.
Qed.

Lemma suffix_segment seg l : seg `suffix_of` l → segment seg l.
Proof. intros [k ->]. exists k, []. by rewrite app_nil_r. Qed.

(** What the loop has established after the rows [pre]. *)
Definition streakInv (pre : list GameRow) (currentStreak maxStreak : Z)
  : Prop :=
  0 <= currentStreak <= maxStreak ∧
  (∀ seg, seg `suffix_of` pre → rising seg →
          Z.of_nat (length seg) <= currentStreak + 1) ∧
  (∃ seg, seg `suffix_of` pre ∧ rising seg ∧
          Z.of_nat (length seg) = currentStreak + 1) ∧
  (∀ seg, segment seg pre → rising seg →
          Z.of_nat (length seg) <= maxStreak + 1) ∧
  (∃ seg, segment seg pre ∧ rising seg ∧
          Z.of_nat (length seg) = maxStreak + 1).

Lemma streakInv_rise pre previous game cur best :
  last pre = Some previous → row_score game > row_score previous →
  streakInv pre cur best →
  streakInv (pre ++ [game]) (cur + 1) (Z.max best (cur + 1)).
Proof.
  intros Hlast Hgt (Hr & Hs & (s0 & Hs0 & Hr0 & Hl0) & Hg & (g0 & Hg0 & Hgr & Hgl)).
  assert (∀ seg, seg `suffix_of` (pre ++ [game]) → rising seg →
                 Z.of_nat (length seg) <= cur + 1 + 1) as Hs'.
  { intros seg Hsuf Hris. destruct seg as [|x seg _] using rev_ind.
    - cbn. lia.
    - pose proof (suffix_snoc_inv_2 _ _ _ _ Hsuf) as Hsuf'.
      apply rising_snoc in Hris as [Hris _].
      specialize (Hs _ Hsuf' Hris). rewrite length_app. cbn. lia. }
  split; [lia|]. split; [exact Hs'|]. split; [|split].
  - exists (s0 ++ [game]). split; [|split].
    + by apply suffix_app.
    + apply rising_snoc. split; [done|]. intros y Hy.
      rewrite (suffix_last _ _ _ Hs0 Hy) in Hlast.
      injection Hlast as ->. lia.
    + rewrite length_app. cbn. lia.
  - intros seg Hseg Hris. apply segment_snoc in Hseg as [Hseg|Hsuf].
    + specialize (Hg _ Hseg Hris). lia.
    + specialize (Hs' _ Hsuf Hris). lia.
  - destruct (decide (best >= cur + 1)).
    + exists g0. split; [by apply segment_app_l|]. split; [done|]. lia.
    + exists (s0 ++ [game]). split; [|split].
      * apply suffix_segment. by apply suffix_app.
      * apply rising_snoc. split; [done|]. intros y Hy.
        rewrite (suffix_last _ _ _ Hs0 Hy) in Hlast.
        injection Hlast as ->. lia.
      * rewrite length_app. cbn. lia.
Qed.

Lemma streakInv_fall pre previous game cur best :
  last pre = Some previous → ¬ row_score game > row_score previous →
  streakInv pre cur best →
  streakInv (pre ++ [game]) 0 best.
Proof.
  intros Hlast Hle (Hr & Hs & _ & Hg & (g0 & Hg0 & Hgr & Hgl)).
  assert (∀ seg, seg `suffix_of` (pre ++ [game]) → rising seg →
                 Z.of_nat (length seg) <= 0 + 1) as Hs'.
  { intros seg Hsuf Hris. destruct seg as [|x seg _] using rev_ind.
    - cbn. lia.
    - pose proof (suffix_snoc_inv_1 _ _ _ _ Hsuf) as ->.
      pose proof (suffix_snoc_inv_2 _ _ _ _ Hsuf) as Hsuf'.
      apply rising_snoc in Hris as [_ Hlt].
      destruct (last seg) as [y|] eqn:Hy.
      + specialize (Hlt _ eq_refl).
        rewrite (suffix_last _ _ _ Hsuf' Hy) in Hlast.
        injection Hlast as ->. lia.
      + apply last_None in Hy as ->. cbn. lia. }
  split; [lia|]. split; [exact Hs'|]. split; [|split].
  - exists [game]. split; [by apply suffix_app_r|]. split; [done|]. cbn. lia.
  - intros seg Hseg Hris. apply segment_snoc in Hseg as [Hseg|Hsuf].
    + by apply Hg.
    + specialize (Hs' _ Hsuf Hris). lia.
  - exists g0. split; [by apply segment_app_l|]. by split.
Qed.

Lemma maxStreak_for_spec rest :
  ∀ pre previous cur best,
    last pre = Some previous → streakInv pre cur best →
    ∃ cur', streakInv (pre ++ rest) cur'
              (maxStreak_for previous rest cur best).
Proof.
  induction rest as [|game rest IH]; intros pre previous cur best Hlast Hinv.
  - exists cur. by rewrite app_nil_r.
  - cbn [maxStreak_for].
    replace (pre ++ game :: rest) with ((pre ++ [game]) ++ rest)
      by (by rewrite <- app_assoc).
    assert (last (pre ++ [game]) = Some game) as Hlast'
      by (by rewrite last_snoc).
    case_decide as Hgt.
    + apply (IH _ _ _ _ Hlast'). by eapply streakInv_rise.
    + apply (IH _ _ _ _ Hlast'). by eapply streakInv_fall.
Qed.

Lemma streakInv_first first : streakInv [first] 0 0.
Proof.
  assert (∀ seg, segment seg [first] → Z.of_nat (length seg) <= 0 + 1) as H.
  { intros seg (before & after & E).
    apply (f_equal length) in E. rewrite !length_app in E. cbn in E. lia. }
  split; [lia|]. split; [|split; [|split]].
  - intros seg Hs _. by apply H, suffix_segment.
  - by exists [first].
  - intros seg Hs _. by apply H.
  - exists [first]. split; [by exists [], []|]. by split.
Qed.

(** X17. The streak of the stats route counts rises between consecutive
    games, in date order: it is one less than the length of the longest run
    of consecutive games in which every game scores more than the game
    before it.  Every such run has at most [maxStreak + 1] games, and when
    the player has games there is one with exactly that many; with a single
    game, or with scores that never rise, the streak is 0. *)
Theorem maxStreak_longest_rise (sortedGames : list GameRow) :
  (∀ seg, segment seg sortedGames → rising seg →
          Z.of_nat (length seg) <= maxStreak sortedGames + 1) ∧
  (sortedGames ≠ [] →
   ∃ seg, segment seg sortedGames ∧ rising seg ∧
          Z.of_nat (length seg) = maxStreak sortedGames + 1).
Proof.
  destruct sortedGames as [|first rest].
  - split; [|done]. intros seg (before & after & E) _.
    symmetry in E. apply app_eq_nil in E as [_ E].
    apply app_eq_nil in E as [-> _]. cbn. lia.
  - destruct (maxStreak_for_spec rest [first] first 0 0 eq_refl
                (streakInv_first first)) as (cur' & _ & _ & _ & H1 & H2).
    split; [exact H1|]. intros _. exact H2.
Qed.

Lemma maxStreak_longest_rise_witness :
  let sortedGames :=
    [ {| row_score := 4; row_difficulty := easy; row_streak := 3 |};
      {| row_score := 2; row_difficulty := easy; row_streak := 2 |};
      {| row_score := 6; row_difficulty := hard; row_streak := 3 |};
      {| row_score := 9; row_difficulty := easy; row_streak := 5 |} ] in
  maxStreak sortedGames = 2 ∧
  ∃ seg, segment seg sortedGames ∧ rising seg ∧
         Z.of_nat (length seg) = maxStreak sortedGames + 1.
Proof.
  intros sortedGames. split; [reflexivity|].
  apply (maxStreak_longest_rise sortedGames). discriminate.
Defined.

(** ** The most used difficulty *)

(** [counts[key]]: [None] is [undefined]. *)
Fixpoint getProperty (key : Difficulty) (counts : list (Difficulty * Z))
  : option Z :=
  match counts with
  | [] => None
  | (k, v) :: rest => if decide (k = key) then Some v else getProperty key rest
  end.

(** [counts[key] = value]: an existing key keeps its place, a new key goes
    to the end. *)
Fixpoint setProperty (key : Difficulty) (value : Z)
    (counts : list (Difficulty * Z)) : list (Difficulty * Z) :=
  match counts with
  | [] => [(key, value)]
  | (k, v) :: rest =>
      if decide (k = key) then (k, value) :: rest
      else (k, v) :: setProperty key value rest
  end.

(** [x || 0] on a number or [undefined]. *)
Definition orZero (x : option Z) : Z :=
  match x with
  | Some n => if decide (n = 0) then 0 else n
  | None => 0
  end.

(** [x > y] on numbers or [undefined]: false when either is [undefined]. *)
Definition JS_gt (x y : option Z) : bool :=
  match x, y with
  | Some a, Some b => bool_decide (a > b)
  | _, _ => false
  end.

Definition difficultyCounts (games : list GameRow) : list (Difficulty * Z) :=
  fold_left
    (λ counts game,
       setProperty (row_difficulty game)
         (orZero (getProperty (row_difficulty game) counts) + 1) counts)
    games [].

Definition Object_keys (counts : list (Difficulty * Z)) : list Difficulty :=
  map fst counts.

(** The stats route of the server: [reduce] over the keys, from ['easy']. *)
Definition server_mostUsedDifficulty (games : list GameRow) : Difficulty :=
  let counts := difficultyCounts games in
  fold_left
    (λ a b, if JS_gt (getProperty a counts) (getProperty b counts)
            then a else b)
    (Object_keys counts) easy.

(** The stats page: [reduce] over the entries, from the first entry. *)
Definition client_mostUsedDifficulty (games : list GameRow) : Difficulty :=
  let entries := difficultyCounts games in
  match entries with
  | [] => easy
  | first :: rest =>
      fst (fold_left (λ a b, if decide (snd a > snd b) then a else b)
             rest first)
  end.

(** [games.filter(game => game.difficulty === d)] and the [gamesPlayed] of
    its summary. *)
Definition difficultyGames (d : Difficulty) (games : list GameRow)
  : list GameRow :=
  filter (λ game, row_difficulty game = d) games.

Definition summary_gamesPlayed (difficultyGames : list GameRow) : Z :=
  Z.of_nat (length difficultyGames).

Definition played (games : list GameRow) (d : Difficulty) : Z :=
  summary_gamesPlayed (difficultyGames d games).

Lemma getProperty_setProperty key value counts :
  getProperty key (setProperty key value counts) = Some value.
Proof.
  induction counts as [|[k v] rest IH]; cbn.
  - by rewrite decide_True.
  - destruct (decide (k = key)) as [->|Hk]; cbn.
    + by rewrite decide_True.
    + by rewrite decide_False.
Qed.

Lemma getProperty_setProperty_ne key key' value counts :
  key ≠ key' →
  getProperty key' (setProperty key value counts) = getProperty key' counts.
Proof.
  intros Hne. induction counts as [|[k v] rest IH]; cbn.
  - by rewrite decide_False.
  - destruct (decide (k = key)) as [->|Hk]; cbn.
    + by rewrite !decide_False.
    + by rewrite IH.
Qed.

Lemma played_snoc games game d :
  played (games ++ [game]) d =
  played games d + (if decide (row_difficulty game = d) then 1 else 0).
Proof.
  unfold played, summary_gamesPlayed, difficultyGames.
  rewrite filter_app, length_app, filter_cons, filter_nil.
  case_decide; cbn [length]; lia.
Qed.

Lemma played_nonneg games d : 0 <= played games d.
Proof. unfold played, summary_gamesPlayed. lia. Qed.

Lemma difficultyCounts_snoc games game :
  difficultyCounts (games ++ [game]) =
  setProperty (row_difficulty game)
    (orZero (getProperty (row_difficulty game) (difficultyCounts games)) + 1)
    (difficultyCounts games).
Proof. unfold difficultyCounts. by rewrite fold_left_app. Qed.

(** The counter holds, for every difficulty, the number of games played on
    it, and no entry for a difficulty never played. *)
Lemma difficultyCounts_spec games d :
  getProperty d (difficultyCounts games) =
  if decide (played games d = 0) then None else Some (played games d).
Proof.
  induction games as [|game games IH] using rev_ind.
  - reflexivity.
  - rewrite difficultyCounts_snoc, played_snoc.
    pose proof (played_nonneg games d).
    destruct (decide (row_difficulty game = d)) as [->|Hne].
    + rewrite getProperty_setProperty, IH.
      rewrite (decide_False (P := played games d + 1 = 0)) by lia.
      destruct (decide (played games d = 0)) as [H0|H0]; cbn.
      * rewrite H0. reflexivity.
      * rewrite decide_False by done. reflexivity.
    + rewrite getProperty_setProperty_ne by done. rewrite IH.
      by rewrite Z.add_0_r.
Qed.

Lemma getProperty_elem key value counts :
  NoDup (map fst counts) → (key, value) ∈ counts →
  getProperty key counts = Some value.
Proof.
  induction counts as [|[k v] rest IH]; intros Hnd Hin.
  - by apply elem_of_nil in Hin.
  - cbn in Hnd. apply NoDup_cons in Hnd as [Hk Hnd].
    apply elem_of_cons in Hin as [[= <- <-]|Hin]; cbn.
    + by rewrite decide_True.
    + rewrite decide_False; [by apply IH|].
      intros ->. apply Hk. apply list_elem_of_fmap.
      by exists (key, value).
Qed.

Lemma getProperty_key key counts :
  key ∈ map fst counts → ∃ value, getProperty key counts = Some value.
Proof.
  induction counts as [|[k v] rest IH]; intros Hin.
  - by apply elem_of_nil in Hin.
  - cbn in *. destruct (decide (k = key)) as [->|Hk]; [by eexists|].
    apply elem_of_cons in Hin as [->|Hin]; [done|]. by apply IH.
Qed.

Lemma setProperty_keys key value counts :
  map fst (setProperty key value counts) =
  if decide (key ∈ map fst counts) then map fst counts
  else map fst counts ++ [key].
Proof.
  induction counts as [|[k v] rest IH]; cbn.
  - rewrite decide_False; [done|]. apply not_elem_of_nil.
  - destruct (decide (k = key)) as [->|Hk]; cbn.
    + rewrite decide_True; [done|]. apply elem_of_cons. by left.
    + rewrite IH. destruct (decide (key ∈ map fst rest)) as [Hin|Hin].
      * rewrite decide_True; [done|]. apply elem_of_cons. by right.
      * rewrite decide_False; [done|].
        intros [->|?]%elem_of_cons; done.
Qed.

Lemma difficultyCounts_NoDup games :
  NoDup (map fst (difficultyCounts games)).
Proof.
  induction games as [|game games IH] using rev_ind.
  - constructor.
  - rewrite difficultyCounts_snoc, setProperty_keys.
    case_decide as Hin; [done|].
    apply NoDup_app. split; [done|]. split.
    + intros x Hx [->|[]%elem_of_nil]%elem_of_cons. done.
    + apply NoDup_singleton.
Qed.

(** The choice of [reduce]: the later of two keys unless the earlier has
    strictly more games. *)
Definition later (n : Difficulty → Z) (a b : Difficulty) : Difficulty :=
  if decide (n a > n b) then a else b.

(** [r] is the last key of [keys] among those with the most games. *)
Definition lastMost (n : Difficulty → Z) (keys : list Difficulty)
    (r : Difficulty) : Prop :=
  ∃ before after,
    keys = before ++ r :: after ∧
    (∀ k, k ∈ before → n k <= n r) ∧ (∀ k, k ∈ after → n k < n r).

Lemma later_fold_spec n keys a :
  let r := fold_left (later n) keys a in
  n a <= n r ∧ (∀ k, k ∈ keys → n k <= n r) ∧
  ((r = a ∧ ∀ k, k ∈ keys → n k < n a) ∨ lastMost n keys r).
Proof.
  induction keys as [|x keys IH] using rev_ind; intros r.
  - subst r. cbn. split; [lia|]. split.
    + by intros k []%elem_of_nil.
    + left. split; [done|]. by intros k []%elem_of_nil.
  - subst r. rewrite fold_left_app. cbn [fold_left].
    cbn zeta in IH. destruct IH as (Ha & Hall & Hcase).
    set (r := fold_left (later n) keys a) in *. clearbody r.
    assert (later n r x = if decide (n r > n x) then r else x) as -> by done.
    destruct (decide (n r > n x)) as [Hgt|Hgt].
    + split; [done|]. split.
      * intros k [Hk|Hk]%elem_of_app; [by apply Hall|].
        apply list_elem_of_singleton in Hk as ->. lia.
      * destruct Hcase as [[Hr Hlt]|(before & after & -> & Hb & Haf)].
        -- left. split; [done|].
           intros k [Hk|Hk]%elem_of_app; [by apply Hlt|].
           apply list_elem_of_singleton in Hk as ->. rewrite <- Hr. lia.
        -- right. exists before, (after ++ [x]).
           split; [by rewrite <- app_assoc|]. split; [done|].
           intros k [Hk|Hk]%elem_of_app; [by apply Haf|].
           apply list_elem_of_singleton in Hk as ->. lia.
    + split; [lia|]. split.
      * intros k [Hk|Hk]%elem_of_app.
        -- specialize (Hall _ Hk). lia.
        -- apply list_elem_of_singleton in Hk as ->. lia.
      * right. exists keys, []. split; [done|]. split.
        -- intros k Hk. specialize (Hall _ Hk). lia.
        -- by intros k []%elem_of_nil.
Qed.

Lemma lastMost_unique n keys r r' :
  lastMost n keys r → lastMost n keys r' → r = r'.
Proof.
  intros (b & a & E & Hb & Ha) (b' & a' & E' & Hb' & Ha').
  assert (∀ (b a : list Difficulty) r b' a' r',
            b ++ r :: a = b' ++ r' :: a' → (length b < length b')%nat →
            r ∈ b' ∧ r' ∈ a) as Hlt.
  { clear. intros b. induction b as [|x b IH]; intros a r b' a' r' E Hl.
    - destruct b' as [|y b']; [cbn in Hl; lia|].
      cbn in E. injection E as -> ->. split.
      + apply elem_of_cons. by left.
      + apply elem_of_app. right. apply elem_of_cons. by left.
    - destruct b' as [|y b']; [cbn in Hl; lia|].
      cbn in E. injection E as -> E. cbn in Hl.
      destruct (IH _ _ _ _ _ E ltac:(lia)) as [H1 H2].
      split; [|done]. apply elem_of_cons. by right. }
  subst keys.
  destruct (lt_eq_lt_dec (length b) (length b')) as [[Hl|Hl]|Hl].
  - destruct (Hlt _ _ _ _ _ _ E' Hl) as [H1 H2].
    specialize (Hb' _ H1). specialize (Ha _ H2). lia.
  - apply app_inj_1 in E' as [_ E']; [|done]. by injection E'.
  - symmetry in E'. destruct (Hlt _ _ _ _ _ _ E' Hl) as [H1 H2].
    specialize (Hb _ H1). specialize (Ha' _ H2). lia.
Qed.

Lemma fold_left_ext_in {A B} (f f' : A → B → A) (l : list B) (a : A) :
  (∀ a b, b ∈ l → f a b = f' a b) → fold_left f l a = fold_left f' l a.
Proof.
  revert a. induction l as [|x l IH]; intros a H; [done|]. cbn.
  rewrite H by (apply elem_of_cons; by left).
  apply IH. intros a' b Hb. apply H. apply elem_of_cons. by right.
Qed.

Lemma played_key games k :
  k ∈ Object_keys (difficultyCounts games) → 0 < played games k.
Proof.
  intros Hk. apply getProperty_key in Hk as (v & Hv).
  rewrite difficultyCounts_spec in Hv.
  pose proof (played_nonneg games k). case_decide; [done|]. lia.
Qed.

Lemma server_mostUsedDifficulty_later games :
  server_mostUsedDifficulty games =
  fold_left (later (played games)) (Object_keys (difficultyCounts games)) easy.
Proof.
  unfold server_mostUsedDifficulty. cbn zeta.
  apply fold_left_ext_in. intros a b Hb.
  pose proof (played_key _ _ Hb) as Hpos.
  pose proof (played_nonneg games a) as Hna.
  rewrite !difficultyCounts_spec. unfold later.
  rewrite (decide_False (P := played games b = 0)) by lia.
  destruct (decide (played games a = 0)) as [H0|H0]; cbn.
  - rewrite decide_False by lia. done.
  - unfold bool_decide. by destruct (decide_rel _ _ _).
Qed.

Lemma client_fold_later games entries first :
  (∀ e, e ∈ first :: entries → snd e = played games (fst e)) →
  fst (fold_left (λ a b, if decide (snd a > snd b) then a else b)
         entries first) =
  fold_left (later (played games)) (map fst entries) (fst first) ∧
  snd (fold_left (λ a b, if decide (snd a > snd b) then a else b)
         entries first) =
  played games
    (fst (fold_left (λ a b, if decide (snd a > snd b) then a else b)
            entries first)).
Proof.
  revert first. induction entries as [|x entries IH]; intros first H.
  - cbn. split; [done|]. apply H. apply elem_of_cons. by left.
  - cbn [fold_left map].
    assert (snd first = played games (fst first)) as Hf
      by (apply H, elem_of_cons; by left).
    assert (snd x = played games (fst x)) as Hx
      by (apply H, elem_of_cons; right; apply elem_of_cons; by left).
    unfold later at 2. rewrite <- Hf, <- Hx.
    case_decide.
    + apply IH. intros e [->|He]%elem_of_cons; [done|].
      apply H. do 2 (apply elem_of_cons; right). done.
    + apply IH. intros e [->|He]%elem_of_cons; [done|].
      apply H. do 2 (apply elem_of_cons; right). done.
Qed.

Lemma difficultyCounts_entries games e :
  e ∈ difficultyCounts games → snd e = played games (fst e).
Proof.
  intros He. destruct e as [k v]. cbn.
  pose proof (getProperty_elem k v _ (difficultyCounts_NoDup games) He) as Hg.
  rewrite difficultyCounts_spec in Hg. case_decide; [done|]. by injection Hg.
Qed.

Lemma getProperty_Some_key key value counts :
  getProperty key counts = Some value → key ∈ map fst counts.
Proof.
  induction counts as [|[k v] rest IH]; cbn; [done|].
  destruct (decide (k = key)) as [->|Hk]; intros Hs.
  - apply elem_of_cons. by left.
  - apply elem_of_cons. right. by apply IH.
Qed.

Lemma played_no_key games d :
  d ∉ Object_keys (difficultyCounts games) → played games d = 0.
Proof.
  intros Hd. pose proof (difficultyCounts_spec games d) as Hs.
  case_decide as H0; [done|]. exfalso. apply Hd.
  by apply getProperty_Some_key in Hs.
Qed.

(** X18. The stats route of the server and the stats page name the same
    most used difficulty, although the route reduces the keys of the
    counter from ['easy'] and the page reduces its entries from the first
    one.  No difficulty has more games than the one named; among the
    difficulties with the most games it is the one whose first game came
    last; without games it is easy. *)
Theorem mostUsedDifficulty_agrees (games : list GameRow) :
  let r := server_mostUsedDifficulty games in
  client_mostUsedDifficulty games = r ∧
  (∀ d, played games d <= played games r) ∧
  (games = [] → r = easy) ∧
  (games ≠ [] →
   lastMost (played games) (Object_keys (difficultyCounts games)) r).
Proof.
  intros r. subst r. rewrite server_mostUsedDifficulty_later.
  set (keys := Object_keys (difficultyCounts games)).
  destruct (later_fold_spec (played games) keys easy) as (He & Hall & Hcase).
  cbn zeta in Hcase.
  set (r := fold_left (later (played games)) keys easy) in *.
  assert (keys ≠ [] → lastMost (played games) keys r) as Hlast.
  { intros Hne. destruct Hcase as [[_ Hlt]|H]; [|done]. exfalso.
    destruct (decide (easy ∈ keys)) as [Hin|Hout].
    - specialize (Hlt _ Hin). lia.
    - destruct keys as [|k keys'] eqn:Ek; [done|].
      assert (k ∈ k :: keys') as Hk by (apply elem_of_cons; by left).
      specialize (Hlt _ Hk).
      rewrite <- Ek in Hout. subst keys.
      rewrite (played_no_key _ _ Hout) in Hlt.
      assert (k ∈ Object_keys (difficultyCounts games)) as Hk'
        by (rewrite Ek; done).
      pose proof (played_key _ _ Hk'). lia. }
  assert (games ≠ [] → keys ≠ []) as Hkeys.
  { intros Hg. destruct games as [|game games' _] using rev_ind; [done|].
    subst keys. rewrite difficultyCounts_snoc. unfold Object_keys.
    rewrite setProperty_keys. case_decide as Hin.
    - intros E. rewrite E in Hin. by apply elem_of_nil in Hin.
    - intros E. by apply app_eq_nil in E as [_ [=]]. }
  split; [|split; [|split]].
  - unfold client_mostUsedDifficulty. cbn zeta.
    destruct (difficultyCounts games) as [|first rest] eqn:Ec.
    + reflexivity.
    + destruct (client_fold_later games rest first) as [-> _].
      { intros e Hin. apply difficultyCounts_entries. by rewrite Ec. }
      assert (keys = fst first :: map fst rest) as Ek
        by (subst keys; rewrite ?Ec; reflexivity).
      apply (lastMost_unique (played games) keys); [|by apply Hlast; rewrite Ek].
      destruct (later_fold_spec (played games) (map fst rest) (fst first))
        as (Hf & Hall' & Hcase').
      cbn zeta in Hcase'. rewrite Ek.
      destruct Hcase' as [[-> Hlt]|(before & after & E' & Hb & Ha)].
      * exists [], (map fst rest). split; [done|].
        split; [by intros k []%elem_of_nil | exact Hlt].
      * exists (fst first :: before), after.
        split; [cbn [app]; f_equal; exact E'|]. split; [|exact Ha].
        intros k [->|Hk]%elem_of_cons; [exact Hf|]. by apply Hb.
  - intros d. destruct (decide (d ∈ keys)) as [Hin|Hout].
    + by apply Hall.
    + rewrite (played_no_key _ _ Hout).
      pose proof (played_nonneg games easy). lia.
  - by intros ->.
  - intros Hg. by apply Hlast, Hkeys.
Qed.

Lemma mostUsedDifficulty_agrees_witness :
  let games :=
    [ {| row_score := 4; row_difficulty := medium; row_streak := 3 |};
      {| row_score := 2; row_difficulty := easy; row_streak := 2 |};
      {| row_score := 6; row_difficulty := hard; row_streak := 3 |};
      {| row_score := 9; row_difficulty := easy; row_streak := 5 |};
      {| row_score := 1; row_difficulty := hard; row_streak := 1 |} ] in
  server_mostUsedDifficulty games = hard ∧
  client_mostUsedDifficulty games = server_mostUsedDifficulty games ∧
  lastMost (played games) (Object_keys (difficultyCounts games))
    (server_mostUsedDifficulty games).
Proof.
  intros games.
  destruct (mostUsedDifficulty_agrees games) as (H1 & _ & _ & H4).
  split; [reflexivity|]. split; [exact H1|]. apply H4. discriminate.
Defined.

(** * The achievements of the game-over dialog

    The dialog reads [score] from the game context and, for a signed-in
    player with a positive score, checks the achievements.  The answer of
    the [select] on the [achievements] table and the failure of the
    [upsert] are supplied by the environment. *)

Definition achievementsToUnlock (score : Z) : list string :=
  (if decide (score >= 5) then ["sharp-starter"%string] else []) ++
  (if decide (score >= 10) then ["memory-master"%string] else []) ++
  (if decide (score >= 15) then ["reflex-lord"%string] else []) ++
  (if decide (score >= 20) then ["simon-slayer"%string] else []).

(** [Boolean] on an [achievement_id] column: [None] is [null]. *)
Definition Boolean (x : option string) : bool :=
  match x with
  | Some s => negb (bool_decide (s = ""%string))
  | None => false
  end.

(** The answer of the [select]: [fetchError], or [data] (which may be
    [null]) with the [achievement_id] of each row. *)
Inductive Fetched :=
| fetchError
| fetched (existingAchievements : option (list (option string))).

(** The set [existingIds], as the list of its elements. *)
Definition existingIds (existingAchievements : option (list (option string)))
  : list (option string) :=
  filter (λ x, Boolean x = true) (default [] existingAchievements).

Definition newAchievementsToInsert (score : Z)
    (existingAchievements : option (list (option string))) : list string :=
  filter (λ id, Some id ∉ existingIds existingAchievements)
    (achievementsToUnlock score).

(** What a check leaves behind: the ids of the rows passed to [upsert]
    (none when [upsert] is not called), the cell [newAchievements] listed in
    the dialog, and whether the error text is set. *)
Record Checked := {
  upsert : list string;
  newAchievements : list string;
  error : bool
}.

Definition nothingNew : Checked :=
  {| upsert := []; newAchievements := []; error := false |}.

Definition checkAchievements (signedIn : bool) (score : Z)
    (response : Fetched) (insertError : bool) : Checked :=
  if negb signedIn then nothingNew
  else if decide (length (achievementsToUnlock score) = 0%nat) then nothingNew
  else
    match response with
    | fetchError => {| upsert := []; newAchievements := []; error := true |}
    | fetched existingAchievements =>
        let new := newAchievementsToInsert score existingAchievements in
        if decide (length new = 0%nat) then nothingNew
        else if insertError then
          {| upsert := new; newAchievements := []; error := true |}
        else {| upsert := new; newAchievements := new; error := false |}
    end.

(** The effect of the dialog. *)
Definition GameOver_useEffect (signedIn : bool) (score : Z)
    (response : Fetched) (insertError : bool) : Checked :=
  if signedIn && bool_decide (score > 0)
  then checkAchievements signedIn score response insertError
  else nothingNew.

Definition achievementIds : list string :=
  ["sharp-starter"; "memory-master"; "reflex-lord"; "simon-slayer"]%string.

Lemma achievementsToUnlock_take score :
  achievementsToUnlock score = take (Z.to_nat (score / 5)) achievementIds.
Proof.
  unfold achievementsToUnlock, achievementIds.
  destruct (decide (score < 5)).
  { replace (Z.to_nat (score / 5)) with 0%nat
      by (assert (score / 5 < 1) by (apply Z.div_lt_upper_bound; lia); lia).
    rewrite !decide_False by lia. reflexivity. }
  destruct (decide (score < 10)).
  { replace (score / 5) with 1 by (apply Z.div_unique with (score - 5); lia).
    rewrite decide_True by lia. rewrite !decide_False by lia. reflexivity. }
  destruct (decide (score < 15)).
  { replace (score / 5) with 2 by (apply Z.div_unique with (score - 10); lia).
    rewrite !decide_True by lia. rewrite !decide_False by lia. reflexivity. }
  destruct (decide (score < 20)).
  { replace (score / 5) with 3 by (apply Z.div_unique with (score - 15); lia).
    rewrite !decide_True by lia. rewrite !decide_False by lia. reflexivity. }
  rewrite !decide_True by lia.
  assert (4 <= score / 5) by (apply Z.div_le_lower_bound; lia).
  destruct (Z.to_nat (score / 5)) as [|[|[|[|k]]]] eqn:E; try lia.
  by destruct k.
Qed.

Lemma achievementsToUnlock_elem id score :
  id ∈ achievementsToUnlock score ↔
  id = "sharp-starter"%string ∧ score >= 5 ∨
  id = "memory-master"%string ∧ score >= 10 ∨
  id = "reflex-lord"%string ∧ score >= 15 ∨
  id = "simon-slayer"%string ∧ score >= 20.
Proof.
  unfold achievementsToUnlock. rewrite !elem_of_app.
  repeat case_decide;
    rewrite ?list_elem_of_singleton, ?elem_of_nil; intuition lia.
Qed.

Lemma achievementsToUnlock_mono score score' :
  score' <= score → achievementsToUnlock score' ⊆ achievementsToUnlock score.
Proof.
  intros Hle id. rewrite !achievementsToUnlock_elem. intuition lia.
Qed.

Lemma achievementsToUnlock_known id score :
  id ∈ achievementsToUnlock score → id ∈ achievementsToUnlock 20.
Proof. rewrite !achievementsToUnlock_elem. intuition lia. Qed.

Lemma existingIds_has id existingAchievements :
  id ∈ achievementsToUnlock 20 →
  Some id ∈ existingIds existingAchievements ↔
  Some id ∈ default [] existingAchievements.
Proof.
  intros Hid. unfold existingIds. rewrite list_elem_of_filter.
  split; [by intros [_ ?]|]. intros H. split; [|done].
  apply achievementsToUnlock_elem in Hid.
  destruct Hid as [[-> _]|[[-> _]|[[-> _]|[-> _]]]]; reflexivity.
Qed.

Lemma newAchievementsToInsert_elem id score existingAchievements :
  id ∈ newAchievementsToInsert score existingAchievements ↔
  id ∈ achievementsToUnlock score ∧
  Some id ∉ default [] existingAchievements.
Proof.
  unfold newAchievementsToInsert. rewrite list_elem_of_filter.
  split.
  - intros [Hn Hin]. split; [done|].
    rewrite <- existingIds_has; [done|].
    by apply achievementsToUnlock_known in Hin.
  - intros [Hin Hn]. split; [|done].
    rewrite existingIds_has; [done|].
    by apply achievementsToUnlock_known in Hin.
Qed.

Lemma length_zero_nil {A} (l : list A) : length l = 0%nat ↔ l = [].
Proof. by destruct l. Qed.

(** X19. An achievement is awarded once.  The rows a check passes to
    [upsert] are exactly the achievements that the score unlocks and that
    no row fetched for the player holds yet, and the dialog lists no others
    as new.  Once those rows are in the table, a later check with the same
    or a lower score passes nothing to [upsert], lists nothing new and
    reports no error.  When the [select] fails nothing is passed to
    [upsert].  The player is signed in. *)
Theorem achievement_awarded_once (score score' : Z)
    (existingAchievements : option (list (option string)))
    (later : list (option string)) (insertError insertError' : bool) :
  let first :=
    checkAchievements true score (fetched existingAchievements) insertError
  in
  (∀ id, id ∈ upsert first ↔
         id ∈ achievementsToUnlock score ∧
         Some id ∉ default [] existingAchievements) ∧
  newAchievements first = (if insertError then [] else upsert first) ∧
  upsert (checkAchievements true score fetchError insertError) = [] ∧
  ((∀ x, x ∈ default [] existingAchievements → x ∈ later) →
   (∀ id, id ∈ upsert first → Some id ∈ later) →
   score' <= score →
   checkAchievements true score' (fetched (Some later)) insertError' =
     nothingNew).
Proof.
  intros first.
  assert (upsert first = newAchievementsToInsert score existingAchievements)
    as Hup.
  { subst first. unfold checkAchievements. cbn [negb].
    destruct (decide (length (achievementsToUnlock score) = 0%nat)) as [E|E].
    - apply length_zero_nil in E. unfold newAchievementsToInsert.
      by rewrite E.
    - cbn zeta. case_decide as E'.
      + by apply length_zero_nil in E' as ->.
      + by destruct insertError. }
  split; [|split; [|split]].
  - intros id. rewrite Hup. apply newAchievementsToInsert_elem.
  - subst first. unfold checkAchievements. cbn [negb].
    repeat case_decide; by destruct insertError.
  - unfold checkAchievements. cbn [negb]. by case_decide.
  - intros Hkeep Hnew Hle. unfold checkAchievements. cbn [negb].
    case_decide; [done|]. cbn zeta.
    rewrite decide_True; [done|]. apply length_zero_nil.
    destruct (newAchievementsToInsert score' (Some later)) as [|id l] eqn:E;
      [done|]. exfalso.
    assert (id ∈ newAchievementsToInsert score' (Some later)) as Hin
      by (rewrite E; apply elem_of_cons; by left).
    apply newAchievementsToInsert_elem in Hin as [Hin Hout]. apply Hout.
    apply (achievementsToUnlock_mono score score' Hle) in Hin.
    destruct (decide (Some id ∈ default [] existingAchievements)) as [He|He].
    + by apply Hkeep.
    + apply Hnew. rewrite Hup. by apply newAchievementsToInsert_elem.
Qed.

Lemma achievement_awarded_once_witness :
  let existing := Some [Some "sharp-starter"%string; None] in
  let later :=
    [Some "sharp-starter"; None; Some "memory-master";
     Some "reflex-lord"]%string in
  upsert (checkAchievements true 17 (fetched existing) false) =
    ["memory-master"; "reflex-lord"]%string ∧
  checkAchievements true 12 (fetched (Some later)) false = nothingNew.
Proof.
  intros existing later. split; [reflexivity|].
  apply (achievement_awarded_once 17 12 existing later false false).
  - intros x Hx. cbn in Hx. unfold later.
    rewrite !elem_of_cons in Hx. rewrite !elem_of_cons.
    rewrite elem_of_nil in Hx. tauto.
  - intros id Hid.
    change (id ∈ ["memory-master"; "reflex-lord"]%string) in Hid.
    unfold later. rewrite !elem_of_cons in Hid. rewrite elem_of_nil in Hid.
    rewrite !elem_of_cons. destruct Hid as [->|[->|[]]]; tauto.
  - lia.
Defined.

(** X20. The dialog awards one achievement for every five full points of
    the final score, up to four, in the order sharp-starter, memory-master,
    reflex-lord, simon-slayer; so a higher score unlocks every achievement
    of a lower one.  Its effect leaves the table alone for a player who is
    not signed in and for a score below 5. *)
Theorem achievements_per_five_points (signedIn : bool) (score : Z)
    (response : Fetched) (insertError : bool) :
  achievementsToUnlock score = take (Z.to_nat (score / 5)) achievementIds ∧
  (∀ lower, lower <= score →
            achievementsToUnlock lower `prefix_of` achievementsToUnlock score) ∧
  (signedIn = false ∨ score < 5 →
   GameOver_useEffect signedIn score response insertError = nothingNew).
Proof.
  split; [apply achievementsToUnlock_take|]. split.
  - intros lower Hle. rewrite !achievementsToUnlock_take.
    assert (lower / 5 <= score / 5) as Hd by (by apply Z.div_le_mono).
    replace (Z.to_nat (lower / 5))
      with (Z.to_nat (lower / 5) `min` Z.to_nat (score / 5))%nat by lia.
    rewrite <- take_take. apply prefix_take.
  - intros H. unfold GameOver_useEffect.
    destruct signedIn; [|done]. destruct H as [H|H]; [done|].
    cbn [andb]. case_bool_decide; [|done].
    unfold checkAchievements. cbn [negb]. rewrite decide_True; [done|].
    rewrite achievementsToUnlock_take.
    replace (Z.to_nat (score / 5)) with 0%nat; [done|].
    assert (score / 5 < 1) by (apply Z.div_lt_upper_bound; lia). lia.
Qed.

Lemma achievements_per_five_points_witness :
  achievementsToUnlock 12 = ["sharp-starter"; "memory-master"]%string ∧
  GameOver_useEffect true 4 (fetched None) false = nothingNew.
Proof.
  destruct (achievements_per_five_points true 4 (fetched None) false)
    as (_ & _ & H).
  split; [reflexivity|]. apply H. right. lia.
Defined.

(** * The sign-in form

    A JavaScript string is the list of its UTF-16 code units; [length] and
    the character classes of the regular expressions act on code units.
    The test of the e-mail regular expression is supplied by the
    environment. *)

Definition JSString := list Z.

Record PasswordRule := {
  rule_test : JSString → bool;
  rule_message : string
}.

(** [/[lo-hi]/.test(s)]: some code unit of [s] lies in the class. *)
Definition testClass (lo hi : Z) (s : JSString) : bool :=
  existsb (λ c, bool_decide (lo <= c <= hi)) s.

Definition passwordRules : list PasswordRule :=
  [ {| rule_test := λ pw, bool_decide (Z.of_nat (length pw) >= 8);
       rule_message := "At least 8 characters" |};
    {| rule_test := testClass 65 90;     (* /[A-Z]/ *)
       rule_message := "Contains uppercase letter" |};
    {| rule_test := testClass 97 122;    (* /[a-z]/ *)
       rule_message := "Contains lowercase letter" |};
    {| rule_test := testClass 48 57;     (* /[0-9]/ *)
       rule_message := "Contains number" |} ].

(** The empty string is the only falsy string. *)
Definition getPasswordError (password : JSString) : option string :=
  if decide (password = []) then Some "Password is required"%string
  else
    match find (λ rule, negb (rule_test rule password)) passwordRules with
    | Some failedRule => Some (rule_message failedRule)
    | None => None
    end.

(** [/^[a-zA-Z0-9_]+$/]: one code unit or more, all of the class. *)
Definition wordUnit (c : Z) : bool :=
  bool_decide (97 <= c <= 122) || bool_decide (65 <= c <= 90) ||
  bool_decide (48 <= c <= 57) || bool_decide (c = 95).

Definition validateUsername (username : JSString) : option string :=
  if decide (username = []) then Some "Username is required"%string
  else if decide (Z.of_nat (length username) < 3)
       then Some "At least 3 characters"%string
  else if negb (bool_decide (username ≠ []) && forallb wordUnit username)
       then Some "Only letters, numbers, underscores"%string
  else None.

(** The label [Strong password] of the form in register mode. *)
Definition strongPassword (password : JSString) : bool :=
  bool_decide (Z.of_nat (length password) > 0) &&
  forallb (λ r, rule_test r password) passwordRules.

Inductive AuthCall :=
| login (email password : JSString)
| register (email password username : JSString).

Record Submitted := {
  emailError : option string;
  passwordError : option string;
  usernameError : option string;
  called : option AuthCall
}.

Section Login.

Variable emailRegex_test : JSString → bool.

Definition validateEmail (email : JSString) : option string :=
  if decide (email = []) then Some "Email is required"%string
  else if negb (emailRegex_test email)
       then Some "Enter a valid email address"%string
  else None.

(** A message is a non-empty string: it is truthy exactly when it is not
    [null]. *)
Definition truthy (x : option string) : bool :=
  match x with Some _ => true | None => false end.

Definition handleSubmit (isLogin : bool) (email password username : JSString)
  : Submitted :=
  let emailErr := validateEmail email in
  let passwordErr := getPasswordError password in
  let usernameErr := if isLogin then None else validateUsername username in
  {| emailError := emailErr;
     passwordError := if isLogin then None else passwordErr;
     usernameError := usernameErr;
     called :=
       if truthy emailErr ||
          (negb isLogin && (truthy passwordErr || truthy usernameErr))
       then None
       else if isLogin then Some (login email password)
       else Some (register email password username) |}.

Lemma getPasswordError_None password :
  getPasswordError password = None ↔
  Z.of_nat (length password) >= 8 ∧
  testClass 65 90 password = true ∧ testClass 97 122 password = true ∧
  testClass 48 57 password = true.
Proof.
  unfold getPasswordError, passwordRules. cbn [find rule_test rule_message].
  destruct (decide (password = [])) as [->|Hne].
  { split; [done|]. cbn. lia. }
  destruct (bool_decide (Z.of_nat (length password) >= 8)) eqn:E1; cbn [negb].
  2:{ apply bool_decide_eq_false in E1. split; [done|]. tauto. }
  apply bool_decide_eq_true in E1.
  destruct (testClass 65 90 password); cbn [negb];
    [|split; [done|]; intuition discriminate].
  destruct (testClass 97 122 password); cbn [negb];
    [|split; [done|]; intuition discriminate].
  destruct (testClass 48 57 password); cbn [negb];
    [|split; [done|]; intuition discriminate].
  tauto.
Qed.

Lemma strongPassword_true password :
  strongPassword password = true ↔ getPasswordError password = None.
Proof.
  rewrite getPasswordError_None.
  unfold strongPassword, passwordRules. cbn [forallb rule_test].
  rewrite !andb_true_iff, !bool_decide_eq_true. intuition lia.
Qed.

Lemma validateUsername_None username :
  validateUsername username = None ↔
  Z.of_nat (length username) >= 3 ∧ forallb wordUnit username = true.
Proof.
  unfold validateUsername.
  destruct (decide (username = [])) as [->|Hne].
  { split; [done|]. cbn. lia. }
  case_decide as Hlen; [split; [done|]; lia|].
  rewrite (bool_decide_eq_true_2 (username ≠ [])) by done. cbn [andb].
  destruct (forallb wordUnit username); cbn [negb];
    [|split; [done|]; intuition discriminate].
  split; [|done]. intros _. split; [lia|done].
Qed.

(** X21. The form never registers an account with a weak password or a
    malformed user name: [register] is called exactly when the e-mail
    address passes its test, the password has 8 code units or more with an
    upper-case letter, a lower-case letter and a digit among them, and the
    user name has 3 code units or more, all of them letters, digits or
    underscores.  The label [Strong password] is shown exactly for the
    passwords that [getPasswordError] accepts.  In login mode only the
    e-mail address is checked: the password is passed on as typed, even
    when it is empty. *)
Theorem register_needs_valid_fields (email password username : JSString) :
  (called (handleSubmit false email password username) =
     Some (register email password username) ↔
   (email ≠ [] ∧ emailRegex_test email = true) ∧
   (Z.of_nat (length password) >= 8 ∧ testClass 65 90 password = true ∧
    testClass 97 122 password = true ∧ testClass 48 57 password = true) ∧
   (Z.of_nat (length username) >= 3 ∧ forallb wordUnit username = true)) ∧
  (called (handleSubmit false email password username) = None ∨
   called (handleSubmit false email password username) =
     Some (register email password username)) ∧
  (strongPassword password = true ↔ getPasswordError password = None) ∧
  (called (handleSubmit true email password username) =
     Some (login email password) ↔
   email ≠ [] ∧ emailRegex_test email = true).
Proof.
  assert (validateEmail email = None ↔
          email ≠ [] ∧ emailRegex_test email = true) as He.
  { unfold validateEmail. case_decide; [split; [done|tauto]|].
    destruct (emailRegex_test email); cbn; [tauto|].
    split; [done|]. by intros [_ ?]. }
  pose proof (getPasswordError_None password) as Hp.
  pose proof (validateUsername_None username) as Hu.
  rewrite <- He, <- Hp, <- Hu.
  split; [|split; [|split]].
  - unfold handleSubmit. cbn.
    destruct (validateEmail email), (getPasswordError password),
      (validateUsername username); cbn; split; try done; intuition congruence.
  - unfold handleSubmit. cbn.
    destruct (validateEmail email), (getPasswordError password),
      (validateUsername username); cbn; tauto.
  - apply strongPassword_true.
  - unfold handleSubmit. cbn.
    destruct (validateEmail email); cbn; split; try done;
      intuition congruence.
Qed.

End Login.

Lemma register_needs_valid_fields_witness :
  let emailRegex_test := λ email : JSString, bool_decide (64 ∈ email) in
  let email := [97; 64; 98; 46; 99] in
  let password := [80; 97; 115; 115; 119; 111; 114; 100; 49] in
  let username := [115; 105; 109; 111; 110; 95; 49] in
  called (handleSubmit emailRegex_test false email password username) =
    Some (register email password username) ∧
  getPasswordError [112; 97; 115; 115; 119; 111; 114; 100; 49] =
    Some "Contains uppercase letter"%string.
Proof.
  intros emailRegex_test email password username.
  split; [|reflexivity].
  apply (register_needs_valid_fields emailRegex_test email password username).
  repeat split; try reflexivity; try discriminate; cbn; lia.
Defined.
